(** * Reconciliation of scheduled loads, remittances and bank activity

    A shallow embedding of the matching code of the repository:
    - [reconciliation_parser.py]: the record classes and [ReconciliationData];
    - [reconciliation_engine.py]: [ReconciliationEngine], the driver-identity
      matcher and the per-driver aggregator;
    - [reconcile_loads_payments.py]: [reconcile_data], the load-reference
      matcher;
    - [reconcile_from_clean_data.py]: [reconcile], the matcher on the cleaned
      bank statement.

    Conventions of the embedding.
    - A [Decimal] is its value, a rational in lowest terms ([Qc]).  The sums
      and differences that the code stores are rounded as the default
      context of [decimal] rounds them, to 28 significant digits, a half to
      the even neighbour ([round_ctx]); comparisons are exact.  Amounts are
      in whole cents, as the parsers read them; the test of two amounts
      within a cent is then the same on the rounded and on the exact
      difference, and is written on the exact one.
    - [str] is [string] (a list of 8-bit characters); [upper] changes the
      letters a-z only.
    - A naive [datetime] is the number of microseconds since a fixed origin; a
      [timedelta] is a difference of two of them and [.days] is its floor
      division by the length of a day.
    - A Python list holds references.  A reference into one of the input lists
      is a [ref]: the slot of the list together with the object found there.
      Two slots count as two objects, as the parsers build them.
    - A list sorted in place is returned as a new value next to the result.
*)

From Stdlib Require Import ZArith QArith Qabs Qcanon Qcabs String Ascii List Lia.
From Stdlib Require Import Sorting.Sorted Sorting.Permutation.
From stdpp Require Import base option list gmap sets strings numbers.

Set Default Proof Using "Type".

Local Open Scope Z_scope.

(** ** Python built-ins used by the sources *)

Module Py.

(** [decimal.Decimal]: the value of the decimal. *)
Abbreviation Decimal := Qc (only parsing).

Definition Decimal_of (num : Z) (den : positive) : Decimal := Q2Qc (num # den).

(** [Decimal('0.01')] *)
Definition one_cent : Decimal := Decimal_of 1 100.

(** [a < b] on decimals. *)
Definition dec_ltb (a b : Decimal) : bool := bool_decide (a < b)%Qc.

(** [bool(d)] for a decimal: zero is falsy. *)
Definition dec_truthy (a : Decimal) : bool := negb (bool_decide (a = 0%Qc)).

(** [bool(x)] for an [Optional[Decimal]]: [None] and zero are falsy. *)
Definition opt_dec_truthy (a : option Decimal) : bool :=
  match a with
  | Some d => dec_truthy d
  | None => false
  end.

(** [abs(a - b) < Decimal('0.01')].  The difference is compared as it is:
    for amounts in whole cents, as the statements and schedules give them,
    the rounding of the difference by the context leaves the outcome of the
    test as it is (lemma [within_cent_rounded]). *)
Definition within_cent (a b : Decimal) : bool :=
  dec_ltb (Qcabs (a - b)%Qc) one_cent.

(** *** The arithmetic context

    A [Decimal] built from a string is exact, but every sum and difference
    is rounded by the default context of [decimal]: 28 significant digits,
    [ROUND_HALF_EVEN].  The exponent limits of the context are not
    modelled. *)

(** [getcontext().prec] *)
Definition prec : Z := 28.

(** [10^k <= n/d], for [n >= 0]. *)
Definition le_pow10 (k n : Z) (d : positive) : bool :=
  if 0 <=? k then 10 ^ k * Zpos d <=? n else Zpos d <=? n * 10 ^ (- k).

(** The exponent of the leading digit of [n/d], for [n >= 1]: the largest
    [k] with [10^k <= n/d], looked for upwards from [k]. *)
Fixpoint leading_from (fuel : nat) (k n : Z) (d : positive) : Z :=
  match fuel with
  | O => k
  | S fuel' =>
      if le_pow10 (k + 1) n d then leading_from fuel' (k + 1) n d else k
  end.

Definition leading_exponent (n : Z) (d : positive) : Z :=
  leading_from (Z.to_nat (Z.log2 n + Z.log2_up (Zpos d) + 1))
               (- Z.log2_up (Zpos d)) n d.

(** [n/d] rounded to an integer, a half to the even neighbour, for
    [n >= 0] and [d > 0]. *)
Definition round_half_even (n d : Z) : Z :=
  let f := n / d in
  match 2 * (n mod d) ?= d with
  | Lt => f
  | Gt => f + 1
  | Eq => if Z.even f then f else f + 1
  end.

(** The value the context gives to an exact result [q]: the nearest number
    of [prec] significant digits, written [c * 10^e] with a coefficient [c]
    of [prec] digits. *)
Definition round_ctx (q : Decimal) : Decimal :=
  let n := Qnum q in
  if n =? 0 then q
  else
    let e := leading_exponent (Z.abs n) (Qden q) - (prec - 1) in
    let c := round_half_even (Z.abs n * 10 ^ Z.max 0 (- e))
                             (Zpos (Qden q) * 10 ^ Z.max 0 e) in
    Q2Qc ((Z.sgn n * c * 10 ^ Z.max 0 e) # Z.to_pos (10 ^ Z.max 0 (- e))).

(** [a + b] and [a - b] on decimals. *)
Definition dec_add (a b : Decimal) : Decimal := round_ctx (a + b)%Qc.

Definition dec_sub (a b : Decimal) : Decimal := round_ctx (a - b)%Qc.

(** [sum(...)] over decimals, accumulated from the left, each addition
    rounded by the context. *)
Definition dec_sum (l : list Decimal) : Decimal :=
  fold_left dec_add l 0%Qc.

(** One day, in microseconds. *)
Definition day : Z := 86400000000.

(** [(a - b).days] *)
Definition timedelta_days (a b : Z) : Z := (a - b) / day.

(** [c.upper()] on one character of a name written in ASCII; any other
    character is left as it is. *)
Definition upper_ascii (c : ascii) : ascii :=
  let n := nat_of_ascii c in
  if ((97 <=? n) && (n <=? 122))%nat then ascii_of_nat (n - 32) else c.

(** [s.upper()] *)
Fixpoint upper (s : string) : string :=
  match s with
  | EmptyString => EmptyString
  | String c s' => String (upper_ascii c) (upper s')
  end.

(** [s.replace(c, '')] for a one-character [c]. *)
Fixpoint replace_del (c : ascii) (s : string) : string :=
  match s with
  | EmptyString => EmptyString
  | String a s' =>
      if Ascii.eqb a c then replace_del c s' else String a (replace_del c s')
  end.

(** [a in b] on strings: [a] occurs in [b] as a contiguous block. *)
Fixpoint str_in (a b : string) : bool :=
  String.prefix a b ||
  match b with
  | EmptyString => false
  | String _ b' => str_in a b'
  end.

(** [bool(s)] for an optional string: [None] and [''] are falsy. *)
Definition opt_str_truthy (s : option string) : bool :=
  match s with
  | Some EmptyString => false
  | Some _ => true
  | None => false
  end.

(** A reference to the object held in slot [slot] of an input list. *)
Record ref (A : Type) : Type := Ref { slot : nat; deref : A }.
Global Arguments Ref {A} _ _.
Global Arguments slot {A} _.
Global Arguments deref {A} _.

(** [enumerate(l)] counted from [i], each item kept with its slot. *)
Fixpoint enumerate_from {A : Type} (i : nat) (l : list A) : list (ref A) :=
  match l with
  | [] => []
  | x :: l' => Ref i x :: enumerate_from (S i) l'
  end.

Definition enumerate {A : Type} (l : list A) : list (ref A) :=
  enumerate_from 0 l.

(** [l.sort(key=...)]: the stable ascending sort.  [insert_by] puts [x] in
    front of the first item whose key is not smaller, so that [x], which
    came first in the input, stays ahead of the items with an equal key. *)
Section Sort.
Context {A : Type} (key : A -> Z).

Fixpoint insert_by (x : A) (l : list A) : list A :=
  match l with
  | [] => [x]
  | y :: l' => if key x <=? key y then x :: y :: l' else y :: insert_by x l'
  end.

Fixpoint sort_by (l : list A) : list A :=
  match l with
  | [] => []
  | x :: l' => insert_by x (sort_by l')
  end.
End Sort.

(** [min(l)] and [max(l)] of a non-empty list of integers. *)
Definition list_min (l : list Z) : option Z :=
  match l with
  | [] => None
  | x :: l' => Some (fold_left Z.min l' x)
  end.

Definition list_max (l : list Z) : option Z :=
  match l with
  | [] => None
  | x :: l' => Some (fold_left Z.max l' x)
  end.

End Py.

Import Py.

(** ** [reconciliation_parser.py]: the records *)

Module Parser.

(** One invoice line of a remittance (a dict in the source). *)
Record Invoice : Type := {
  invoice_number : string;
  invoice_date : string;
  invoice_amount : Decimal;
  discount : Decimal;
  amount_paid : Decimal;
  vin : string;
  location : string
}.

Record PaymentRemittance : Type := {
  payment_date : Z;
  payment_reference : string;
  paper_document_number : string;
  payment_amount : Decimal;
  invoices : list Invoice;
  pr_source_file : string
}.

Record BankTransaction : Type := {
  transaction_date : Z;
  bt_amount : Decimal;
  description : string;
  recipient : string;
  transaction_type : string;
  bt_source_file : string
}.

Record DriverScheduleEntry : Type := {
  date : Z;
  driver : string;
  company : string;
  pickup : string;
  dropoff : string;
  load_number : string;
  amount : option Decimal;
  date_paid : option Z;
  notes : string;
  source_file : string
}.

(** [ReconciliationData]: the three collections of one run. *)
Record ReconciliationData : Type := {
  payment_remittances : list PaymentRemittance;
  bank_transactions : list BankTransaction;
  driver_schedules : list DriverScheduleEntry
}.

(** [ReconciliationData()]: three empty lists. *)
Definition empty_data : ReconciliationData :=
  {| payment_remittances := []; bank_transactions := []; driver_schedules := [] |}.

(** The three [add_...] methods: [list.extend] on one of the lists. *)
Definition add_payment_remittances (data : ReconciliationData)
    (payments : list PaymentRemittance) : ReconciliationData :=
  {| payment_remittances := payment_remittances data ++ payments;
     bank_transactions := bank_transactions data;
     driver_schedules := driver_schedules data |}.

Definition add_bank_transactions (data : ReconciliationData)
    (transactions : list BankTransaction) : ReconciliationData :=
  {| payment_remittances := payment_remittances data;
     bank_transactions := bank_transactions data ++ transactions;
     driver_schedules := driver_schedules data |}.

Definition add_driver_schedules (data : ReconciliationData)
    (schedules : list DriverScheduleEntry) : ReconciliationData :=
  {| payment_remittances := payment_remittances data;
     bank_transactions := bank_transactions data;
     driver_schedules := driver_schedules data ++ schedules |}.

(** [s.amount for s in schedules if s.amount]: the amounts that are
    neither [None] nor zero, in order. *)
Definition truthy_amounts (schedules : list DriverScheduleEntry)
  : list Decimal :=
  omap (fun s => match amount s with
                 | Some a => if dec_truthy a then Some a else None
                 | None => None
                 end) schedules.

(** The dict [get_summary] returns, one field per key. *)
Record DataSummary : Type := {
  payment_remittances_count : nat;
  payment_remittances_total : Decimal;
  bank_transactions_count : nat;
  bank_transactions_total : Decimal;
  driver_schedule_entries : nat;
  driver_schedule_total : Decimal
}.

Definition get_summary (data : ReconciliationData) : DataSummary :=
  {| payment_remittances_count := length (payment_remittances data);
     payment_remittances_total :=
       dec_sum (map payment_amount (payment_remittances data));
     bank_transactions_count := length (bank_transactions data);
     bank_transactions_total := dec_sum (map bt_amount (bank_transactions data));
     driver_schedule_entries := length (driver_schedules data);
     driver_schedule_total := dec_sum (truthy_amounts (driver_schedules data)) |}.

End Parser.

Import Parser.

(** ** [reconciliation_engine.py]: the driver-identity matcher *)

Module Engine.

Local Open Scope string_scope.

(** [self.driver_name_map], in the order the dict literal lists it. *)
Definition driver_name_map : list (string * string) :=
  [ ("RICH-LITTLE", "Little Rich");
    ("BIGRICH", "Rich");
    ("BIG RICH", "Rich");
    ("STEVEMARTIN", "Steve");
    ("STEVE MARTIN", "Steve");
    ("TONY", "Tony") ].

(** [s.replace(' ', '').replace('-', '')] *)
Definition squeeze (s : string) : string :=
  replace_del "-" (replace_del " " s).

(** The loop of [normalize_driver_name] over the items of the map: the
    value of the first key whose squeezed form is [name_upper]. *)
Fixpoint first_alias (name_upper : string) (m : list (string * string))
  : option string :=
  match m with
  | [] => None
  | (key, value) :: m' =>
      if String.eqb (squeeze key) name_upper then Some value
      else first_alias name_upper m'
  end.

Definition normalize_driver_name (name : string) : string :=
  let name_upper := squeeze (upper name) in
  match first_alias name_upper driver_name_map with
  | Some value => value
  | None => name
  end.

(** [ReconciliationMatch].  [match_type] is "FULL" for every match the
    engine builds. *)
Record ReconciliationMatch : Type := {
  driver_entry : option (ref DriverScheduleEntry);
  payment_remittance : option (ref PaymentRemittance);
  bank_transaction : option (ref BankTransaction);
  match_type : string;
  discrepancy : option string;
  amount_difference : Decimal
}.

(** The inner dict of [driver_summaries], one field per key. *)
Record DriverSummary : Type := {
  scheduled_loads : Z;
  scheduled_amount : Decimal;
  paid_loads : Z;
  paid_amount : Decimal;
  unpaid_loads : Z;
  unpaid_amount : Decimal
}.

Record ReconciliationReport : Type := {
  report_date : Z;
  date_range_start : option Z;
  date_range_end : option Z;
  total_remittances_received : Decimal;
  total_paid_to_drivers : Decimal;
  total_scheduled_amount : Decimal;
  full_matches : list ReconciliationMatch;
  partial_matches : list ReconciliationMatch;
  missing_payments : list (ref DriverScheduleEntry);
  missing_bank_transactions : list (ref DriverScheduleEntry);
  orphan_payments : list (ref PaymentRemittance);
  orphan_bank_transactions : list (ref BankTransaction);
  amount_discrepancies : list ReconciliationMatch;
  driver_summaries : gmap string DriverSummary
}.

(** The tests of the inner loop of [reconcile] on one bank transaction, for
    a schedule entry of amount [entry_amount]: recipient, amount, date.
    [Some score] when the three pass. *)
Definition candidate_score (lookback_days : Z) (driver_normalized : string)
    (schedule_entry : DriverScheduleEntry) (entry_amount : Decimal)
    (bank_trans : BankTransaction) : option Z :=
  let recipient_normalized := normalize_driver_name (recipient bank_trans) in
  if negb (String.eqb driver_normalized recipient_normalized) then None
  else if within_cent (bt_amount bank_trans) entry_amount then
    let date_diff :=
      Z.abs (timedelta_days (transaction_date bank_trans) (date schedule_entry)) in
    if (date_diff <=? lookback_days)%Z then Some (100 - date_diff)%Z else None
  else None.

(** One turn of the inner loop.  The pair is [(best_match, best_match_score)];
    [best_match] keeps the enumerated item, that is the index [i] and the
    object [self.data.bank_transactions[i]] read back after the loop. *)
Definition scan_step (lookback_days : Z) (driver_normalized : string)
    (schedule_entry : DriverScheduleEntry) (entry_amount : Decimal)
    (matched_bank_trans : gset nat)
    (best : option (ref BankTransaction) * Z) (it : ref BankTransaction)
  : option (ref BankTransaction) * Z :=
  if bool_decide (slot it ∈ matched_bank_trans) then best
  else
    match candidate_score lookback_days driver_normalized schedule_entry
                          entry_amount (deref it) with
    | Some score => if (snd best <? score)%Z then (Some it, score) else best
    | None => best
    end.

Definition find_best_match (lookback_days : Z)
    (bank : list BankTransaction) (matched_bank_trans : gset nat)
    (schedule_entry : DriverScheduleEntry) (entry_amount : Decimal)
  : option (ref BankTransaction) :=
  let driver_normalized := normalize_driver_name (driver schedule_entry) in
  fst (fold_left
         (scan_step lookback_days driver_normalized schedule_entry entry_amount
                    matched_bank_trans)
         (enumerate bank) (None, 0%Z)).

(** The variables the outer loop of [reconcile] updates. *)
Record MatchState : Type := {
  st_full_matches : list ReconciliationMatch;
  st_missing_bank_transactions : list (ref DriverScheduleEntry);
  matched_schedules : gset nat;
  matched_bank_trans : gset nat
}.

Definition initial_state : MatchState :=
  {| st_full_matches := [];
     st_missing_bank_transactions := [];
     matched_schedules := ∅;
     matched_bank_trans := ∅ |}.

Definition full_match (e : ref DriverScheduleEntry) (b : ref BankTransaction)
  : ReconciliationMatch :=
  {| driver_entry := Some e;
     payment_remittance := None;
     bank_transaction := Some b;
     match_type := "FULL";
     discrepancy := None;
     amount_difference := 0%Qc |}.

(** One turn of the outer loop.  An entry whose amount is falsy ([None] or
    zero) is passed over by [continue]. *)
Definition match_entry (lookback_days : Z) (bank : list BankTransaction)
    (st : MatchState) (it : ref DriverScheduleEntry) : MatchState :=
  let schedule_entry := deref it in
  match amount schedule_entry with
  | None => st
  | Some entry_amount =>
      if negb (dec_truthy entry_amount) then st
      else
        match find_best_match lookback_days bank (matched_bank_trans st)
                              schedule_entry entry_amount with
        | Some best_match =>
            {| st_full_matches :=
                 (st_full_matches st ++ [full_match it best_match])%list;
               st_missing_bank_transactions := st_missing_bank_transactions st;
               matched_schedules := matched_schedules st ∪ {[slot it]};
               matched_bank_trans := matched_bank_trans st ∪ {[slot best_match]} |}
        | None =>
            {| st_full_matches := st_full_matches st;
               st_missing_bank_transactions :=
                 (st_missing_bank_transactions st ++ [it])%list;
               matched_schedules := matched_schedules st;
               matched_bank_trans := matched_bank_trans st |}
        end
  end.

Definition match_schedules (lookback_days : Z) (bank : list BankTransaction)
    (schedules : list DriverScheduleEntry) : MatchState :=
  fold_left (match_entry lookback_days bank) (enumerate schedules) initial_state.

(** The second loop: the bank transactions whose index was never matched. *)
Definition find_orphan_bank_transactions (bank : list BankTransaction)
    (matched : gset nat) : list (ref BankTransaction) :=
  filter (fun it => slot it ∉ matched) (enumerate bank).

(** The value a [defaultdict] creates for a new driver. *)
Definition zero_summary : DriverSummary :=
  {| scheduled_loads := 0; scheduled_amount := 0%Qc;
     paid_loads := 0; paid_amount := 0%Qc;
     unpaid_loads := 0; unpaid_amount := 0%Qc |}.

(** [summaries[driver]] read and written back through [f]; a missing key
    starts from [zero_summary]. *)
Definition update_summary (f : DriverSummary -> DriverSummary) (driver : string)
    (summaries : gmap string DriverSummary) : gmap string DriverSummary :=
  <[driver := f (default zero_summary (summaries !! driver))]> summaries.

(** [x += a] guarded by [if a:]. *)
Definition add_if_truthy (x : Decimal) (a : option Decimal) : Decimal :=
  match a with
  | Some d => if dec_truthy d then dec_add x d else x
  | None => x
  end.

Definition count_scheduled (a : option Decimal) (s : DriverSummary) : DriverSummary :=
  {| scheduled_loads := scheduled_loads s + 1;
     scheduled_amount := add_if_truthy (scheduled_amount s) a;
     paid_loads := paid_loads s; paid_amount := paid_amount s;
     unpaid_loads := unpaid_loads s; unpaid_amount := unpaid_amount s |}.

Definition count_paid (a : option Decimal) (s : DriverSummary) : DriverSummary :=
  {| scheduled_loads := scheduled_loads s;
     scheduled_amount := scheduled_amount s;
     paid_loads := paid_loads s + 1;
     paid_amount := add_if_truthy (paid_amount s) a;
     unpaid_loads := unpaid_loads s; unpaid_amount := unpaid_amount s |}.

Definition count_unpaid (a : option Decimal) (s : DriverSummary) : DriverSummary :=
  {| scheduled_loads := scheduled_loads s;
     scheduled_amount := scheduled_amount s;
     paid_loads := paid_loads s; paid_amount := paid_amount s;
     unpaid_loads := unpaid_loads s + 1;
     unpaid_amount := add_if_truthy (unpaid_amount s) a |}.

Definition summarize_entry (count : option Decimal -> DriverSummary -> DriverSummary)
    (summaries : gmap string DriverSummary) (schedule_entry : DriverScheduleEntry)
  : gmap string DriverSummary :=
  update_summary (count (amount schedule_entry))
                 (normalize_driver_name (driver schedule_entry)) summaries.

(** The loop over [report.full_matches]: a match without a driver entry is
    passed over. *)
Definition summarize_match (summaries : gmap string DriverSummary)
    (m : ReconciliationMatch) : gmap string DriverSummary :=
  match driver_entry m with
  | Some e => summarize_entry count_paid summaries (deref e)
  | None => summaries
  end.

Definition _build_driver_summaries (schedules : list DriverScheduleEntry)
    (full : list ReconciliationMatch) (missing : list (ref DriverScheduleEntry))
  : gmap string DriverSummary :=
  let summaries := fold_left (summarize_entry count_scheduled) schedules ∅ in
  let summaries := fold_left summarize_match full summaries in
  fold_left (fun s it => summarize_entry count_unpaid s (deref it)) missing summaries.

(** "For now, return empty list". *)
Definition _find_orphan_payments (data : ReconciliationData)
  : list (ref PaymentRemittance) := [].

(** [reconcile].  The three lists of [self.data] are sorted in place: the
    data after the call is the first component.  [now] is the clock read for
    [report_date]. *)
Definition reconcile (now : Z) (data : ReconciliationData) (lookback_days : Z)
  : ReconciliationData * ReconciliationReport :=
  let payments := sort_by payment_date (payment_remittances data) in
  let bank := sort_by transaction_date (bank_transactions data) in
  let schedules := sort_by date (driver_schedules data) in
  let data' := {| payment_remittances := payments;
                  bank_transactions := bank;
                  driver_schedules := schedules |} in
  let all_dates := (map payment_date payments ++ map transaction_date bank
                    ++ map date schedules)%list in
  let st := match_schedules lookback_days bank schedules in
  (data',
   {| report_date := now;
      date_range_start := list_min all_dates;
      date_range_end := list_max all_dates;
      total_remittances_received := dec_sum (map payment_amount payments);
      total_paid_to_drivers := dec_sum (map bt_amount bank);
      total_scheduled_amount :=
        fold_left add_if_truthy (map amount schedules) 0%Qc;
      full_matches := st_full_matches st;
      partial_matches := [];
      missing_payments := [];
      missing_bank_transactions := st_missing_bank_transactions st;
      orphan_payments := _find_orphan_payments data';
      orphan_bank_transactions :=
        find_orphan_bank_transactions bank (matched_bank_trans st);
      amount_discrepancies := [];
      driver_summaries :=
        _build_driver_summaries schedules (st_full_matches st)
                                (st_missing_bank_transactions st) |}).

(** [if start_date: l = [x for x in l if key(x) >= start_date]]: a
    [datetime] is always truthy, only [None] leaves the list as it is. *)
Definition from_date {A : Type} (key : A -> Z) (start_date : option Z)
    (l : list A) : list A :=
  match start_date with
  | Some d => List.filter (fun x => d <=? key x)%Z l
  | None => l
  end.

(** [if end_date: l = [x for x in l if key(x) <= end_date]] *)
Definition to_date {A : Type} (key : A -> Z) (end_date : option Z)
    (l : list A) : list A :=
  match end_date with
  | Some d => List.filter (fun x => key x <=? d)%Z l
  | None => l
  end.

(** The dict [get_driver_detail] returns, with its two inner dicts
    flattened. *)
Record DriverDetail : Type := {
  dd_driver : string;
  dd_start : option Z;
  dd_end : option Z;
  dd_schedules : list DriverScheduleEntry;
  dd_bank_transactions : list BankTransaction;
  total_scheduled : Decimal;
  total_paid : Decimal;
  difference : Decimal;
  schedule_count : nat;
  payment_count : nat
}.

Definition get_driver_detail (data : ReconciliationData) (driver_name : string)
    (start_date end_date : option Z) : DriverDetail :=
  let driver_normalized := normalize_driver_name driver_name in
  let schedules :=
    List.filter (fun s => String.eqb (normalize_driver_name (driver s))
                                     driver_normalized)
                (driver_schedules data) in
  let schedules := from_date date start_date schedules in
  let schedules := to_date date end_date schedules in
  let bank_trans :=
    List.filter (fun t => String.eqb (normalize_driver_name (recipient t))
                                     driver_normalized)
                (bank_transactions data) in
  let bank_trans := from_date transaction_date start_date bank_trans in
  let bank_trans := to_date transaction_date end_date bank_trans in
  let total_scheduled := dec_sum (truthy_amounts schedules) in
  let total_paid := dec_sum (map bt_amount bank_trans) in
  {| dd_driver := driver_normalized;
     dd_start := start_date;
     dd_end := end_date;
     dd_schedules := schedules;
     dd_bank_transactions := bank_trans;
     total_scheduled := total_scheduled;
     total_paid := total_paid;
     difference := dec_sub total_scheduled total_paid;
     schedule_count := length schedules;
     payment_count := length bank_trans |}.

(** The dict [find_transactions_by_date_range] returns. *)
Record DateRangeResult : Type := {
  fr_start : Z;
  fr_end : Z;
  fr_payment_remittances : list PaymentRemittance;
  fr_bank_transactions : list BankTransaction;
  fr_driver_schedules : list DriverScheduleEntry
}.

(** [start_date <= key(x) <= end_date] *)
Definition in_range {A : Type} (key : A -> Z) (start_date end_date : Z)
    (x : A) : bool :=
  ((start_date <=? key x) && (key x <=? end_date))%Z.

(** [transaction_type in ('all', kind)] *)
Definition type_selects (transaction_type kind : string) : bool :=
  String.eqb transaction_type "all" || String.eqb transaction_type kind.

Definition find_transactions_by_date_range (data : ReconciliationData)
    (start_date end_date : Z) (transaction_type : string) : DateRangeResult :=
  {| fr_start := start_date;
     fr_end := end_date;
     fr_payment_remittances :=
       if type_selects transaction_type "remittances"
       then List.filter (in_range payment_date start_date end_date)
                        (payment_remittances data)
       else [];
     fr_bank_transactions :=
       if type_selects transaction_type "bank"
       then List.filter (in_range transaction_date start_date end_date)
                        (bank_transactions data)
       else [];
     fr_driver_schedules :=
       if type_selects transaction_type "schedules"
       then List.filter (in_range date start_date end_date)
                        (driver_schedules data)
       else [] |}.

End Engine.

Import Engine.

(** ** [reconcile_loads_payments.py]: the load-reference matcher *)

Module LoadsPayments.

Local Open Scope string_scope.

(** The classes of the script.  Dates are the strings found in the files;
    fields that default to [None] are options. *)
Record Load : Type := {
  ld_date : string;
  ld_company : string;
  ld_pickup : string;
  ld_dropoff : string;
  load_num : option string;
  ld_amount : Decimal;
  ld_date_paid : option string;
  ld_notes : option string;
  ld_source_file : option string
}.

Record Payment : Type := {
  payment_ref : string;
  paper_doc_num : option string;
  py_payment_date : option string;
  py_payment_amount : option Decimal;
  py_invoices : list (list (string * string));
  py_source_file : option string
}.

Record Deposit : Type := {
  dp_date : string;
  dp_description : string;
  dp_amount : Decimal;
  balance : Decimal;
  load_ref : option string;
  dp_source_file : option string
}.

(** The three f-strings that [reconcile_data] stores in [match_reason],
    kept with the values they print instead of the formatted text. *)
Inductive MatchReason : Type :=
  | LoadNumMatched (load_num : option string)
  | PartialLoadNumMatch (load_num : option string) (dep_ref : string)
  | AmountMatch (amount : Decimal).

Record Reconciliation : Type := {
  rc_load : option (ref Load);
  rc_payment : option (ref Payment);
  rc_deposit : option (ref Deposit);
  match_confidence : option string;
  match_reason : option MatchReason
}.

(** [Reconciliation.is_complete] *)
Definition is_complete (r : Reconciliation) : bool :=
  match rc_load r, rc_payment r, rc_deposit r with
  | Some _, Some _, Some _ => true
  | _, _, _ => false
  end.

(** [d[k] = v] on a dict, which keeps its keys in insertion order: a key
    already there keeps its place and takes the new value. *)
Fixpoint dict_set {V : Type} (k : string) (v : V) (d : list (string * V))
  : list (string * V) :=
  match d with
  | [] => [(k, v)]
  | (k', v') :: d' =>
      if String.eqb k' k then (k', v) :: d' else (k', v') :: dict_set k v d'
  end.

(** [d.get(k)] *)
Fixpoint dict_get {V : Type} (k : string) (d : list (string * V)) : option V :=
  match d with
  | [] => None
  | (k', v') :: d' => if String.eqb k' k then Some v' else dict_get k d'
  end.

(** [{dep.load_ref: dep for dep in deposits if dep.load_ref}] *)
Definition add_by_ref (d : list (string * ref Deposit)) (it : ref Deposit)
  : list (string * ref Deposit) :=
  match load_ref (deref it) with
  | Some r => if opt_str_truthy (Some r) then dict_set r it d else d
  | None => d
  end.

Definition deposits_by_ref_of (deposits : list Deposit)
  : list (string * ref Deposit) :=
  fold_left add_by_ref (enumerate deposits) [].

(** [load.load_num in deposits_by_ref], with the value found. *)
Definition direct_match (deposits_by_ref : list (string * ref Deposit))
    (load : Load) : option (ref Deposit) :=
  match load_num load with
  | Some n => dict_get n deposits_by_ref
  | None => None
  end.

(** The test of the partial-match loop on one item of the dict. *)
Definition partial_test (load : Load) (item : string * ref Deposit) : bool :=
  let dep_ref := fst item in
  opt_str_truthy (Some dep_ref) && opt_str_truthy (load_num load) &&
  match load_num load with
  | Some n => str_in dep_ref n || str_in n dep_ref
  | None => false
  end.

(** The first item of the dict that passes, where the loop breaks. *)
Definition partial_match (deposits_by_ref : list (string * ref Deposit))
    (load : Load) : option (string * ref Deposit) :=
  List.find (partial_test load) deposits_by_ref.

(** [deposit not in [r.deposit for r in reconciled]]: the class defines no
    [__eq__], objects are compared by identity. *)
Definition already_reconciled (reconciled : list Reconciliation)
    (it : ref Deposit) : bool :=
  existsb (fun r => match rc_deposit r with
                    | Some d => Nat.eqb (slot d) (slot it)
                    | None => false
                    end) reconciled.

Definition amount_test (reconciled : list Reconciliation) (load : Load)
    (it : ref Deposit) : bool :=
  within_cent (dp_amount (deref it)) (ld_amount load) &&
  negb (already_reconciled reconciled it).

Definition amount_match (reconciled : list Reconciliation)
    (deposits : list Deposit) (load : Load) : option (ref Deposit) :=
  List.find (amount_test reconciled load) (enumerate deposits).

(** The three tiers for one load: [(matched_deposit, match_reason,
    confidence)], or [None] when [matched_deposit] stays [None]. *)
Definition match_load (deposits_by_ref : list (string * ref Deposit))
    (deposits : list Deposit) (reconciled : list Reconciliation) (load : Load)
  : option (ref Deposit * MatchReason * string) :=
  let by_reference :=
    match direct_match deposits_by_ref load with
    | Some d => Some (d, LoadNumMatched (load_num load), "high")
    | None =>
        match partial_match deposits_by_ref load with
        | Some (dep_ref, d) =>
            Some (d, PartialLoadNumMatch (load_num load) dep_ref, "medium")
        | None => None
        end
    end in
  match by_reference with
  | Some m => Some m
  | None =>
      match amount_match reconciled deposits load with
      | Some d => Some (d, AmountMatch (ld_amount load), "low")
      | None => None
      end
  end.

(** One turn of the loop over the loads; the pair is
    [(reconciled, unmatched_loads)]. *)
Definition reconcile_load (deposits_by_ref : list (string * ref Deposit))
    (deposits : list Deposit)
    (st : list Reconciliation * list (ref Load)) (it : ref Load)
  : list Reconciliation * list (ref Load) :=
  let '(reconciled, unmatched_loads) := st in
  match match_load deposits_by_ref deposits reconciled (deref it) with
  | Some (matched_deposit, reason, confidence) =>
      ((reconciled ++ [ {| rc_load := Some it;
                           rc_payment := None;
                           rc_deposit := Some matched_deposit;
                           match_confidence := Some confidence;
                           match_reason := Some reason |} ])%list,
       unmatched_loads)
  | None => (reconciled, (unmatched_loads ++ [it])%list)
  end.

(** [{r.deposit for r in reconciled if r.deposit}], as the set of slots. *)
Definition matched_deposits_of (reconciled : list Reconciliation) : gset nat :=
  list_to_set (omap (fun r => slot <$> rc_deposit r) reconciled).

(** [reconcile_data]: [(reconciled, unmatched_loads, unmatched_payments,
    unmatched_deposits)].  The dict [loads_by_num] the function also builds
    is never read. *)
Definition reconcile_data (loads : list Load) (payments : list Payment)
    (deposits : list Deposit)
  : list Reconciliation * list (ref Load) * list (ref Payment)
    * list (ref Deposit) :=
  let deposits_by_ref := deposits_by_ref_of deposits in
  let '(reconciled, unmatched_loads) :=
    fold_left (reconcile_load deposits_by_ref deposits) (enumerate loads)
              ([], []) in
  let matched_deposits := matched_deposits_of reconciled in
  let unmatched_deposits :=
    filter (fun it => slot it ∉ matched_deposits) (enumerate deposits) in
  let unmatched_payments := enumerate payments in
  (reconciled, unmatched_loads, unmatched_payments, unmatched_deposits).

End LoadsPayments.

(** ** Vocabulary of the statements *)

Module Spec.

(** [l'] is [l] put in ascending order of [key] by a stable sort: the same
    items, in order, and the items of equal key in their order of [l]. *)
Definition stable_sort_of {A : Type} (key : A -> Z) (l l' : list A) : Prop :=
  l' ≡ₚ l
  /\ StronglySorted (fun a b => key a <= key b) l'
  /\ forall k : Z, filter (fun x => key x = k) l' = filter (fun x => key x = k) l.

(** The absolute day difference of the matcher, transaction against load. *)
Definition day_diff (e : DriverScheduleEntry) (b : BankTransaction) : Z :=
  Z.abs (timedelta_days (transaction_date b) (date e)).

(** A bank transaction qualifies for a load of amount [a]: same normalized
    name, amounts less than one cent apart, day difference within the
    lookback window. *)
Definition qualifies (lookback_days : Z) (e : DriverScheduleEntry)
    (a : Decimal) (b : BankTransaction) : Prop :=
  normalize_driver_name (recipient b) = normalize_driver_name (driver e)
  /\ (Qcabs (bt_amount b - a) < one_cent)%Qc
  /\ day_diff e b <= lookback_days.

(** How many FULL matches of a report hold the schedule entry of slot [i],
    and how many hold the bank transaction of slot [j]. *)
Definition full_matches_of_entry (i : nat) (r : ReconciliationReport) : nat :=
  length (filter (fun m => slot <$> driver_entry m = Some i) (full_matches r)).

Definition full_matches_of_bank_trans (j : nat) (r : ReconciliationReport) : nat :=
  length (filter (fun m => slot <$> bank_transaction m = Some j) (full_matches r)).

(** How many times [i] occurs in a list of indices. *)
Definition occ (i : nat) (l : list nat) : nat :=
  length (filter (fun x => x = i) l).

(** How many times slot [i] is listed in a list of references. *)
Definition times_listed {A : Type} (i : nat) (l : list (ref A)) : nat :=
  length (filter (fun it => slot it = i) l).

(** The state of the outer loop when the entry of slot [n] is reached. *)
Definition state_before (lookback_days : Z) (bank : list BankTransaction)
    (schedules : list DriverScheduleEntry) (n : nat) : MatchState :=
  match_schedules lookback_days bank (take n schedules).

(** [it] is an open candidate of score [s] for the entry [e] of amount [a]:
    its index is not among the consumed ones, and it passes the three tests
    of the inner loop. *)
Definition open_candidate (lookback_days : Z) (e : DriverScheduleEntry)
    (a : Decimal) (matched : gset nat) (it : ref BankTransaction) (s : Z)
  : Prop :=
  (slot it ∉ matched)
  /\ candidate_score lookback_days (normalize_driver_name (driver e)) e a
                     (deref it) = Some s.

(** The schedule entries and the bank transactions held by a list of
    matches. *)
Definition entries_of (F : list ReconciliationMatch)
  : list (ref DriverScheduleEntry) := omap driver_entry F.

Definition banks_of (F : list ReconciliationMatch)
  : list (ref BankTransaction) := omap bank_transaction F.

(** What the outer loop keeps true of its variables: the set of consumed
    indices is the set of the transactions held by the FULL matches, none is
    held twice, and every match is a FULL match of a listed transaction. *)
Definition state_ok (bank : list BankTransaction) (st : MatchState) : Prop :=
  matched_bank_trans st = list_to_set (slot <$> banks_of (st_full_matches st))
  /\ NoDup (slot <$> banks_of (st_full_matches st))
  /\ Forall (fun m => exists e b, m = full_match e b /\ b ∈ enumerate bank)
            (st_full_matches st).

(** The entry has an amount the matcher works on: neither [None] nor zero. *)
Definition has_amount (it : ref DriverScheduleEntry) : Prop :=
  opt_dec_truthy (amount (deref it)) = true.

(** A FULL match that is justified: the load has an amount that is neither
    null nor zero, the transaction qualifies for it, and their day difference
    is below 100. *)
Definition sound_match (lookback_days : Z) (m : ReconciliationMatch) : Prop :=
  exists e b a,
    m = full_match e b
    /\ amount (deref e) = Some a
    /\ dec_truthy a = true
    /\ qualifies lookback_days (deref e) a (deref b)
    /\ day_diff (deref e) (deref b) < 100.

(** The dates of all the records of the three collections. *)
Definition all_dates (data : ReconciliationData) : list Z :=
  map payment_date (payment_remittances data)
  ++ map transaction_date (bank_transactions data)
  ++ map date (driver_schedules data).

(** The sum of a list of amounts, as a number: nothing is rounded. *)
Definition exact_sum (l : list Decimal) : Decimal :=
  foldr Qcplus 0%Qc l.

(** An amount in cents, rounded down; the amount is a whole number of
    cents when it is that many hundredths. *)
Definition in_cents (a : Decimal) : Z := (Qnum a * 100) / Zpos (Qden a).

Definition whole_cents (a : Decimal) : Prop := a = Decimal_of (in_cents a) 100.

(** The absolute values of the amounts of a list, added up, in cents. *)
Definition abs_cents (l : list Decimal) : Z :=
  foldr (fun a acc => Z.abs (in_cents a) + acc) 0 l.

(** Amounts that the context adds without rounding, in any order and
    grouping: whole cents whose absolute values add up to less than
    [10^26], so that 28 digits hold the sum of any of them. *)
Definition rounding_free (l : list Decimal) : Prop :=
  Forall whole_cents l /\ abs_cents l < 10 ^ 28.

(** The sum of the amounts of a list of bank transactions. *)
Definition bank_total (l : list (ref BankTransaction)) : Decimal :=
  exact_sum (map (fun it => bt_amount (deref it)) l).

(** The load belongs to the driver of normalized name [d]. *)
Definition driver_is (d : string) (e : DriverScheduleEntry) : Prop :=
  normalize_driver_name (driver e) = d.

#[global] Instance driver_is_dec (d : string) (e : DriverScheduleEntry)
  : Decision (driver_is d e) :=
  decide (normalize_driver_name (driver e) = d).

(** What [x += amount] under [if amount:] adds: the amount, or nothing. *)
Definition amount_value (a : option Decimal) : Decimal :=
  match a with
  | Some d => if dec_truthy d then d else 0%Qc
  | None => 0%Qc
  end.

(** The sum of the amounts of a list of loads. *)
Definition total (E : list DriverScheduleEntry) : Decimal :=
  foldr (fun e acc => (amount_value (amount e) + acc)%Qc) 0%Qc E.

(** A load that carries no amount to reconcile: [None] or zero. *)
Definition no_amount (e : DriverScheduleEntry) : Prop :=
  opt_dec_truthy (amount e) = false.

#[global] Instance no_amount_dec (e : DriverScheduleEntry)
  : Decision (no_amount e) :=
  decide (opt_dec_truthy (amount e) = false).

End Spec.

Import Spec.

(** ** Vocabulary of the statements on the load-reference matcher *)

Module SpecLP.

Import LoadsPayments.

(** The deposit carries the reference [r]. *)
Definition has_ref (r : string) (it : ref Deposit) : Prop :=
  load_ref (deref it) = Some r.

#[global] Instance has_ref_dec (r : string) (it : ref Deposit)
  : Decision (has_ref r it) :=
  decide (load_ref (deref it) = Some r).

(** [it] is the last deposit of the list that carries the reference [r]. *)
Definition last_with_ref (deposits : list Deposit) (r : string)
    (it : ref Deposit) : Prop :=
  it ∈ enumerate deposits
  /\ has_ref r it
  /\ forall it', it' ∈ enumerate deposits -> has_ref r it' ->
                 (slot it' <= slot it)%nat.

(** The slots of the deposits, and of the loads, that a list of records
    holds. *)
Definition held_deposits (reconciled : list Reconciliation) : list nat :=
  omap (fun r => slot <$> rc_deposit r) reconciled.

Definition held_loads (reconciled : list Reconciliation) : list nat :=
  omap (fun r => slot <$> rc_load r) reconciled.

(** The record [reconcile_data] builds for a load matched to a deposit. *)
Definition record_of (l : ref Load) (d : ref Deposit) (reason : MatchReason)
    (confidence : string) : Reconciliation :=
  {| rc_load := Some l; rc_payment := None; rc_deposit := Some d;
     match_confidence := Some confidence; match_reason := Some reason |}.

(** The load number and a reference contain one another, both non-empty:
    the test of the partial tier. *)
Definition refs_overlap (load : Load) (dep_ref : string) : Prop :=
  exists n, load_num load = Some n /\ n <> EmptyString
            /\ dep_ref <> EmptyString
            /\ (str_in dep_ref n = true \/ str_in n dep_ref = true).

(** The deposit is within a cent of the load and no record holds it yet:
    the test of the amount tier. *)
Definition amount_free (reconciled : list Reconciliation) (load : Load)
    (it : ref Deposit) : Prop :=
  (Qcabs (dp_amount (deref it) - ld_amount load) < one_cent)%Qc
  /\ slot it ∉ held_deposits reconciled.

(** No deposit carries the number of the load. *)
Definition no_direct (deposits : list Deposit) (load : Load) : Prop :=
  forall n it, load_num load = Some n -> n <> EmptyString ->
               it ∈ enumerate deposits -> ~ has_ref n it.

(** A record as a run builds them: a load and a deposit of the input, one
    of the three confidences, and for the two reference tiers a deposit that
    is the last to carry its reference. *)
Definition record_ok (loads : list Load) (deposits : list Deposit)
    (rc : Reconciliation) : Prop :=
  exists l d reason conf,
    rc = record_of l d reason conf
    /\ l ∈ enumerate loads
    /\ d ∈ enumerate deposits
    /\ (conf = "high" \/ conf = "medium" \/ conf = "low")%string
    /\ (conf <> "low"%string ->
        exists r, r <> EmptyString /\ last_with_ref deposits r d).

(** A record of confidence low holds a deposit that no earlier record
    holds. *)
Definition low_fresh (reconciled : list Reconciliation) : Prop :=
  forall i rc d,
    reconciled !! i = Some rc ->
    match_confidence rc = Some "low"%string ->
    rc_deposit rc = Some d ->
    slot d ∉ held_deposits (take i reconciled).

(** [x] is the first item of [l] that passes [P]. *)
Definition first_such {A : Type} (P : A -> Prop) (l : list A) (x : A) : Prop :=
  exists l1 l2, l = l1 ++ x :: l2 /\ P x /\ forall y, y ∈ l1 -> ~ P y.

(** The records and the unmatched loads when the load of slot [n] is
    reached. *)
Definition loop_before (deposits : list Deposit) (loads : list Load) (n : nat)
  : list Reconciliation * list (ref Load) :=
  fold_left (reconcile_load (deposits_by_ref_of deposits) deposits)
            (enumerate (take n loads)) ([], []).

End SpecLP.

Import SpecLP.
Import LoadsPayments.

(** ** reconcile_from_clean_data.py: the matcher on the cleaned statement *)

Module CleanData.

Local Open Scope string_scope.

(** The two classes of the script, with the fields as [__init__] leaves
    them: [deposit] and [withdrawal] are a decimal or [None]. *)
Record Transaction : Type := {
  tx_date : string;
  tx_description : string;
  tx_deposit : option Decimal;
  tx_withdrawal : option Decimal;
  tx_balance : Decimal;
  tx_load_ref : option string
}.

Record DriverLoad : Type := {
  dl_date : string;
  dl_driver : string;
  dl_company : string;
  dl_pickup : string;
  dl_dropoff : string;
  dl_load_num : option string;
  dl_amount : Decimal
}.

(** An item of [matched].  The script stores the dicts made by [to_dict];
    they are kept here as the objects they copy, of which the function only
    reads [load_ref] again, a field that [to_dict] copies unchanged. *)
Record Matched : Type := {
  m_load : ref DriverLoad;
  m_transaction : ref Transaction;
  match_type : string
}.

(** [{t.load_ref: t for t in transactions if t.load_ref and t.deposit}],
    one transaction after the other; the test makes the key a string. *)
Definition add_trans (d : list (string * ref Transaction))
    (it : ref Transaction) : list (string * ref Transaction) :=
  if opt_str_truthy (tx_load_ref (deref it))
     && opt_dec_truthy (tx_deposit (deref it))
  then match tx_load_ref (deref it) with
       | Some r => dict_set r it d
       | None => d
       end
  else d.

Definition trans_by_ref_of (transactions : list Transaction)
  : list (string * ref Transaction) :=
  fold_left add_trans (enumerate transactions) [].

(** [load.load_num in trans_by_ref], with the value found. *)
Definition exact_match (trans_by_ref : list (string * ref Transaction))
    (load : DriverLoad) : option (ref Transaction) :=
  match dl_load_num load with
  | Some n => dict_get n trans_by_ref
  | None => None
  end.

(** The test of the partial-match loop on one item of the dict. *)
Definition partial_ref_test (load : DriverLoad)
    (item : string * ref Transaction) : bool :=
  let ref := fst item in
  opt_str_truthy (Some ref) && opt_str_truthy (dl_load_num load) &&
  match dl_load_num load with
  | Some n => str_in ref n || str_in n ref
  | None => false
  end.

(** The two tiers for one load: [(matched_trans, match_type)], or [None]
    when [matched_trans] stays [None]. *)
Definition match_driver_load (trans_by_ref : list (string * ref Transaction))
    (load : DriverLoad) : option (ref Transaction * string) :=
  match exact_match trans_by_ref load with
  | Some t => Some (t, "exact_load_number")
  | None =>
      match List.find (partial_ref_test load) trans_by_ref with
      | Some (_, t) => Some (t, "partial_load_number")
      | None => None
      end
  end.

(** One turn of the loop over the loads; the pair is
    [(matched, unmatched_loads)]. *)
Definition reconcile_step (trans_by_ref : list (string * ref Transaction))
    (st : list Matched * list (ref DriverLoad)) (it : ref DriverLoad)
  : list Matched * list (ref DriverLoad) :=
  let '(matched, unmatched_loads) := st in
  match match_driver_load trans_by_ref (deref it) with
  | Some (matched_trans, ty) =>
      ((matched ++ [ {| m_load := it; m_transaction := matched_trans;
                        match_type := ty |} ])%list,
       unmatched_loads)
  | None => (matched, (unmatched_loads ++ [it])%list)
  end.

(** [{m['transaction']['load_ref'] for m in matched
      if m['transaction']['load_ref']}] *)
Definition matched_refs_of (matched : list Matched) : gset string :=
  list_to_set
    (omap (fun m => let r := tx_load_ref (deref (m_transaction m)) in
                    if opt_str_truthy r then r else None) matched).

(** [trans.deposit and trans.load_ref and
     trans.load_ref not in matched_refs] *)
Definition is_unmatched (matched_refs : gset string) (it : ref Transaction)
  : bool :=
  opt_dec_truthy (tx_deposit (deref it))
  && opt_str_truthy (tx_load_ref (deref it))
  && match tx_load_ref (deref it) with
     | Some r => bool_decide (r ∉ matched_refs)
     | None => false
     end.

(** [reconcile]: [(matched, unmatched_transactions, unmatched_loads)].  The
    dict [loads_by_num] the function also builds is never read. *)
Definition reconcile (transactions : list Transaction)
    (driver_loads : list DriverLoad)
  : list Matched * list (ref Transaction) * list (ref DriverLoad) :=
  let trans_by_ref := trans_by_ref_of transactions in
  let '(matched, unmatched_loads) :=
    fold_left (reconcile_step trans_by_ref) (enumerate driver_loads)
              ([], []) in
  let matched_refs := matched_refs_of matched in
  let unmatched_transactions :=
    filter (fun it => is_unmatched matched_refs it = true)
           (enumerate transactions) in
  (matched, unmatched_transactions, unmatched_loads).

End CleanData.

(** ** Vocabulary of the statements on the clean-data matcher *)

Module SpecCD.

Import CleanData.

(** The transaction is a deposit that carries the reference [r]: what
    makes it an entry of the lookup under [r]. *)
Definition has_key (r : string) (it : ref Transaction) : Prop :=
  tx_load_ref (deref it) = Some r
  /\ opt_dec_truthy (tx_deposit (deref it)) = true.

#[global] Instance has_key_dec (r : string) (it : ref Transaction)
  : Decision (has_key r it).
Proof. unfold has_key. apply _. Defined.

(** [it] is the last such deposit of the list. *)
Definition last_keyed (transactions : list Transaction) (r : string)
    (it : ref Transaction) : Prop :=
  it ∈ enumerate transactions
  /\ has_key r it
  /\ forall it', it' ∈ enumerate transactions -> has_key r it' ->
                 (slot it' <= slot it)%nat.

(** The load number and a reference contain one another, both non-empty:
    the test of the partial tier. *)
Definition nums_overlap (load : DriverLoad) (k : string) : Prop :=
  exists n, dl_load_num load = Some n /\ n <> EmptyString
            /\ k <> EmptyString
            /\ (str_in k n = true \/ str_in n k = true).

(** No deposit carries the number of the load. *)
Definition no_exact (transactions : list Transaction) (load : DriverLoad)
  : Prop :=
  forall n it, dl_load_num load = Some n -> n <> EmptyString ->
               it ∈ enumerate transactions -> ~ has_key n it.

(** The item [reconcile] appends for a matched load. *)
Definition matched_of (l : ref DriverLoad) (t : ref Transaction)
    (ty : string) : Matched :=
  {| m_load := l; m_transaction := t; match_type := ty |}.

(** The item, if any, that the turn of a load appends. *)
Definition item_for (trans_by_ref : list (string * ref Transaction))
    (it : ref DriverLoad) : option Matched :=
  match match_driver_load trans_by_ref (deref it) with
  | Some (t, ty) => Some (matched_of it t ty)
  | None => None
  end.

(** The slots of the loads, and of the transactions, of a list of
    items. *)
Definition matched_loads (matched : list Matched) : list nat :=
  (fun m => slot (m_load m)) <$> matched.

Definition matched_transactions (matched : list Matched) : list nat :=
  (fun m => slot (m_transaction m)) <$> matched.

End SpecCD.

(** ** Inputs used in the examples *)

Module Examples.

Local Open Scope string_scope.

Definition cents (n : Z) : Decimal := Decimal_of n 100.

(** A schedule entry and a bank transaction dated [d] days after the origin. *)
Definition load_on (d : Z) (name : string) (a : option Decimal)
  : DriverScheduleEntry :=
  {| date := d * day; driver := name; company := "RPM"; pickup := "Tulsa";
     dropoff := "OKC"; load_number := "31594-20217"; amount := a;
     date_paid := None; notes := ""; source_file := "Tony - schedule.txt" |}.

Definition zelle_on (d : Z) (name : string) (a : Decimal) : BankTransaction :=
  {| transaction_date := d * day; bt_amount := a;
     description := "Zelle to " ++ name; recipient := name;
     transaction_type := "ZELLE"; bt_source_file := "statement.txt" |}.

Definition remittance_on (d : Z) (a : Decimal) : PaymentRemittance :=
  {| payment_date := d * day; payment_reference := "4400123";
     paper_document_number := "900017"; payment_amount := a;
     invoices := []; pr_source_file := "remittance.txt" |}.

(** A load whose amount is [Decimal('0.00')], and a transfer of the same
    (zero) amount to the same driver on the same day. *)
Definition zero_load : DriverScheduleEntry := load_on 1 "Tony" (Some (cents 0)).

Definition zero_zelle : BankTransaction := zelle_on 1 "Tony" (cents 0).

Definition zero_amount_data : ReconciliationData :=
  {| payment_remittances := [];
     bank_transactions := [zero_zelle];
     driver_schedules := [zero_load] |}.

(** A schedule line without an amount column. *)
Definition no_amount_data : ReconciliationData :=
  {| payment_remittances := [];
     bank_transactions := [];
     driver_schedules := [load_on 1 "Tony" None] |}.

(** A paid load, an unpaid load and a line without amount; two transfers of
    500.00 to the same driver, 14 and 20 days after the load. *)
Definition mixed_data : ReconciliationData :=
  {| payment_remittances := [remittance_on 40 (cents 125000)];
     bank_transactions := [ zelle_on 21 "BIG RICH" (cents 50000);
                            zelle_on 15 "Rich" (cents 50000) ];
     driver_schedules := [ load_on 1 "BIGRICH" (Some (cents 50000));
                           load_on 1 "Tony" (Some (cents 30000));
                           load_on 3 "Tony" None ] |}.

(** A load and a transfer of the same amount to the same driver, 100 days
    later. *)
Definition far_data : ReconciliationData :=
  {| payment_remittances := [];
     bank_transactions := [zelle_on 101 "Tony" (cents 30000)];
     driver_schedules := [load_on 1 "Tony" (Some (cents 30000))] |}.

(** Two loads listed out of date order. *)
Definition unsorted_data : ReconciliationData :=
  {| payment_remittances := [];
     bank_transactions := [];
     driver_schedules := [ load_on 9 "Tony" (Some (cents 30000));
                           load_on 2 "Steve" (Some (cents 45000)) ] |}.

(** A load and a deposit of the load-reference matcher, with the number or
    reference and the amount given. *)
Definition freight (num : option string) (a : Decimal) : Load :=
  {| ld_date := "03/14/2025"; ld_company := "RPM"; ld_pickup := "Tulsa";
     ld_dropoff := "OKC"; load_num := num; ld_amount := a;
     ld_date_paid := None; ld_notes := None;
     ld_source_file := Some "Tony - schedule.txt" |}.

Definition credit (r : option string) (a : Decimal) : Deposit :=
  {| dp_date := "03/20/2025"; dp_description := "ACH deposit";
     dp_amount := a; balance := cents 100000; load_ref := r;
     dp_source_file := Some "statement.txt" |}.

(** A line of the cleaned statement and a load of a schedule, for the
    clean-data matcher. *)
Definition deposit_line (r : option string) (a : option Decimal)
  : CleanData.Transaction :=
  {| CleanData.tx_date := "Apr 01 2025";
     CleanData.tx_description := "ACERTUS | Deposit";
     CleanData.tx_deposit := a; CleanData.tx_withdrawal := None;
     CleanData.tx_balance := cents 100000; CleanData.tx_load_ref := r |}.

Definition haul (num : option string) : CleanData.DriverLoad :=
  {| CleanData.dl_date := "3/28/2025"; CleanData.dl_driver := "Tony";
     CleanData.dl_company := "RPM"; CleanData.dl_pickup := "OKC";
     CleanData.dl_dropoff := "Tulsa"; CleanData.dl_load_num := num;
     CleanData.dl_amount := cents 39000 |}.

End Examples.

Import Examples.

(** * Properties *)

(** ** The driver-name normalizer *)

Section Normalizer.

Local Open Scope string_scope.

Lemma first_alias_value name_upper m value :
  first_alias name_upper m = Some value -> In value (map snd m).
Proof.
  induction m as [|[k v] m IH]; simpl; [discriminate|].
  destruct (String.eqb (squeeze k) name_upper).
  - intros [= ->]. now left.
  - intros H. right. auto.
Qed.

Lemma first_alias_none name_upper m :
  Forall (fun kv => squeeze (fst kv) <> name_upper) m ->
  first_alias name_upper m = None.
Proof.
  induction 1 as [|[k v] m Hk _ IH]; simpl; [reflexivity|].
  simpl in Hk. apply String.eqb_neq in Hk. now rewrite Hk.
Qed.

(** Every value of the alias table is a fixed point of the normalizer. *)
Lemma normalize_alias_values value :
  In value (map snd driver_name_map) -> normalize_driver_name value = value.
Proof.
  simpl. intros H.
  repeat (destruct H as [<-|H]; [reflexivity|]). destruct H.
Qed.

(** C8. The normalizer is idempotent; "BIG RICH", "BigRich" and "BIGRICH"
    all normalize to "Rich"; and a name whose upper-cased form with spaces
    and hyphens removed equals no (equally squeezed) key of the alias table
    is returned unchanged. *)
Theorem normalize_driver_name_idempotent :
  (forall x : string,
      normalize_driver_name (normalize_driver_name x) = normalize_driver_name x)
  /\ (normalize_driver_name "BIG RICH" = "Rich"
      /\ normalize_driver_name "BigRich" = "Rich"
      /\ normalize_driver_name "BIGRICH" = "Rich")
  /\ (forall x : string,
         Forall (fun kv => squeeze (fst kv) <> squeeze (upper x)) driver_name_map ->
         normalize_driver_name x = x).
Proof.
  split; [|split].
  - intros x. unfold normalize_driver_name at 2 3.
    destruct (first_alias _ _) as [v|] eqn:E.
    + apply normalize_alias_values. eapply first_alias_value, E.
    + unfold normalize_driver_name. now rewrite E.
  - repeat split; reflexivity.
  - intros x H. unfold normalize_driver_name.
    now rewrite (first_alias_none _ _ H).
Qed.

Lemma normalize_driver_name_idempotent_witness :
  Forall (fun kv => squeeze (fst kv) <> squeeze (upper "Dave O'Neil"))
         driver_name_map
  /\ normalize_driver_name "Dave O'Neil" = "Dave O'Neil".
Proof.
  assert (H : Forall (fun kv => squeeze (fst kv) <> squeeze (upper "Dave O'Neil"))
                     driver_name_map).
  { repeat constructor; simpl; discriminate. }
  split; [exact H|].
  exact (proj2 (proj2 normalize_driver_name_idempotent) "Dave O'Neil" H).
Defined.

End Normalizer.

(** ** Lists: enumeration and the stable sort *)

Section Lists.

Context {A : Type}.

Lemma enumerate_from_lookup (l : list A) (i k : nat) :
  enumerate_from i l !! k = Ref (i + k) <$> l !! k.
Proof.
  revert i k. induction l as [|x l IH]; intros i [|k]; simpl; try reflexivity.
  - now rewrite Nat.add_0_r.
  - rewrite IH. now rewrite Nat.add_succ_r.
Qed.

Lemma elem_of_enumerate_from (l : list A) (i : nat) (it : ref A) :
  it ∈ enumerate_from i l <->
  (i <= slot it)%nat /\ l !! (slot it - i)%nat = Some (deref it).
Proof.
  revert i. induction l as [|x l IH]; intros i; simpl.
  - rewrite elem_of_nil. split; [tauto|]. intros [_ H]. discriminate.
  - rewrite elem_of_cons, IH. destruct it as [s d]; simpl. split.
    + intros [[= -> ->]|[Hle Hl]].
      * split; [lia|]. now rewrite Nat.sub_diag.
      * split; [lia|]. replace (s - i)%nat with (S (s - S i)) by lia. exact Hl.
    + intros [Hle Hl]. destruct (decide (s = i)) as [->|Hne].
      * left. rewrite Nat.sub_diag in Hl. simpl in Hl. congruence.
      * right. split; [lia|].
        replace (s - i)%nat with (S (s - S i)) in Hl by lia. exact Hl.
Qed.

Lemma elem_of_enumerate (l : list A) (it : ref A) :
  it ∈ enumerate l <-> l !! slot it = Some (deref it).
Proof.
  unfold enumerate. rewrite elem_of_enumerate_from, Nat.sub_0_r.
  split; [tauto|]. intros H. split; [lia|exact H].
Qed.

Lemma enumerate_from_app (l1 l2 : list A) (i : nat) :
  enumerate_from i (l1 ++ l2) =
  enumerate_from i l1 ++ enumerate_from (i + length l1) l2.
Proof.
  revert i. induction l1 as [|x l1 IH]; intros i; simpl.
  - now rewrite Nat.add_0_r.
  - rewrite IH. now rewrite Nat.add_succ_r.
Qed.

Lemma enumerate_from_slots (l : list A) (i : nat) :
  map slot (enumerate_from i l) = seq i (length l).
Proof.
  revert i. induction l as [|x l IH]; intros i; simpl; [reflexivity|].
  now rewrite IH.
Qed.

Lemma enumerate_from_deref (l : list A) (i : nat) :
  map deref (enumerate_from i l) = l.
Proof.
  revert i. induction l as [|x l IH]; intros i; simpl; [reflexivity|].
  now rewrite IH.
Qed.

Variable key : A -> Z.

Lemma insert_by_perm (x : A) (l : list A) : insert_by key x l ≡ₚ x :: l.
Proof.
  induction l as [|y l IH]; simpl; [reflexivity|].
  destruct (key x <=? key y); [reflexivity|].
  rewrite IH. apply Permutation_swap.
Qed.

Lemma sort_by_perm (l : list A) : sort_by key l ≡ₚ l.
Proof.
  induction l as [|x l IH]; simpl; [reflexivity|].
  now rewrite insert_by_perm, IH.
Qed.

Lemma insert_by_sorted (x : A) (l : list A) :
  StronglySorted (fun a b => key a <= key b) l ->
  StronglySorted (fun a b => key a <= key b) (insert_by key x l).
Proof.
  induction 1 as [|y l Hs IH Hy]; simpl.
  - repeat constructor.
  - destruct (Z.leb_spec (key x) (key y)) as [Hle|Hgt].
    + constructor; [now constructor|].
      constructor; [exact Hle|].
      eapply Forall_impl; [|exact Hy]. simpl. intros; lia.
    + constructor; [exact IH|].
      rewrite insert_by_perm. constructor; [lia|exact Hy].
Qed.

Lemma sort_by_sorted (l : list A) :
  StronglySorted (fun a b => key a <= key b) (sort_by key l).
Proof.
  induction l as [|x l IH]; simpl; [constructor|].
  now apply insert_by_sorted.
Qed.

Lemma insert_by_filter (x : A) (l : list A) (k : Z) :
  filter (fun y => key y = k) (insert_by key x l) =
  filter (fun y => key y = k) (x :: l).
Proof.
  induction l as [|y l IH]; simpl; [reflexivity|].
  destruct (Z.leb_spec (key x) (key y)) as [Hle|Hgt]; [reflexivity|].
  rewrite filter_cons, IH, !filter_cons.
  repeat case_decide; try reflexivity. lia.
Qed.

Lemma sort_by_filter (l : list A) (k : Z) :
  filter (fun y => key y = k) (sort_by key l) = filter (fun y => key y = k) l.
Proof.
  induction l as [|x l IH]; simpl; [reflexivity|].
  now rewrite insert_by_filter, !filter_cons, IH.
Qed.

Lemma sort_by_stable (l : list A) : stable_sort_of key l (sort_by key l).
Proof.
  split; [apply sort_by_perm|split; [apply sort_by_sorted|]].
  intros k. apply sort_by_filter.
Qed.

Lemma sort_by_sorted_id (l : list A) :
  StronglySorted (fun a b => key a <= key b) l -> sort_by key l = l.
Proof.
  induction 1 as [|x l Hs IH Hx]; simpl; [reflexivity|].
  rewrite IH. destruct Hx as [|y l Hxy _]; simpl; [reflexivity|].
  destruct (Z.leb_spec (key x) (key y)); [reflexivity|lia].
Qed.

End Lists.

(** ** The input collections across a run *)

Section Frame.

Local Open Scope string_scope.

(** C9, as the claim states it, fails: [reconcile] sorts the three lists of
    its input in place.  Two loads listed as (day 9, Tony), (day 2, Steve)
    are found as (Steve, Tony) after the call. *)
Lemma reconcile_reorders_input :
  map driver (driver_schedules unsorted_data) = ["Tony"; "Steve"]
  /\ map driver (driver_schedules (fst (reconcile 0 unsorted_data 90)))
     = ["Steve"; "Tony"]
  /\ fst (reconcile 0 unsorted_data 90) <> unsorted_data.
Proof.
  split; [reflexivity|]. split; [reflexivity|].
  intros H. apply (f_equal (fun d => map driver (driver_schedules d))) in H.
  vm_compute in H. discriminate H.
Qed.

(** C9 (amended). A run adds, removes and changes no element of the three
    collections: each is left as the stable ascending sort, by date, of what
    it was.  When the three were already in date order the data is left as
    it was. *)
Theorem reconcile_sorts_collections (now : Z) (data : ReconciliationData)
    (lookback_days : Z) :
  let data' := fst (reconcile now data lookback_days) in
  stable_sort_of payment_date (payment_remittances data)
                 (payment_remittances data')
  /\ stable_sort_of transaction_date (bank_transactions data)
                    (bank_transactions data')
  /\ stable_sort_of date (driver_schedules data) (driver_schedules data')
  /\ (StronglySorted (fun a b => payment_date a <= payment_date b)
                     (payment_remittances data) ->
      StronglySorted (fun a b => transaction_date a <= transaction_date b)
                     (bank_transactions data) ->
      StronglySorted (fun a b => date a <= date b) (driver_schedules data) ->
      data' = data).
Proof.
  simpl. repeat split; try apply sort_by_stable.
  intros Hp Hb Hs. destruct data as [p b s]; simpl in *.
  now rewrite !sort_by_sorted_id.
Qed.

Lemma reconcile_sorts_collections_witness :
  fst (reconcile 0 (fst (reconcile 0 unsorted_data 90)) 90)
  = fst (reconcile 0 unsorted_data 90).
Proof.
  refine (proj2 (proj2 (proj2
    (reconcile_sorts_collections 0 (fst (reconcile 0 unsorted_data 90)) 90)))
    _ _ _); simpl.
  - constructor.
  - constructor.
  - repeat constructor. vm_compute. discriminate.
Defined.

End Frame.

(** ** The inner loop: the best bank transaction for one schedule entry *)

Section Scan.

Variable lookback_days : Z.
Variable e : DriverScheduleEntry.
Variable a : Decimal.
Variable matched : gset nat.

Lemma within_cent_spec (x y : Decimal) :
  within_cent x y = true <-> (Qcabs (x - y) < one_cent)%Qc.
Proof. unfold within_cent, dec_ltb. apply bool_decide_eq_true. Qed.

Lemma candidate_score_spec (b : BankTransaction) (s : Z) :
  candidate_score lookback_days (normalize_driver_name (driver e)) e a b = Some s
  <-> (qualifies lookback_days e a b /\ s = 100 - day_diff e b).
Proof.
  unfold candidate_score, qualifies, day_diff.
  destruct (String.eqb_spec (normalize_driver_name (driver e))
                            (normalize_driver_name (recipient b))) as [Hn|Hn];
    simpl.
  - destruct (within_cent (bt_amount b) a) eqn:Hw.
    + apply within_cent_spec in Hw.
      destruct (Z.leb_spec (Z.abs (timedelta_days (transaction_date b) (date e)))
                           lookback_days) as [Hd|Hd].
      * split; [intros [= <-]; auto|]. intros [_ ->]. reflexivity.
      * split; [discriminate|]. intros [(_ & _ & H) _]. lia.
    + split; [discriminate|]. intros [(_ & H & _) _].
      apply within_cent_spec in H. congruence.
  - split; [discriminate|]. intros [(H & _) _]. congruence.
Qed.

Abbreviation open_candidate := (Spec.open_candidate lookback_days e a matched).

Abbreviation step :=
  (scan_step lookback_days (normalize_driver_name (driver e)) e a matched).

Lemma scan_step_keep (best : option (ref BankTransaction) * Z)
    (it : ref BankTransaction) :
  (forall s, open_candidate it s -> s <= snd best) -> step best it = best.
Proof.
  intros H. unfold scan_step. case_bool_decide as Hm; [reflexivity|].
  destruct (candidate_score _ _ _ _ _) as [s|] eqn:Hs; [|reflexivity].
  destruct (Z.ltb_spec (snd best) s) as [Hlt|]; [|reflexivity].
  specialize (H s (conj Hm Hs)). lia.
Qed.

Lemma scan_step_take (best : option (ref BankTransaction) * Z)
    (it : ref BankTransaction) (s : Z) :
  open_candidate it s -> snd best < s -> step best it = (Some it, s).
Proof.
  intros [Hm Hs] Hlt. unfold scan_step.
  rewrite bool_decide_eq_false_2 by exact Hm. rewrite Hs.
  destruct (Z.ltb_spec (snd best) s); [reflexivity|lia].
Qed.

Lemma scan_step_cases (best : option (ref BankTransaction) * Z)
    (it : ref BankTransaction) :
  (step best it = best /\ forall s, open_candidate it s -> s <= snd best)
  \/ (exists s, step best it = (Some it, s) /\ open_candidate it s
                /\ snd best < s).
Proof.
  destruct (decide (slot it ∈ matched)) as [Hm|Hm].
  { left. split; [|intros s [H _]; contradiction].
    apply scan_step_keep. intros s [H _]. contradiction. }
  destruct (candidate_score lookback_days (normalize_driver_name (driver e))
                            e a (deref it)) as [s|] eqn:Hs.
  - destruct (Z.lt_ge_cases (snd best) s) as [Hlt|Hge].
    + right. exists s. split; [|split; [split|]]; auto.
      apply scan_step_take; [split|]; auto.
    + assert (Hall : forall s', open_candidate it s' -> s' <= snd best).
      { intros s' [_ Hs']. rewrite Hs in Hs'. injection Hs' as <-. lia. }
      left. split; [apply scan_step_keep|]; exact Hall.
  - assert (Hall : forall s', open_candidate it s' -> s' <= snd best).
    { intros s' [_ Hs']. rewrite Hs in Hs'. discriminate. }
    left. split; [apply scan_step_keep|]; exact Hall.
Qed.

(** The result of the scan of [l] from [best]: either nothing beat [best],
    or the result is the first item of the highest score above it. *)
Lemma scan_fold (l : list (ref BankTransaction))
    (best : option (ref BankTransaction) * Z) :
  let r := fold_left step l best in
  (forall it s, it ∈ l -> open_candidate it s -> s <= snd r)
  /\ ((r = best /\ forall it s, it ∈ l -> open_candidate it s -> s <= snd best)
      \/ (exists l1 it l2,
             l = l1 ++ it :: l2 /\ fst r = Some it
             /\ open_candidate it (snd r) /\ snd best < snd r
             /\ forall it' s, it' ∈ l1 -> open_candidate it' s -> s < snd r)).
Proof.
  revert best. induction l as [|x l IH]; intros best; simpl.
  - split; [intros it s H; inversion H|].
    left. split; [reflexivity|]. intros it s H. inversion H.
  - destruct (scan_step_cases best x) as [[-> Hx]|(sx & -> & Hc & Hlt)].
    + destruct (IH best) as [Hmax Hcase]. simpl in Hmax, Hcase.
      assert (Hmono : snd best <= snd (fold_left step l best)).
      { destruct Hcase as [[Hr _]|(? & ? & ? & _ & _ & _ & H & _)];
          [rewrite Hr|]; lia. }
      split.
      * intros it s [->|Hin]%elem_of_cons Hs; [|eauto].
        specialize (Hx s Hs). lia.
      * destruct Hcase as [[Hr Hall]|(l1 & it & l2 & -> & Hf & Hit & Hgt & Hl1)].
        -- left. split; [exact Hr|].
           intros it s [->|Hin]%elem_of_cons Hs; eauto.
        -- right. exists (x :: l1), it, l2. repeat split; auto; try apply Hit.
           intros it' s [->|Hin]%elem_of_cons Hs; [|eauto].
           specialize (Hx s Hs). lia.
    + destruct (IH (Some x, sx)) as [Hmax Hcase]. simpl in Hmax, Hcase.
      assert (Hmono : sx <= snd (fold_left step l (Some x, sx))).
      { destruct Hcase as [[Hr _]|(? & ? & ? & _ & _ & _ & H & _)];
          [rewrite Hr|]; simpl in *; lia. }
      split.
      * intros it s [->|Hin]%elem_of_cons Hs; [|eauto].
        destruct Hc as [_ Hc], Hs as [_ Hs]. rewrite Hc in Hs.
        injection Hs as <-. exact Hmono.
      * right.
        destruct Hcase as [[Hr Hall]|(l1 & it & l2 & -> & Hf & Hit & Hgt & Hl1)].
        -- exists [], x, l. rewrite Hr. simpl. repeat split; auto; try apply Hc.
           intros it' s H. inversion H.
        -- exists (x :: l1), it, l2. simpl in Hgt.
           repeat split; auto; try apply Hit; [lia|].
           intros it' s [->|Hin]%elem_of_cons Hs; [|eauto].
           destruct Hc as [_ Hc], Hs as [_ Hs]. rewrite Hc in Hs.
           injection Hs as <-. exact Hgt.
Qed.

End Scan.

(** ** The outer loop *)

Section Matcher.

Variable lookback_days : Z.
Variable bank : list BankTransaction.

Lemma enumerate_from_split {A : Type} (l : list A) (i : nat)
    (l1 l2 : list (ref A)) (b : ref A) :
  enumerate_from i l = l1 ++ b :: l2 ->
  (forall it, it ∈ l1 -> (slot it < slot b)%nat)
  /\ (forall it, it ∈ l2 -> (slot b < slot it)%nat).
Proof.
  revert i l. induction l1 as [|y l1 IH]; intros i [|x l]; simpl;
    try discriminate.
  - intros [= <- <-]. split; [intros it H; inversion H|].
    intros it [H _]%elem_of_enumerate_from. simpl. lia.
  - intros [= <- Hl]. destruct (IH _ _ Hl) as [H1 H2]. split; [|exact H2].
    intros it Hin. apply elem_of_cons in Hin as [Heq|Hin]; [|auto].
    subst it. simpl.
    assert (Hb : b ∈ enumerate_from (S i) l).
    { rewrite Hl. apply elem_of_app. right. apply elem_of_cons. now left. }
    apply elem_of_enumerate_from in Hb as [Hb _]. lia.
Qed.

(** The inner loop returns nothing when no open candidate scores above
    zero; otherwise the open candidate of the highest score and, among
    those, of the smallest index. *)
Lemma find_best_match_spec (matched : gset nat) (e : DriverScheduleEntry)
    (a : Decimal) :
  (find_best_match lookback_days bank matched e a = None
   /\ forall it s, it ∈ enumerate bank ->
                   open_candidate lookback_days e a matched it s -> s <= 0)
  \/ (exists b sb,
         find_best_match lookback_days bank matched e a = Some b
         /\ b ∈ enumerate bank
         /\ open_candidate lookback_days e a matched b sb
         /\ 0 < sb
         /\ forall it s, it ∈ enumerate bank ->
                         open_candidate lookback_days e a matched it s ->
                         s <= sb /\ (s = sb -> (slot b <= slot it)%nat)).
Proof.
  unfold find_best_match.
  destruct (scan_fold lookback_days e a matched (enumerate bank) (None, 0))
    as [Hmax [[Hr Hall]|(l1 & b & l2 & Hl & Hf & Hb & Hgt & Hl1)]];
    simpl in *.
  - left. rewrite Hr. split; [reflexivity|exact Hall].
  - right. exists b, (snd (fold_left
       (scan_step lookback_days (normalize_driver_name (driver e)) e a matched)
       (enumerate bank) (None, 0))).
    split; [exact Hf|]. split.
    { rewrite Hl. apply elem_of_app. right. apply elem_of_cons. now left. }
    split; [exact Hb|]. split; [exact Hgt|].
    intros it s Hin Hs. split; [eauto|]. intros ->.
    destruct (enumerate_from_split _ _ _ _ _ Hl) as [_ H2].
    rewrite Hl in Hin. apply elem_of_app in Hin as [Hin|Hin].
    + specialize (Hl1 _ _ Hin Hs). lia.
    + apply elem_of_cons in Hin as [->|Hin]; [lia|].
      specialize (H2 _ Hin). lia.
Qed.

Abbreviation step := (match_entry lookback_days bank).

(** The three ways one turn of the outer loop goes. *)
Lemma match_entry_cases (st : MatchState) (it : ref DriverScheduleEntry) :
  (~ has_amount it /\ step st it = st)
  \/ (exists a,
         amount (deref it) = Some a /\ has_amount it
         /\ ((find_best_match lookback_days bank (matched_bank_trans st)
                              (deref it) a = None
              /\ st_full_matches (step st it) = st_full_matches st
              /\ st_missing_bank_transactions (step st it)
                 = st_missing_bank_transactions st ++ [it]
              /\ matched_bank_trans (step st it) = matched_bank_trans st)
             \/ (exists b,
                    find_best_match lookback_days bank (matched_bank_trans st)
                                    (deref it) a = Some b
                    /\ st_full_matches (step st it)
                       = st_full_matches st ++ [full_match it b]
                    /\ st_missing_bank_transactions (step st it)
                       = st_missing_bank_transactions st
                    /\ matched_bank_trans (step st it)
                       = matched_bank_trans st ∪ {[slot b]}))).
Proof.
  unfold match_entry, has_amount.
  destruct (amount (deref it)) as [a|] eqn:Ha; simpl.
  - destruct (dec_truthy a) eqn:Ht; simpl.
    + right. exists a. split; [reflexivity|]. split; [reflexivity|].
      destruct (find_best_match _ _ _ _ _) as [b|]; simpl.
      * right. exists b. auto.
      * left. auto.
    + left. split; [discriminate|reflexivity].
  - left. split; [discriminate|reflexivity].
Qed.

Lemma entries_of_app (F G : list ReconciliationMatch) :
  entries_of (F ++ G) = entries_of F ++ entries_of G.
Proof. apply omap_app. Qed.

Lemma banks_of_app (F G : list ReconciliationMatch) :
  banks_of (F ++ G) = banks_of F ++ banks_of G.
Proof. apply omap_app. Qed.

Lemma state_ok_initial : state_ok bank initial_state.
Proof.
  repeat split; simpl; [constructor|constructor].
Qed.

Lemma match_entry_ok (st : MatchState) (it : ref DriverScheduleEntry) :
  state_ok bank st -> state_ok bank (step st it).
Proof.
  intros (Hset & Hnd & Hall).
  destruct (match_entry_cases st it)
    as [[_ ->]|(a & Ha & Ht & [(_ & Hf & _ & Hm)|(b & Hb & Hf & _ & Hm)])].
  - repeat split; assumption.
  - unfold state_ok. rewrite Hf, Hm. repeat split; assumption.
  - destruct (find_best_match_spec (matched_bank_trans st) (deref it) a)
      as [[Hn _]|(b' & sb & Hb' & Hin & [Hfree _] & _)]; [congruence|].
    assert (b' = b) as -> by congruence.
    unfold state_ok. rewrite Hf, Hm, banks_of_app, fmap_app. simpl.
    split; [|split].
    + rewrite list_to_set_app_L, Hset. simpl. set_solver.
    + apply list.NoDup_app. split; [exact Hnd|]. split.
      * intros j Hj Hjb. apply list_elem_of_singleton in Hjb. subst j.
        apply Hfree. rewrite Hset. now apply elem_of_list_to_set.
      * apply NoDup_singleton.
    + apply list.Forall_app. split; [exact Hall|].
      constructor; [|constructor]. exists it, b. auto.
Qed.

(** A run of the loop over [l]: the invariant is kept, the lists only grow,
    and the entries added to the two lists are the entries of [l] that have
    an amount, each once. *)
Lemma match_loop (l : list (ref DriverScheduleEntry)) (st : MatchState) :
  state_ok bank st ->
  let st' := fold_left step l st in
  state_ok bank st'
  /\ (exists ext, st_full_matches st' = st_full_matches st ++ ext)
  /\ matched_bank_trans st ⊆ matched_bank_trans st'
  /\ entries_of (st_full_matches st') ++ st_missing_bank_transactions st'
     ≡ₚ (entries_of (st_full_matches st) ++ st_missing_bank_transactions st)
        ++ filter has_amount l.
Proof.
  revert st. induction l as [|it l IH]; intros st Hok; simpl.
  - split; [exact Hok|]. split; [exists []; now rewrite app_nil_r|].
    split; [reflexivity|]. now rewrite app_nil_r.
  - destruct (IH (step st it) (match_entry_ok st it Hok))
      as (Hok' & [ext Hext] & Hsub & Hperm).
    split; [exact Hok'|]. rewrite filter_cons.
    destruct (match_entry_cases st it)
      as [[Hna Hst]|(a & Ha & Ht & [(_ & Hf & Hmi & Hm)|(b & _ & Hf & Hmi & Hm)])].
    + rewrite Hst in *. rewrite decide_False by exact Hna. eauto.
    + rewrite decide_True by exact Ht.
      split; [exists ext; now rewrite Hext, Hf|].
      split; [now rewrite <- Hm|].
      rewrite Hperm, Hf, Hmi. rewrite <- !app_assoc. simpl.
      now rewrite <- Permutation_middle.
    + rewrite decide_True by exact Ht.
      split; [exists (full_match it b :: ext); rewrite Hext, Hf;
              now rewrite <- app_assoc|].
      split; [rewrite Hm in Hsub; set_solver|].
      rewrite Hperm, Hf, Hmi, entries_of_app. simpl.
      rewrite <- !app_assoc. simpl.
      rewrite (Permutation_middle (st_missing_bank_transactions st)).
      now rewrite <- Permutation_middle.
Qed.

End Matcher.

(** ** Counting the records of a report *)

Section Counting.

Lemma occ_app (i : nat) (l k : list nat) :
  occ i (l ++ k) = (occ i l + occ i k)%nat.
Proof. unfold occ. now rewrite list.filter_app, length_app. Qed.

Lemma occ_perm (i : nat) (l k : list nat) : l ≡ₚ k -> occ i l = occ i k.
Proof. intros H. unfold occ. now rewrite H. Qed.

Lemma occ_NoDup (i : nat) (l : list nat) :
  NoDup l -> occ i l = if decide (i ∈ l) then 1%nat else 0%nat.
Proof.
  unfold occ. induction 1 as [|x l Hx Hnd IH].
  - destruct (decide (i ∈ [])) as [H|H]; [inversion H|reflexivity].
  - rewrite filter_cons.
    destruct (decide (x = i)) as [->|Hne]; cbn [length]; rewrite IH;
      destruct (decide (i ∈ l)) as [Hi|Hi];
      destruct (decide (i ∈ _ :: l)) as [Hc|Hc];
      try reflexivity; try contradiction.
    + exfalso. apply Hc, elem_of_cons. now left.
    + exfalso. apply Hc, elem_of_cons. now right.
    + apply elem_of_cons in Hc as [->|Hc]; contradiction.
Qed.

Lemma times_listed_occ {A : Type} (i : nat) (l : list (ref A)) :
  times_listed i l = occ i (slot <$> l).
Proof.
  unfold times_listed, occ. induction l as [|x l IH]; simpl; [reflexivity|].
  rewrite !filter_cons. destruct (decide (slot x = i)); simpl; now rewrite IH.
Qed.

Lemma count_held_occ {M A : Type} (f : M -> option (ref A)) (i : nat)
    (F : list M) :
  length (filter (fun m => slot <$> f m = Some i) F)
  = occ i (slot <$> omap f F).
Proof.
  unfold occ. induction F as [|m F IH]; [reflexivity|].
  cbn [omap list_omap]. destruct (f m) as [r|] eqn:E.
  - rewrite fmap_cons. destruct (decide (slot r = i)) as [H|H].
    + rewrite !filter_cons_True by (rewrite ?E; simpl; congruence).
      simpl. now rewrite IH.
    + rewrite !filter_cons_False by (rewrite ?E; simpl; congruence).
      exact IH.
  - rewrite filter_cons_False by (rewrite E; discriminate). exact IH.
Qed.

(** The slots of the enumerated items that pass a test: each such slot
    once. *)
Lemma filter_enumerate_NoDup {A : Type} (P : ref A -> Prop)
    `{!forall x, Decision (P x)} (l : list A) :
  NoDup (slot <$> filter P (enumerate l)).
Proof.
  apply (sublist_NoDup _ (slot <$> enumerate l)).
  - unfold enumerate.
    change (NoDup (map slot (enumerate_from 0 l))).
    rewrite enumerate_from_slots. apply NoDup_seq.
  - apply fmap_sublist, sublist_filter.
Qed.

Lemma elem_of_filter_enumerate {A : Type} (P : ref A -> Prop)
    `{!forall x, Decision (P x)} (l : list A) (i : nat) :
  i ∈ slot <$> filter P (enumerate l)
  <-> exists x, l !! i = Some x /\ P (Ref i x).
Proof.
  rewrite list_elem_of_fmap. split.
  - intros ([s x] & -> & [HP Hin]%list_elem_of_filter).
    apply elem_of_enumerate in Hin. simpl in *. eauto.
  - intros (x & Hl & HP). exists (Ref i x). split; [reflexivity|].
    apply list_elem_of_filter. split; [exact HP|].
    now apply elem_of_enumerate.
Qed.

Lemma occ_filter_enumerate {A : Type} (P : ref A -> Prop)
    `{!forall x, Decision (P x)} (l : list A) (i : nat) (x : A) :
  l !! i = Some x ->
  occ i (slot <$> filter P (enumerate l))
  = if decide (P (Ref i x)) then 1%nat else 0%nat.
Proof.
  intros Hl. rewrite occ_NoDup by apply filter_enumerate_NoDup.
  destruct (decide (P (Ref i x))) as [HP|HP].
  - rewrite decide_True; [reflexivity|].
    apply elem_of_filter_enumerate. eauto.
  - rewrite decide_False; [reflexivity|].
    intros (y & Hy & HPy)%elem_of_filter_enumerate. congruence.
Qed.

End Counting.

(** ** One outcome per record *)

Section Classification.

Local Open Scope string_scope.
Local Open Scope list_scope.

(** The facts of a whole run of the outer loop. *)
Lemma match_schedules_facts (lookback_days : Z) (bank : list BankTransaction)
    (schedules : list DriverScheduleEntry) :
  let st := match_schedules lookback_days bank schedules in
  state_ok bank st
  /\ entries_of (st_full_matches st) ++ st_missing_bank_transactions st
     ≡ₚ filter has_amount (enumerate schedules).
Proof.
  destruct (match_loop lookback_days bank (enumerate schedules) initial_state
                       (state_ok_initial bank)) as (Hok & _ & _ & Hperm).
  split; [exact Hok|exact Hperm].
Qed.

(** C3, as the claim states it, fails for a load whose amount is zero: the
    amount is not null, yet the load is passed over and is found neither in
    a FULL match nor among the missing bank transactions. *)
Lemma zero_amount_load_unclassified :
  let report := snd (reconcile 0 zero_amount_data 90) in
  driver_schedules (fst (reconcile 0 zero_amount_data 90)) = [zero_load]
  /\ amount zero_load = Some (cents 0)
  /\ full_matches report = []
  /\ missing_bank_transactions report = [].
Proof. repeat split; reflexivity. Qed.

(** C3 (amended). One run classifies every record once.  A load of the
    (sorted) schedule whose amount is neither null nor zero is held by one
    FULL match or listed once as a missing bank transaction, and not both; a
    load whose amount is null or zero is in neither list.  A bank
    transaction is held by one FULL match or listed once as an orphan, and
    not both.  The records the report holds are records of the input. *)
Theorem every_record_classified_once (now : Z) (data : ReconciliationData)
    (lookback_days : Z) :
  let data' := fst (reconcile now data lookback_days) in
  let report := snd (reconcile now data lookback_days) in
  (forall i e, driver_schedules data' !! i = Some e ->
     (full_matches_of_entry i report
      + times_listed i (missing_bank_transactions report))%nat
     = if opt_dec_truthy (amount e) then 1%nat else 0%nat)
  /\ (forall j b, bank_transactions data' !! j = Some b ->
        (full_matches_of_bank_trans j report
         + times_listed j (orphan_bank_transactions report))%nat = 1%nat)
  /\ Forall (fun m => exists e b,
                 m = full_match e b
                 /\ e ∈ enumerate (driver_schedules data')
                 /\ b ∈ enumerate (bank_transactions data'))
            (full_matches report)
  /\ Forall (fun it => it ∈ enumerate (driver_schedules data'))
            (missing_bank_transactions report)
  /\ Forall (fun it => it ∈ enumerate (bank_transactions data'))
            (orphan_bank_transactions report).
Proof.
  cbn zeta. unfold full_matches_of_entry, full_matches_of_bank_trans.
  simpl.
  set (bank := sort_by transaction_date (bank_transactions data)).
  set (schedules := sort_by date (driver_schedules data)).
  destruct (match_schedules_facts lookback_days bank schedules)
    as ((Hset & Hnd & Hall) & Hperm).
  set (st := match_schedules lookback_days bank schedules) in *.
  assert (Hentry : forall e, e ∈ entries_of (st_full_matches st)
                             ++ st_missing_bank_transactions st ->
                             e ∈ enumerate schedules).
  { intros e He. rewrite Hperm in He.
    now apply list_elem_of_filter in He as [_ He]. }
  split; [|split; [|split; [|split]]].
  - intros i e Hi.
    rewrite (count_held_occ driver_entry), times_listed_occ, <- occ_app.
    change (omap driver_entry (st_full_matches st))
      with (entries_of (st_full_matches st)).
    rewrite <- fmap_app, (occ_perm _ _ _ (fmap_Permutation slot _ _ Hperm)).
    rewrite (occ_filter_enumerate has_amount schedules i e Hi).
    unfold has_amount; simpl.
    destruct (opt_dec_truthy (amount e)); [now rewrite decide_True|].
    now rewrite decide_False.
  - intros j b Hj.
    rewrite (count_held_occ bank_transaction), times_listed_occ.
    change (omap bank_transaction (st_full_matches st))
      with (banks_of (st_full_matches st)).
    rewrite (occ_NoDup _ _ Hnd).
    unfold find_orphan_bank_transactions.
    rewrite (occ_filter_enumerate (fun it => slot it ∉ matched_bank_trans st)
                                  bank j b Hj).
    simpl. rewrite Hset.
    destruct (decide (j ∈ slot <$> banks_of (st_full_matches st))) as [H|H].
    + rewrite decide_False; [reflexivity|].
      intros H'. apply H'. now apply elem_of_list_to_set.
    + rewrite decide_True; [reflexivity|].
      intros H'. apply H. now apply elem_of_list_to_set in H'.
  - apply list.Forall_forall. intros m Hm.
    pose proof (proj1 (list.Forall_forall _ _) Hall m Hm) as (e & b & -> & Hb).
    exists e, b. split; [reflexivity|]. split; [|exact Hb].
    apply Hentry, elem_of_app. left. apply list_elem_of_omap.
    exists (full_match e b). split; [exact Hm|reflexivity].
  - apply list.Forall_forall. intros it Hit.
    apply Hentry, elem_of_app. now right.
  - apply list.Forall_forall. intros it Hit.
    unfold find_orphan_bank_transactions in Hit.
    now apply list_elem_of_filter in Hit as [_ Hit].
Qed.

Lemma every_record_classified_once_witness :
  let data' := fst (reconcile 0 unsorted_data 90) in
  let report := snd (reconcile 0 unsorted_data 90) in
  driver_schedules data' !! 1%nat = Some (load_on 9 "Tony" (Some (cents 30000)))
  /\ (full_matches_of_entry 1 report
      + times_listed 1 (missing_bank_transactions report))%nat = 1%nat.
Proof.
  split; [reflexivity|].
  exact (proj1 (every_record_classified_once 0 unsorted_data 90) 1%nat
               (load_on 9 "Tony" (Some (cents 30000))) eq_refl).
Defined.

End Classification.

(** ** Sums that the context does not round *)

Section Rounding.

Local Open Scope list_scope.

Lemma le_pow10_start (n : Z) (d : positive) :
  1 <= n -> le_pow10 (- Z.log2_up (Zpos d)) n d = true.
Proof.
  intros Hn. unfold le_pow10.
  assert (d = 1%positive \/ 1 < Zpos d) as [->|Hd1] by lia.
  - cbn. apply Z.leb_le. lia.
  - pose proof (Z.log2_up_pos (Zpos d) Hd1) as Hpos.
    destruct (Z.log2_up_spec (Zpos d) Hd1) as [_ H].
    assert (Hd : Zpos d <= 10 ^ Z.log2_up (Zpos d)).
    { transitivity (2 ^ Z.log2_up (Zpos d)); [exact H|].
      apply Z.pow_le_mono_l. lia. }
    destruct (Z.leb_spec 0 (- Z.log2_up (Zpos d))); [lia|].
    apply Z.leb_le. rewrite Z.opp_involutive. nia.
Qed.

Lemma leading_from_le (fuel : nat) (k n : Z) (d : positive) :
  le_pow10 k n d = true -> le_pow10 (leading_from fuel k n d) n d = true.
Proof.
  revert k. induction fuel as [|fuel IH]; intros k Hk; cbn [leading_from].
  - exact Hk.
  - destruct (le_pow10 (k + 1) n d) eqn:E; [now apply IH|exact Hk].
Qed.

Lemma leading_exponent_le (n : Z) (d : positive) :
  1 <= n -> le_pow10 (leading_exponent n d) n d = true.
Proof. intros Hn. apply leading_from_le, le_pow10_start, Hn. Qed.

Lemma le_pow10_bound (k n : Z) (d : positive) (b : Z) :
  0 <= b -> le_pow10 k n d = true -> n < 10 ^ b * Zpos d -> k < b.
Proof.
  intros Hb Hk Hn. unfold le_pow10 in Hk.
  destruct (Z.leb_spec 0 k) as [H0|H0]; [|lia].
  apply Z.leb_le in Hk.
  destruct (Z.lt_ge_cases k b) as [|Hge]; [assumption|exfalso].
  assert (10 ^ b <= 10 ^ k) by (apply Z.pow_le_mono_r; lia).
  nia.
Qed.

Lemma round_half_even_exact (c d : Z) :
  0 < d -> round_half_even (c * d) d = c.
Proof.
  intros Hd. unfold round_half_even.
  rewrite Z.mod_mul, Z.div_mul by lia. rewrite Z.mul_0_r.
  destruct (Z.compare_spec 0 d); [lia|reflexivity|lia].
Qed.

(** The context leaves an amount in whole cents unchanged when it is below
    [10^26]: 28 digits hold it. *)
Lemma round_ctx_exact (q : Decimal) (z : Z) :
  q = Decimal_of z 100 -> Z.abs z < 10 ^ 28 -> round_ctx q = q.
Proof.
  intros Hq Hz. unfold round_ctx.
  assert (Heq : Qnum q * 100 = z * Zpos (Qden q)).
  { rewrite Hq. unfold Decimal_of. cbn [this Q2Qc].
    pose proof (Qred_correct (z # 100)) as H. unfold Qeq in H.
    cbn [Qnum Qden] in H. exact H. }
  set (n := Qnum q) in *. set (d := Qden q) in *.
  destruct (Z.eqb_spec n 0) as [H0|H0]; [reflexivity|].
  assert (Habs : Z.abs n * 100 = Z.abs z * Zpos d) by lia.
  set (k := leading_exponent (Z.abs n) d).
  assert (Hk : k < 26).
  { apply (le_pow10_bound k (Z.abs n) d 26); [lia| |].
    - apply leading_exponent_le. lia.
    - nia. }
  unfold prec.
  replace (Z.max 0 (k - (28 - 1))) with 0 by lia.
  replace (Z.max 0 (- (k - (28 - 1)))) with (2 + (25 - k)) by lia.
  set (m := 25 - k). assert (Hm : 0 <= m) by lia.
  rewrite Z.pow_0_r, !Z.mul_1_r.
  rewrite Z.pow_add_r by lia.
  replace (Z.abs n * (10 ^ 2 * 10 ^ m)) with (Z.abs z * 10 ^ m * Zpos d)
    by (change (10 ^ 2) with 100; lia).
  rewrite round_half_even_exact by lia.
  apply Qc_is_canon. cbn [this Q2Qc]. rewrite Qred_correct.
  assert (Hp : 0 < 10 ^ m) by (apply Z.pow_pos_nonneg; lia).
  unfold Qeq. cbn [Qnum Qden]. fold n d.
  rewrite Z2Pos.id by (change (10 ^ 2) with 100; lia).
  change (10 ^ 2) with 100.
  assert (Hs : Z.sgn n * Z.abs z = z).
  { assert (Z.sgn n = Z.sgn z).
    { destruct (Z.sgn_spec n) as [[? ->]|[[? ->]|[? ->]]];
      destruct (Z.sgn_spec z) as [[? ->]|[[? ->]|[? ->]]]; try reflexivity; nia. }
    rewrite H. lia. }
  transitivity (Z.sgn n * Z.abs z * (10 ^ m) * Zpos d); [ring|].
  rewrite Hs. nia.
Qed.

Lemma le_pow10_above (j n : Z) (d : positive) :
  1 <= n -> Z.log2 n < j -> le_pow10 j n d = false.
Proof.
  intros Hn Hj. pose proof (Z.log2_nonneg n) as H0. unfold le_pow10.
  destruct (Z.leb_spec 0 j); [|lia]. apply Z.leb_gt.
  destruct (Z.log2_spec n) as [_ Hlt]; [lia|].
  assert (2 ^ Z.succ (Z.log2 n) <= 2 ^ j) by (apply Z.pow_le_mono_r; lia).
  assert (2 ^ j <= 10 ^ j) by (apply Z.pow_le_mono_l; lia).
  nia.
Qed.

Lemma leading_from_spec (fuel : nat) (k n : Z) (d : positive) :
  1 <= n -> le_pow10 k n d = true -> Z.log2 n < k + Z.of_nat fuel ->
  le_pow10 (leading_from fuel k n d) n d = true
  /\ le_pow10 (leading_from fuel k n d + 1) n d = false.
Proof.
  intros Hn. revert k. induction fuel as [|fuel IH]; intros k Hk Hf;
    cbn [leading_from].
  - split; [exact Hk|]. apply le_pow10_above; lia.
  - destruct (le_pow10 (k + 1) n d) eqn:E.
    + apply IH; [exact E|lia].
    + split; assumption.
Qed.

(** [leading_exponent] finds the exponent of the leading digit:
    [10^k <= n/d < 10^(k+1)]. *)
Lemma leading_exponent_spec (n : Z) (d : positive) :
  1 <= n ->
  le_pow10 (leading_exponent n d) n d = true
  /\ le_pow10 (leading_exponent n d + 1) n d = false.
Proof.
  intros Hn. apply leading_from_spec; [exact Hn|now apply le_pow10_start|].
  pose proof (Z.log2_nonneg n). pose proof (Z.log2_up_nonneg (Zpos d)). lia.
Qed.

Lemma in_cents_of (z : Z) : in_cents (Decimal_of z 100) = z.
Proof.
  unfold in_cents, Decimal_of. cbn [this Q2Qc].
  pose proof (Qred_correct (z # 100)) as H. unfold Qeq in H.
  cbn [Qnum Qden] in H. rewrite H. apply Z.div_mul. lia.
Qed.

Lemma whole_cents_of (z : Z) : whole_cents (Decimal_of z 100).
Proof. unfold whole_cents. now rewrite in_cents_of. Qed.

Lemma cents_add (x y : Z) :
  (Decimal_of x 100 + Decimal_of y 100)%Qc = Decimal_of (x + y) 100.
Proof.
  apply Qc_is_canon. unfold Decimal_of. cbn [Qcplus this Q2Qc].
  rewrite !Qred_correct. unfold Qeq, Qplus. cbn [Qnum Qden]. lia.
Qed.

Lemma dec_add_cents (x y : Z) :
  Z.abs (x + y) < 10 ^ 28 ->
  dec_add (Decimal_of x 100) (Decimal_of y 100) = Decimal_of (x + y) 100.
Proof.
  intros H. unfold dec_add. rewrite cents_add.
  now apply (round_ctx_exact _ (x + y)).
Qed.

Lemma cents_sub (x y : Z) :
  (Decimal_of x 100 - Decimal_of y 100)%Qc = Decimal_of (x - y) 100.
Proof.
  apply Qc_is_canon. unfold Decimal_of, Qcminus, Qcopp.
  cbn [Qcplus this Q2Qc].
  rewrite !Qred_correct. unfold Qeq, Qplus, Qopp. cbn [Qnum Qden]. lia.
Qed.

Lemma round_half_even_floor (n d : Z) : n / d <= round_half_even n d.
Proof.
  unfold round_half_even.
  destruct (2 * (n mod d) ?= d); [destruct (Z.even (n / d))| |]; lia.
Qed.

(** A rounded value is not smaller in absolute value than the power of ten
    of its leading digit. *)
Lemma round_ctx_large (q : Decimal) (z : Z) :
  q = Decimal_of z 100 -> 10 ^ 28 <= Z.abs z ->
  ~ (Qcabs (round_ctx q) < one_cent)%Qc.
Proof.
  intros Hq Hz. unfold round_ctx.
  assert (Heq : Qnum q * 100 = z * Zpos (Qden q)).
  { rewrite Hq. unfold Decimal_of. cbn [this Q2Qc].
    pose proof (Qred_correct (z # 100)) as H. unfold Qeq in H.
    cbn [Qnum Qden] in H. exact H. }
  set (n := Qnum q) in *. set (d := Qden q) in *.
  assert (Habs : Z.abs n * 100 = Z.abs z * Zpos d) by lia.
  destruct (Z.eqb_spec n 0) as [H0|H0]; [nia|].
  destruct (leading_exponent_spec (Z.abs n) d) as [Hle Hgt]; [lia|].
  set (k := leading_exponent (Z.abs n) d) in *.
  assert (Hk : 26 <= k).
  { destruct (Z.le_gt_cases 26 k) as [|Hlt]; [assumption|exfalso].
    unfold le_pow10 in Hgt.
    destruct (Z.leb_spec 0 (k + 1)) as [Hk0|Hk0].
    - apply Z.leb_gt in Hgt.
      assert (10 ^ (k + 1) <= 10 ^ 26) by (apply Z.pow_le_mono_r; lia).
      nia.
    - apply Z.leb_gt in Hgt.
      assert (0 < 10 ^ (- (k + 1))) by (apply Z.pow_pos_nonneg; lia).
      nia. }
  unfold le_pow10 in Hle. destruct (Z.leb_spec 0 k) as [_|]; [|lia].
  apply Z.leb_le in Hle. unfold prec.
  set (e := k - (28 - 1)).
  set (c := round_half_even (Z.abs n * 10 ^ Z.max 0 (- e))
                            (Zpos d * 10 ^ Z.max 0 e)).
  assert (Hp1 : 0 < 10 ^ Z.max 0 e) by (apply Z.pow_pos_nonneg; lia).
  assert (Hp2 : 0 < 10 ^ Z.max 0 (- e)) by (apply Z.pow_pos_nonneg; lia).
  assert (Hc : 10 ^ 27 <= c).
  { etransitivity; [|apply round_half_even_floor].
    apply Z.div_le_lower_bound; [lia|].
    destruct (Z.le_gt_cases 0 e) as [He|He].
    - replace (Z.max 0 (- e)) with 0 by lia.
      replace (Z.max 0 e) with e by lia.
      rewrite Z.pow_0_r, Z.mul_1_r.
      replace k with (27 + e) in Hle by (unfold e; lia).
      rewrite Z.pow_add_r in Hle by lia. nia.
    - assert (k = 26) as Hk26 by (unfold e in He; lia).
      replace (Z.max 0 (- e)) with 1 by (unfold e; lia).
      replace (Z.max 0 e) with 0 by lia.
      rewrite Hk26 in Hle. change (10 ^ 1) with 10.
      change (10 ^ 0) with 1. change (10 ^ 27) with (10 * 10 ^ 26). nia. }
  assert (He2 : 10 ^ Z.max 0 (- e) <= 10).
  { change 10 with (10 ^ 1) at 2. apply Z.pow_le_mono_r; unfold e; lia. }
  unfold Qclt, one_cent, Decimal_of. cbn [this Q2Qc Qcabs].
  rewrite !Qred_correct. unfold Qlt, Qabs. cbn [Qnum Qden].
  rewrite Z2Pos.id by lia. rewrite !Z.abs_mul.
  rewrite (Z.abs_eq c) by lia. rewrite (Z.abs_eq (10 ^ _)) by lia.
  assert (Z.abs (Z.sgn n) = 1) by lia.
  nia.
Qed.

(** On amounts in whole cents the test on the rounded difference has the
    outcome of the test on the difference itself. *)
Lemma within_cent_rounded (a b : Decimal) :
  whole_cents a -> whole_cents b ->
  dec_ltb (Qcabs (dec_sub a b)) one_cent = within_cent a b.
Proof.
  intros Ha Hb. unfold within_cent, dec_sub.
  assert (Hd : (a - b)%Qc = Decimal_of (in_cents a - in_cents b) 100).
  { unfold whole_cents in Ha, Hb.
    transitivity (Decimal_of (in_cents a) 100 - Decimal_of (in_cents b) 100)%Qc;
      [now rewrite <- Ha, <- Hb|apply cents_sub]. }
  destruct (Z.lt_ge_cases (Z.abs (in_cents a - in_cents b)) (10 ^ 28))
    as [Hlt|Hge].
  - now rewrite (round_ctx_exact _ _ Hd Hlt).
  - unfold dec_ltb.
    rewrite bool_decide_eq_false_2 by (apply (round_ctx_large _ _ Hd Hge)).
    symmetry. apply bool_decide_eq_false_2.
    rewrite Hd. unfold Qclt, one_cent, Decimal_of. cbn [this Q2Qc Qcabs].
    rewrite !Qred_correct. unfold Qlt, Qabs. cbn [Qnum Qden]. lia.
Qed.

Lemma whole_cents_list (l : list Decimal) :
  Forall whole_cents l ->
  l = map (fun z => Decimal_of z 100) (map in_cents l).
Proof.
  induction 1 as [|a l Ha _ IH]; [reflexivity|].
  cbn [map]. rewrite <- IH. now rewrite <- Ha.
Qed.

Lemma abs_cents_of (zs : list Z) :
  abs_cents (map (fun z => Decimal_of z 100) zs)
  = foldr (fun z acc => Z.abs z + acc) 0 zs.
Proof.
  induction zs as [|z zs IH]; [reflexivity|].
  cbn [map abs_cents foldr]. rewrite in_cents_of. f_equal. exact IH.
Qed.

Lemma exact_sum_of (zs : list Z) :
  exact_sum (map (fun z => Decimal_of z 100) zs)
  = Decimal_of (foldr Z.add 0 zs) 100.
Proof.
  induction zs as [|z zs IH]; cbn [map exact_sum foldr].
  - apply Qc_is_canon. reflexivity.
  - fold (exact_sum (map (fun z => Decimal_of z 100) zs)).
    now rewrite IH, cents_add.
Qed.

Lemma fold_cents (zs : list Z) (z : Z) :
  Z.abs z + foldr (fun z acc => Z.abs z + acc) 0 zs < 10 ^ 28 ->
  fold_left dec_add (map (fun z => Decimal_of z 100) zs) (Decimal_of z 100)
  = Decimal_of (z + foldr Z.add 0 zs) 100.
Proof.
  revert z. induction zs as [|y zs IH]; intros z Hb; cbn [map fold_left foldr] in *.
  - now rewrite Z.add_0_r.
  - assert (H0 : 0 <= foldr (fun z acc => Z.abs z + acc) 0 zs).
    { clear. induction zs; cbn; lia. }
    rewrite dec_add_cents by lia. rewrite IH by lia. f_equal. lia.
Qed.

(** Amounts that are not rounded: the sum the code accumulates is their
    sum. *)
Lemma dec_sum_exact (l : list Decimal) :
  rounding_free l -> dec_sum l = exact_sum l.
Proof.
  intros [Hw Hb]. rewrite (whole_cents_list l Hw) in Hb |- *.
  rewrite abs_cents_of in Hb. unfold dec_sum.
  replace 0%Qc with (Decimal_of 0 100) by (apply Qc_is_canon; reflexivity).
  rewrite fold_cents by (cbn; lia). now rewrite exact_sum_of.
Qed.

Lemma exact_sum_app (l k : list Decimal) :
  exact_sum (l ++ k) = (exact_sum l + exact_sum k)%Qc.
Proof.
  unfold exact_sum. induction l as [|a l IH]; cbn [app foldr]; [ring|].
  rewrite IH. ring.
Qed.

Lemma exact_sum_perm (l k : list Decimal) :
  l ≡ₚ k -> exact_sum l = exact_sum k.
Proof.
  unfold exact_sum.
  induction 1 as [|x l k _ IH|x y l|l k m _ IH1 _ IH2]; cbn [foldr].
  - reflexivity.
  - now rewrite IH.
  - ring.
  - now rewrite IH1.
Qed.

Lemma abs_cents_nonneg (l : list Decimal) : 0 <= abs_cents l.
Proof. induction l as [|a l IH]; cbn [abs_cents foldr]; [lia|]. fold (abs_cents l). lia. Qed.

Lemma abs_cents_app (l k : list Decimal) :
  abs_cents (l ++ k) = abs_cents l + abs_cents k.
Proof.
  induction l as [|a l IH]; cbn [app abs_cents foldr]; [reflexivity|].
  fold (abs_cents (l ++ k)) (abs_cents l). lia.
Qed.

Lemma abs_cents_perm (l k : list Decimal) :
  l ≡ₚ k -> abs_cents l = abs_cents k.
Proof.
  unfold abs_cents.
  induction 1 as [|x l k _ IH|x y l|l k m _ IH1 _ IH2]; cbn [foldr]; lia.
Qed.

Lemma rounding_free_app (l k : list Decimal) :
  rounding_free (l ++ k) -> rounding_free l /\ rounding_free k.
Proof.
  intros [Hw Hb]. apply list.Forall_app in Hw as [Hl Hk].
  rewrite abs_cents_app in Hb.
  pose proof (abs_cents_nonneg l). pose proof (abs_cents_nonneg k).
  split; (split; [assumption|lia]).
Qed.

Lemma rounding_free_perm (l k : list Decimal) :
  l ≡ₚ k -> rounding_free l -> rounding_free k.
Proof.
  intros Hp [Hw Hb]. split.
  - now rewrite <- Hp.
  - now rewrite <- (abs_cents_perm _ _ Hp).
Qed.

Lemma abs_cents_sublist (l k : list Decimal) :
  l `sublist_of` k -> abs_cents l <= abs_cents k.
Proof.
  induction 1 as [|x l1 l2 _ IH|x l1 l2 _ IH]; unfold abs_cents in *;
    cbn [foldr]; lia.
Qed.

Lemma rounding_free_sublist (l k : list Decimal) :
  l `sublist_of` k -> rounding_free k -> rounding_free l.
Proof.
  intros Hs [Hw Hb]. split.
  - eapply list.Forall_forall. intros x Hx.
    apply (proj1 (list.Forall_forall _ _) Hw). eapply elem_of_sublist; eauto.
  - pose proof (abs_cents_sublist l k Hs). lia.
Qed.

(** The sum of a concatenation, accumulated, when nothing is rounded. *)
Lemma dec_sum_app (l k : list Decimal) :
  rounding_free (l ++ k) ->
  dec_sum (l ++ k) = (dec_sum l + exact_sum k)%Qc.
Proof.
  intros H. destruct (rounding_free_app l k H) as [Hl Hk].
  now rewrite !dec_sum_exact, exact_sum_app by assumption.
Qed.

Lemma dec_sum_perm (l k : list Decimal) :
  rounding_free l -> l ≡ₚ k -> dec_sum l = dec_sum k.
Proof.
  intros H Hp. rewrite !dec_sum_exact; [now apply exact_sum_perm| |exact H].
  now apply (rounding_free_perm l k).
Qed.

(** The amounts of a list of loads that the code adds up. *)
Lemma fold_add_if_truthy (E : list DriverScheduleEntry) (x : Decimal) :
  fold_left add_if_truthy (map amount E) x
  = fold_left dec_add (truthy_amounts E) x.
Proof.
  revert x. unfold truthy_amounts.
  induction E as [|e E IH]; intros x; cbn [map fold_left omap list_omap];
    [reflexivity|].
  rewrite IH. unfold add_if_truthy.
  destruct (amount e) as [a|]; [destruct (dec_truthy a)|]; reflexivity.
Qed.

Lemma exact_sum_truthy_amounts (E : list DriverScheduleEntry) :
  exact_sum (truthy_amounts E) = total E.
Proof.
  unfold exact_sum, total, truthy_amounts.
  induction E as [|e E IH]; cbn [omap list_omap foldr]; [reflexivity|].
  unfold amount_value at 1.
  destruct (amount e) as [a|]; [destruct (dec_truthy a)|]; cbn [foldr];
    rewrite IH; ring.
Qed.

Lemma truthy_amounts_app (E1 E2 : list DriverScheduleEntry) :
  truthy_amounts (E1 ++ E2) = truthy_amounts E1 ++ truthy_amounts E2.
Proof. unfold truthy_amounts. apply omap_app. Qed.

Lemma truthy_amounts_perm (E1 E2 : list DriverScheduleEntry) :
  E1 ≡ₚ E2 -> truthy_amounts E1 ≡ₚ truthy_amounts E2.
Proof.
  unfold truthy_amounts.
  induction 1 as [|e E1 E2 _ IH|e1 e2 E|E1 E2 E3 _ IH1 _ IH2];
    cbn [omap list_omap].
  - reflexivity.
  - destruct (amount e) as [a|]; [destruct (dec_truthy a)|];
      [now constructor|exact IH|exact IH].
  - destruct (amount e1) as [a1|]; [destruct (dec_truthy a1)|];
      (destruct (amount e2) as [a2|]; [destruct (dec_truthy a2)|]);
      try reflexivity. apply perm_swap.
  - now rewrite IH1.
Qed.

Lemma truthy_amounts_filter (P : DriverScheduleEntry -> Prop)
    `{!forall e, Decision (P e)} (E : list DriverScheduleEntry) :
  truthy_amounts (filter P E) `sublist_of` truthy_amounts E.
Proof.
  unfold truthy_amounts. induction E as [|e E IH]; [constructor|].
  rewrite filter_cons. destruct (decide (P e)); cbn [omap list_omap].
  - destruct (amount e) as [a|]; [destruct (dec_truthy a)|];
      [now apply sublist_skip|exact IH|exact IH].
  - destruct (amount e) as [a|]; [destruct (dec_truthy a)|];
      [now apply sublist_cons|exact IH|exact IH].
Qed.

Lemma truthy_amounts_with_amount (E : list DriverScheduleEntry) :
  truthy_amounts (filter (fun e => opt_dec_truthy (amount e) = true) E)
  = truthy_amounts E.
Proof.
  unfold truthy_amounts. induction E as [|e E IH]; [reflexivity|].
  rewrite filter_cons.
  destruct (decide (opt_dec_truthy (amount e) = true)) as [H|H];
    cbn [omap list_omap]; rewrite IH; [reflexivity|].
  unfold opt_dec_truthy in H.
  destruct (amount e) as [a|]; [|reflexivity].
  destruct (dec_truthy a); [congruence|reflexivity].
Qed.

End Rounding.

(** ** The per-driver summaries *)

Section Aggregator.

Local Open Scope string_scope.
Local Open Scope list_scope.

Lemma total_app (E1 E2 : list DriverScheduleEntry) :
  total (E1 ++ E2) = (total E1 + total E2)%Qc.
Proof.
  unfold total. induction E1 as [|e E1 IH]; simpl; [ring|].
  rewrite IH. ring.
Qed.

Lemma total_perm (E1 E2 : list DriverScheduleEntry) :
  E1 ≡ₚ E2 -> total E1 = total E2.
Proof.
  unfold total.
  induction 1 as [|e E1 E2 _ IH|e1 e2 E|E1 E2 E3 _ IH1 _ IH2]; simpl.
  - reflexivity.
  - now rewrite IH.
  - ring.
  - now rewrite IH1.
Qed.

(** Loads without an amount add nothing to a total. *)
Lemma total_filter_amount (E : list DriverScheduleEntry) :
  total (filter (fun e => opt_dec_truthy (amount e) = true) E) = total E.
Proof.
  induction E as [|e E IH]; [reflexivity|].
  rewrite filter_cons. unfold total in *.
  destruct (decide (opt_dec_truthy (amount e) = true)) as [H|H]; simpl.
  - now rewrite IH.
  - rewrite IH. unfold amount_value. unfold opt_dec_truthy in H.
    destruct (amount e) as [d|]; [destruct (dec_truthy d)|];
      try ring; congruence.
Qed.

Lemma lookup_update_summary (f : DriverSummary -> DriverSummary)
    (k d : string) (m : gmap string DriverSummary) :
  default zero_summary (update_summary f k m !! d)
  = if decide (k = d) then f (default zero_summary (m !! d))
    else default zero_summary (m !! d).
Proof.
  unfold update_summary. destruct (decide (k = d)) as [->|Hne].
  - now rewrite lookup_insert_eq.
  - now rewrite lookup_insert_ne.
Qed.

(** A summarizing loop seen from one driver: the updates of the loads of
    this driver, in order. *)
Lemma summarize_fold
    (count : option Decimal -> DriverSummary -> DriverSummary)
    (E : list DriverScheduleEntry) (m : gmap string DriverSummary)
    (d : string) :
  default zero_summary (fold_left (summarize_entry count) E m !! d)
  = fold_left (fun s e => count (amount e) s) (filter (driver_is d) E)
              (default zero_summary (m !! d)).
Proof.
  revert m. induction E as [|e E IH]; intros m; [reflexivity|].
  cbn [fold_left]. rewrite IH. unfold summarize_entry.
  rewrite lookup_update_summary.
  destruct (decide (normalize_driver_name (driver e) = d)) as [H|H].
  - now rewrite filter_cons_True by exact H.
  - now rewrite filter_cons_False by exact H.
Qed.

Lemma summarize_match_fold (F : list ReconciliationMatch)
    (m : gmap string DriverSummary) :
  fold_left summarize_match F m
  = fold_left (summarize_entry count_paid) (deref <$> entries_of F) m.
Proof.
  revert m. induction F as [|x F IH]; intros m; [reflexivity|].
  cbn [fold_left]. rewrite IH. unfold summarize_match, entries_of.
  cbn [omap list_omap]. destruct (driver_entry x); reflexivity.
Qed.

Lemma summarize_missing_fold (M : list (ref DriverScheduleEntry))
    (m : gmap string DriverSummary) :
  fold_left (fun s it => summarize_entry count_unpaid s (deref it)) M m
  = fold_left (summarize_entry count_unpaid) (deref <$> M) m.
Proof.
  revert m. induction M as [|x M IH]; intros m; [reflexivity|].
  cbn [fold_left fmap list_fmap]. now rewrite IH.
Qed.

Lemma count_scheduled_fold (E : list DriverScheduleEntry) (s : DriverSummary) :
  fold_left (fun s e => count_scheduled (amount e) s) E s
  = {| scheduled_loads := scheduled_loads s + Z.of_nat (length E);
       scheduled_amount :=
         fold_left add_if_truthy (map amount E) (scheduled_amount s);
       paid_loads := paid_loads s; paid_amount := paid_amount s;
       unpaid_loads := unpaid_loads s; unpaid_amount := unpaid_amount s |}.
Proof.
  revert s. induction E as [|e E IH]; intros [sl sa pl pa ul ua].
  - cbn. f_equal. lia.
  - cbn [fold_left]. rewrite IH. unfold count_scheduled. cbn. f_equal. lia.
Qed.

Lemma count_paid_fold (E : list DriverScheduleEntry) (s : DriverSummary) :
  fold_left (fun s e => count_paid (amount e) s) E s
  = {| scheduled_loads := scheduled_loads s;
       scheduled_amount := scheduled_amount s;
       paid_loads := paid_loads s + Z.of_nat (length E);
       paid_amount := fold_left add_if_truthy (map amount E) (paid_amount s);
       unpaid_loads := unpaid_loads s; unpaid_amount := unpaid_amount s |}.
Proof.
  revert s. induction E as [|e E IH]; intros [sl sa pl pa ul ua].
  - cbn. f_equal. lia.
  - cbn [fold_left]. rewrite IH. unfold count_paid. cbn. f_equal. lia.
Qed.

Lemma count_unpaid_fold (E : list DriverScheduleEntry) (s : DriverSummary) :
  fold_left (fun s e => count_unpaid (amount e) s) E s
  = {| scheduled_loads := scheduled_loads s;
       scheduled_amount := scheduled_amount s;
       paid_loads := paid_loads s; paid_amount := paid_amount s;
       unpaid_loads := unpaid_loads s + Z.of_nat (length E);
       unpaid_amount :=
         fold_left add_if_truthy (map amount E) (unpaid_amount s) |}.
Proof.
  revert s. induction E as [|e E IH]; intros [sl sa pl pa ul ua].
  - cbn. f_equal. lia.
  - cbn [fold_left]. rewrite IH. unfold count_unpaid. cbn. f_equal. lia.
Qed.

(** The summary of one driver, field by field: each amount is accumulated
    over the loads of the driver, in the order of the list. *)
Lemma driver_summary_fields (schedules : list DriverScheduleEntry)
    (full : list ReconciliationMatch)
    (missing : list (ref DriverScheduleEntry)) (d : string) :
  let s := default zero_summary
             (_build_driver_summaries schedules full missing !! d) in
  scheduled_loads s = Z.of_nat (length (filter (driver_is d) schedules))
  /\ scheduled_amount s
     = dec_sum (truthy_amounts (filter (driver_is d) schedules))
  /\ paid_loads s
     = Z.of_nat (length (filter (driver_is d) (deref <$> entries_of full)))
  /\ paid_amount s
     = dec_sum (truthy_amounts
                  (filter (driver_is d) (deref <$> entries_of full)))
  /\ unpaid_loads s = Z.of_nat (length (filter (driver_is d) (deref <$> missing)))
  /\ unpaid_amount s
     = dec_sum (truthy_amounts (filter (driver_is d) (deref <$> missing))).
Proof.
  unfold _build_driver_summaries.
  rewrite summarize_missing_fold, summarize_match_fold, !summarize_fold.
  rewrite lookup_empty. cbn [default].
  rewrite count_scheduled_fold, count_paid_fold, count_unpaid_fold. cbn.
  rewrite !fold_add_if_truthy. unfold dec_sum. repeat split; lia.
Qed.

Lemma deref_filter_has_amount (l : list DriverScheduleEntry) (k : nat) :
  deref <$> filter has_amount (enumerate_from k l)
  = filter (fun e => opt_dec_truthy (amount e) = true) l.
Proof.
  revert k. induction l as [|e l IH]; intros k; [reflexivity|].
  cbn [enumerate_from].
  destruct (decide (opt_dec_truthy (amount e) = true)) as [H|H].
  - rewrite (filter_cons_True has_amount) by exact H.
    rewrite filter_cons_True by exact H. rewrite fmap_cons. now rewrite IH.
  - rewrite (filter_cons_False has_amount) by exact H.
    rewrite filter_cons_False by exact H. apply IH.
Qed.

(** The loads of a driver: those with an amount and those without. *)
Lemma length_filter_driver (d : string) (E : list DriverScheduleEntry) :
  length (filter (driver_is d) E)
  = (length (filter (driver_is d)
                    (filter (fun e => opt_dec_truthy (amount e) = true) E))
     + length (filter (fun e => driver_is d e /\ no_amount e) E))%nat.
Proof.
  induction E as [|e E IH]; [reflexivity|].
  rewrite !filter_cons. unfold no_amount at 1.
  destruct (decide (driver_is d e)) as [Hd|Hd];
    destruct (decide (opt_dec_truthy (amount e) = true)) as [Ha|Ha];
    destruct (decide (driver_is d e /\ opt_dec_truthy (amount e) = false))
      as [[Hd' Hn]|Hn];
    rewrite ?filter_cons, ?decide_True by assumption;
    rewrite ?decide_False by assumption;
    cbn [length]; try (rewrite IH; lia); try congruence.
  exfalso. apply Hn. split; [exact Hd|].
  now destruct (opt_dec_truthy (amount e)).
Qed.

(** C1, as the claim states it, fails for the counts: a schedule line
    without an amount is counted as scheduled, and is neither paid nor
    unpaid. *)
Lemma null_amount_load_breaks_count_identity :
  exists s,
    driver_summaries (snd (reconcile 0 no_amount_data 90)) !! "Tony" = Some s
    /\ scheduled_loads s = 1
    /\ paid_loads s = 0
    /\ unpaid_loads s = 0
    /\ scheduled_loads s <> paid_loads s + unpaid_loads s.
Proof.
  eexists. split; [vm_compute; reflexivity|]. cbn. repeat split; lia.
Qed.

(** Where the amounts are large, the amount identity of C1 fails as well:
    the context rounds each addition to 28 digits, so that a load of
    [10^27] followed by two of a half add up to [10^27], while the paid
    amount [10^27] and the unpaid amount [1] add up to [10^27 + 1]. *)
Lemma large_amounts_break_amount_identity :
  let data := {| payment_remittances := [];
                 bank_transactions :=
                   [zelle_on 1 "Tony" (Decimal_of (10 ^ 27) 1)];
                 driver_schedules :=
                   [ load_on 1 "Tony" (Some (Decimal_of (10 ^ 27) 1));
                     load_on 2 "Tony" (Some (Decimal_of 1 2));
                     load_on 3 "Tony" (Some (Decimal_of 1 2)) ] |} in
  exists s,
    driver_summaries (snd (reconcile 0 data 90)) !! "Tony" = Some s
    /\ scheduled_amount s = Decimal_of (10 ^ 27) 1
    /\ paid_amount s = Decimal_of (10 ^ 27) 1
    /\ unpaid_amount s = Decimal_of 1 1
    /\ scheduled_amount s <> (paid_amount s + unpaid_amount s)%Qc.
Proof.
  cbn zeta. eexists. split; [vm_compute; reflexivity|]. cbn.
  split; [apply Qc_is_canon; vm_compute; reflexivity|].
  split; [apply Qc_is_canon; vm_compute; reflexivity|].
  split; [apply Qc_is_canon; vm_compute; reflexivity|].
  intros H. apply (f_equal this) in H. vm_compute in H. discriminate H.
Qed.

(** C1 (amended). For every input and every driver of the summaries, the
    number of scheduled loads is the number of paid loads plus the number of
    unpaid loads plus the number of loads of this driver whose amount is
    null or zero; and the scheduled amount is the paid amount plus the
    unpaid amount when no addition is rounded, that is when the amounts of
    the loads of this driver are whole cents whose absolute values add up to
    less than [10^26]. *)
Theorem driver_summary_conservation (now : Z) (data : ReconciliationData)
    (lookback_days : Z) (d : string) (s : DriverSummary) :
  driver_summaries (snd (reconcile now data lookback_days)) !! d = Some s ->
  (rounding_free (truthy_amounts (filter (driver_is d) (driver_schedules data)))
   -> scheduled_amount s = (paid_amount s + unpaid_amount s)%Qc)
  /\ scheduled_loads s
     = paid_loads s + unpaid_loads s
       + Z.of_nat (length (filter (fun e => driver_is d e /\ no_amount e)
                                  (driver_schedules data))).
Proof.
  cbn [reconcile snd driver_summaries]. intros Hs.
  set (bank := sort_by transaction_date (bank_transactions data)) in *.
  set (schedules := sort_by date (driver_schedules data)) in *.
  destruct (match_schedules_facts lookback_days bank schedules)
    as (_ & Hperm).
  set (st := match_schedules lookback_days bank schedules) in *.
  pose proof (driver_summary_fields schedules (st_full_matches st)
                (st_missing_bank_transactions st) d) as Hf.
  cbn zeta in Hf. rewrite Hs in Hf. cbn [default from_option id] in Hf.
  destruct Hf as (Hsl & Hsa & Hpl & Hpa & Hul & Hua).
  apply (fmap_Permutation deref) in Hperm.
  rewrite fmap_app in Hperm. unfold enumerate in Hperm.
  rewrite deref_filter_has_amount in Hperm.
  apply (filter_Permutation (driver_is d)) in Hperm.
  rewrite list.filter_app in Hperm. split.
  - intros Hfree.
    assert (Hsched : rounding_free
                       (truthy_amounts (filter (driver_is d) schedules))).
    { eapply rounding_free_perm; [|exact Hfree].
      apply truthy_amounts_perm, filter_Permutation. symmetry.
      apply sort_by_perm. }
    apply truthy_amounts_perm in Hperm.
    rewrite truthy_amounts_app in Hperm.
    assert (Hswap : truthy_amounts
                      (filter (driver_is d)
                         (filter (fun e => opt_dec_truthy (amount e) = true)
                                 schedules))
                    = truthy_amounts (filter (driver_is d) schedules)).
    { rewrite <- (truthy_amounts_with_amount (filter (driver_is d) schedules)).
      f_equal. rewrite !list_filter_filter. apply list_filter_iff.
      intros e. tauto. }
    rewrite Hswap in Hperm.
    assert (Hparts : rounding_free
                       (truthy_amounts
                          (filter (driver_is d)
                                  (deref <$> entries_of (st_full_matches st)))
                        ++ truthy_amounts
                             (filter (driver_is d)
                                (deref <$> st_missing_bank_transactions st)))).
    { eapply rounding_free_perm; [symmetry; exact Hperm|exact Hsched]. }
    destruct (rounding_free_app _ _ Hparts) as [Hpaid Hunpaid].
    rewrite Hsa, Hpa, Hua, !dec_sum_exact by assumption.
    rewrite <- exact_sum_app. symmetry. now apply exact_sum_perm.
  - rewrite Hsl, Hpl, Hul, length_filter_driver.
    apply Permutation_length in Hperm. rewrite length_app in Hperm.
    assert (Hsort : length (filter (fun e => driver_is d e /\ no_amount e)
                                   schedules)
                    = length (filter (fun e => driver_is d e /\ no_amount e)
                                     (driver_schedules data))).
    { unfold schedules. now rewrite sort_by_perm. }
    lia.
Qed.

Lemma driver_summary_conservation_witness :
  exists s,
    driver_summaries (snd (reconcile 0 mixed_data 90)) !! "Tony" = Some s
    /\ scheduled_amount s = (paid_amount s + unpaid_amount s)%Qc
    /\ scheduled_loads s = paid_loads s + unpaid_loads s + 1.
Proof.
  assert (Hfree : rounding_free
                    (truthy_amounts
                       (filter (driver_is "Tony") (driver_schedules mixed_data)))).
  { split; [|vm_compute; reflexivity].
    repeat constructor; apply Qc_is_canon; vm_compute; reflexivity. }
  eexists. split; [vm_compute; reflexivity|].
  refine (let H := driver_summary_conservation 0 mixed_data 90 "Tony" _ _ in
          conj (proj1 H Hfree) (proj2 H)).
  vm_compute. reflexivity.
Defined.

End Aggregator.

(** ** Payment remittances *)

Section Payments.

Local Open Scope string_scope.
Local Open Scope list_scope.

(** C6, as the claim states it, fails: the run on [mixed_data] has one
    remittance in its input and none in the orphan-payment list of its
    report. *)
Lemma remittance_not_surfaced :
  length (payment_remittances (fst (reconcile 0 mixed_data 90))) = 1%nat
  /\ orphan_payments (snd (reconcile 0 mixed_data 90)) = [].
Proof. split; reflexivity. Qed.

(** C6 (amended). For every input the payments are aggregated and nothing
    more: the total of remittances received is the sum of the payment
    amounts, added up in the order of the payment dates in which the run
    leaves them; no match of the report holds a payment, and the
    orphan-payment list of the report is empty. *)
Theorem payments_only_aggregated (now : Z) (data : ReconciliationData)
    (lookback_days : Z) :
  let data' := fst (reconcile now data lookback_days) in
  let report := snd (reconcile now data lookback_days) in
  payment_remittances data' ≡ₚ payment_remittances data
  /\ total_remittances_received report
     = dec_sum (map payment_amount (payment_remittances data'))
  /\ Forall (fun m => payment_remittance m = None)
            (full_matches report ++ partial_matches report
             ++ amount_discrepancies report)
  /\ missing_payments report = []
  /\ orphan_payments report = [].
Proof.
  cbn zeta. cbn [reconcile fst snd total_remittances_received full_matches
                 partial_matches amount_discrepancies missing_payments
                 orphan_payments payment_remittances].
  split; [apply sort_by_perm|]. split; [reflexivity|].
  split; [|split; reflexivity].
  - rewrite !app_nil_r.
    destruct (match_schedules_facts lookback_days
                (sort_by transaction_date (bank_transactions data))
                (sort_by date (driver_schedules data)))
      as ((_ & _ & Hall) & _).
    eapply list.Forall_impl; [exact Hall|].
    intros m (e & b & -> & _). reflexivity.
Qed.

End Payments.

(** ** The lookback window *)

Section Lookback.

Local Open Scope string_scope.
Local Open Scope list_scope.









End Lookback.

(** ** The outcome of one load within a run *)

Section Selection.

Local Open Scope string_scope.
Local Open Scope list_scope.

Variable lookback_days : Z.
Variable bank : list BankTransaction.
Variable schedules : list DriverScheduleEntry.

Abbreviation step := (match_entry lookback_days bank).

Lemma state_before_ok (n : nat) :
  state_ok bank (state_before lookback_days bank schedules n).
Proof.
  apply (match_loop lookback_days bank (enumerate (take n schedules))
                    initial_state (state_ok_initial bank)).
Qed.

(** The run, cut at the load of slot [n]. *)
Lemma run_split (n : nat) (e : DriverScheduleEntry) :
  schedules !! n = Some e ->
  match_schedules lookback_days bank schedules
  = fold_left step (enumerate_from (S n) (drop (S n) schedules))
              (step (state_before lookback_days bank schedules n) (Ref n e)).
Proof.
  intros Hn. unfold state_before, match_schedules, enumerate.
  rewrite <- (take_drop_middle schedules n e Hn) at 1.
  rewrite enumerate_from_app, fold_left_app. cbn [enumerate_from fold_left].
  rewrite length_take_le by (apply lookup_lt_Some in Hn; lia).
  reflexivity.
Qed.

Lemma missing_grows (l : list (ref DriverScheduleEntry)) (st : MatchState) :
  exists ext,
    st_missing_bank_transactions (fold_left step l st)
    = st_missing_bank_transactions st ++ ext.
Proof.
  revert st. induction l as [|it l IH]; intros st; cbn [fold_left].
  - exists []. now rewrite app_nil_r.
  - destruct (IH (step st it)) as [ext Hext].
    destruct (match_entry_cases lookback_days bank st it)
      as [[_ Hst]|(a & _ & _ & [(_ & _ & Hm & _)|(b & _ & _ & Hm & _)])].
    + rewrite Hst in Hext |- *. exists ext. exact Hext.
    + exists (it :: ext). rewrite Hext, Hm. now rewrite <- app_assoc.
    + exists ext. now rewrite Hext, Hm.
Qed.

(** What becomes of the load of slot [n]: a FULL match with the
    transaction the inner loop returns on the state reached, or an entry of
    the missing list when it returns nothing. *)
Lemma entry_outcome (n : nat) (e : DriverScheduleEntry) (a : Decimal) :
  schedules !! n = Some e -> amount e = Some a -> dec_truthy a = true ->
  let st := state_before lookback_days bank schedules n in
  let final := match_schedules lookback_days bank schedules in
  match find_best_match lookback_days bank (matched_bank_trans st) e a with
  | Some b => full_match (Ref n e) b ∈ st_full_matches final
  | None => Ref n e ∈ st_missing_bank_transactions final
  end.
Proof.
  intros Hn Ha Ht. cbn zeta. rewrite (run_split n e Hn).
  set (st := state_before lookback_days bank schedules n).
  set (rest := enumerate_from (S n) (drop (S n) schedules)).
  assert (Hok : state_ok bank (step st (Ref n e))).
  { apply match_entry_ok, state_before_ok. }
  destruct (match_loop lookback_days bank rest _ Hok) as (_ & [ext Hf] & _).
  destruct (missing_grows rest (step st (Ref n e))) as [ext' Hm].
  destruct (match_entry_cases lookback_days bank st (Ref n e))
    as [[Hna _]|(a' & Ha' & _ & [(Hnone & _ & Hmi & _)|(b & Hb & Hfu & _)])];
    cbn [deref] in *.
  - exfalso. apply Hna. unfold has_amount. cbn [deref]. now rewrite Ha.
  - assert (a' = a) as -> by congruence. rewrite Hnone.
    rewrite Hm, Hmi. rewrite !elem_of_app. left. right.
    apply list_elem_of_singleton. reflexivity.
  - assert (a' = a) as -> by congruence. rewrite Hb.
    rewrite Hf, Hfu. rewrite !elem_of_app. left. right.
    apply list_elem_of_singleton. reflexivity.
Qed.

(** Each load with an amount is in the two lists once, all in all. *)
Lemma entry_occurrences (n : nat) (e : DriverScheduleEntry) :
  schedules !! n = Some e ->
  let final := match_schedules lookback_days bank schedules in
  (occ n (slot <$> entries_of (st_full_matches final))
   + occ n (slot <$> st_missing_bank_transactions final))%nat
  = if opt_dec_truthy (amount e) then 1%nat else 0%nat.
Proof.
  intros Hn. cbn zeta.
  destruct (match_schedules_facts lookback_days bank schedules)
    as (_ & Hperm).
  rewrite <- occ_app, <- fmap_app.
  rewrite (occ_perm _ _ _ (fmap_Permutation slot _ _ Hperm)).
  rewrite (occ_filter_enumerate has_amount schedules n e Hn).
  unfold has_amount; cbn [deref].
  destruct (opt_dec_truthy (amount e)); [now rewrite decide_True|].
  now rewrite decide_False.
Qed.

Lemma occ_elem_of {A : Type} (it : ref A) (l : list (ref A)) :
  it ∈ l -> (1 <= occ (slot it) (slot <$> l))%nat.
Proof.
  unfold occ. induction l as [|x l IH]; intros Hin; [inversion Hin|].
  rewrite fmap_cons, filter_cons.
  apply elem_of_cons in Hin as [<-|Hin].
  - rewrite decide_True by reflexivity. cbn [length]. lia.
  - specialize (IH Hin). destruct (decide (slot x = slot it)); cbn [length]; lia.
Qed.

(** The FULL matches of a run are justified. *)
Lemma full_matches_sound (l : list (ref DriverScheduleEntry)) (st : MatchState) :
  Forall (sound_match lookback_days) (st_full_matches st) ->
  Forall (sound_match lookback_days) (st_full_matches (fold_left step l st)).
Proof.
  revert st. induction l as [|it l IH]; intros st Hs; cbn [fold_left];
    [exact Hs|].
  apply IH.
  destruct (match_entry_cases lookback_days bank st it)
    as [[_ ->]|(a & Ha & Ht & [(_ & -> & _)|(b & Hb & -> & _)])];
    try exact Hs.
  apply list.Forall_app. split; [exact Hs|].
  constructor; [|constructor].
  destruct (find_best_match_spec lookback_days bank (matched_bank_trans st)
                                 (deref it) a)
    as [[Hn _]|(b' & sb & Hb' & _ & [_ Hsc] & Hpos & _)]; [congruence|].
  assert (b' = b) as -> by congruence.
  apply candidate_score_spec in Hsc as [Hq ->].
  exists it, b, a. repeat split; try apply Hq; auto.
  - unfold has_amount, opt_dec_truthy in Ht. now rewrite Ha in Ht.
  - lia.
Qed.

End Selection.

(** ** Which transaction a load is matched with *)

Section RunProperties.

Local Open Scope string_scope.
Local Open Scope list_scope.


(** The other side of the selection: a transaction 100 days away or more
    is never taken, whatever the lookback window.  When every transaction
    that is not consumed and qualifies for the load is that far (and so when
    none qualifies), the load is listed as a missing bank transaction and no
    FULL match holds it. *)
Theorem far_candidates_never_selected (now : Z) (data : ReconciliationData)
    (lookback_days : Z) (n : nat) (e : DriverScheduleEntry) (a : Decimal) :
  let data' := fst (reconcile now data lookback_days) in
  let report := snd (reconcile now data lookback_days) in
  let bank := bank_transactions data' in
  let st := state_before lookback_days bank (driver_schedules data') n in
  driver_schedules data' !! n = Some e ->
  amount e = Some a -> dec_truthy a = true ->
  (forall c, c ∈ enumerate bank ->
             slot c ∉ matched_bank_trans st ->
             qualifies lookback_days e a (deref c) ->
             100 <= day_diff e (deref c)) ->
  Ref n e ∈ missing_bank_transactions report
  /\ full_matches_of_entry n report = 0%nat.
Proof.
  cbn zeta. unfold full_matches_of_entry.
  cbn [reconcile fst snd bank_transactions driver_schedules full_matches
       missing_bank_transactions].
  set (bank := sort_by transaction_date (bank_transactions data)).
  set (schedules := sort_by date (driver_schedules data)).
  intros Hn Ha Ht Hfar.
  pose proof (entry_outcome lookback_days bank schedules n e a Hn Ha Ht) as Ho.
  pose proof (entry_occurrences lookback_days bank schedules n e Hn) as Hocc.
  cbn zeta in Ho, Hocc.
  set (st := state_before lookback_days bank schedules n) in *.
  destruct (find_best_match_spec lookback_days bank (matched_bank_trans st) e a)
    as [[Hnone _]|(b & sb & _ & Hin & [Hbfree Hsc] & Hpos & _)].
  - rewrite Hnone in Ho. split; [exact Ho|].
    rewrite (count_held_occ driver_entry).
    change (omap driver_entry ?F) with (entries_of F).
    apply occ_elem_of in Ho. cbn [slot] in Ho.
    rewrite Ha in Hocc. cbn [opt_dec_truthy] in Hocc. rewrite Ht in Hocc. lia.
  - exfalso. apply candidate_score_spec in Hsc as [Hbq ->].
    specialize (Hfar b Hin Hbfree Hbq). lia.
Qed.

(** Every FULL match of a report is justified: it pairs a load whose amount
    is neither null nor zero with a transaction of the same normalized name,
    an amount less than one cent apart, a day difference within the lookback
    window and below 100. *)
Theorem full_matches_are_justified (now : Z) (data : ReconciliationData)
    (lookback_days : Z) :
  Forall (sound_match lookback_days)
         (full_matches (snd (reconcile now data lookback_days))).
Proof.
  cbn [reconcile snd full_matches]. unfold match_schedules.
  apply full_matches_sound. constructor.
Qed.


Lemma far_candidates_never_selected_witness :
  let e := load_on 1 "Tony" (Some (cents 30000)) in
  Ref 0 e ∈ missing_bank_transactions (snd (reconcile 0 far_data 120))
  /\ full_matches_of_entry 0 (snd (reconcile 0 far_data 120)) = 0%nat.
Proof.
  cbn zeta.
  apply (far_candidates_never_selected 0 far_data 120 0
           (load_on 1 "Tony" (Some (cents 30000))) (cents 30000)).
  - reflexivity.
  - reflexivity.
  - vm_compute. reflexivity.
  - intros c Hc _ _. apply list_elem_of_singleton in Hc. subst c.
    vm_compute. discriminate.
Defined.

End RunProperties.

(** ** The totals and the date range of a report *)

Section Totals.

Local Open Scope string_scope.
Local Open Scope list_scope.

Lemma map_deref_enumerate {A B : Type} (f : A -> B) (l : list A) (k : nat) :
  map (fun it => f (deref it)) (enumerate_from k l) = map f l.
Proof.
  revert k. induction l as [|x l IH]; intros k; cbn; [reflexivity|].
  now rewrite IH.
Qed.

Lemma enumerate_NoDup {A : Type} (l : list A) : NoDup (enumerate l).
Proof.
  apply (NoDup_fmap_1 slot). unfold enumerate.
  change (NoDup (map slot (enumerate_from 0 l))).
  rewrite enumerate_from_slots. apply NoDup_seq.
Qed.

Lemma enumerate_same_slot {A : Type} (l : list A) (x y : ref A) :
  x ∈ enumerate l -> y ∈ enumerate l -> slot x = slot y -> x = y.
Proof.
  intros Hx%elem_of_enumerate Hy%elem_of_enumerate Hs.
  destruct x as [sx dx], y as [sy dy]. cbn in *. subst sy. congruence.
Qed.

(** The transactions of the FULL matches and the orphans are the
    transactions of the bank list, each once. *)
Lemma bank_partition (lookback_days : Z) (bank : list BankTransaction)
    (schedules : list DriverScheduleEntry) :
  let st := match_schedules lookback_days bank schedules in
  banks_of (st_full_matches st)
  ++ find_orphan_bank_transactions bank (matched_bank_trans st)
  ≡ₚ enumerate bank.
Proof.
  cbn zeta.
  destruct (match_schedules_facts lookback_days bank schedules)
    as ((Hset & Hnd & Hall) & _).
  set (st := match_schedules lookback_days bank schedules) in *.
  unfold find_orphan_bank_transactions.
  transitivity
    (filter (fun it => slot it ∈ matched_bank_trans st) (enumerate bank)
     ++ filter (fun it => slot it ∉ matched_bank_trans st) (enumerate bank));
    [|apply (filter_app_complement
               (fun it => slot it ∈ matched_bank_trans st))].
  apply Permutation_app_tail.
  assert (Hin : forall x, x ∈ banks_of (st_full_matches st) ->
                          x ∈ enumerate bank).
  { intros x (m & Hm & Hx)%list_elem_of_omap.
    pose proof (proj1 (list.Forall_forall _ _) Hall m Hm) as (e & b & -> & Hb).
    cbn in Hx. congruence. }
  apply NoDup_Permutation.
  - exact (NoDup_fmap_1 slot _ Hnd).
  - apply list.NoDup_filter, enumerate_NoDup.
  - intros x. rewrite list_elem_of_filter, Hset, elem_of_list_to_set. split.
    + intros Hx. split; [now apply list_elem_of_fmap_2|auto].
    + intros [(y & Hs & Hy)%list_elem_of_fmap Hx].
      now rewrite (enumerate_same_slot bank x y Hx (Hin y Hy) Hs).
Qed.

(** Every amount paid out is accounted for: the total paid to drivers is
    the total of the transactions held by FULL matches plus the total of the
    orphan transactions, when no addition is rounded, that is when the
    amounts of the bank transactions are whole cents whose absolute values
    add up to less than [10^26]. *)
Theorem paid_total_is_matched_plus_orphans (now : Z)
    (data : ReconciliationData) (lookback_days : Z) :
  let report := snd (reconcile now data lookback_days) in
  rounding_free (map bt_amount (bank_transactions data)) ->
  total_paid_to_drivers report
  = (bank_total (banks_of (full_matches report))
     + bank_total (orphan_bank_transactions report))%Qc.
Proof.
  cbn zeta. cbn [reconcile snd total_paid_to_drivers full_matches
                 orphan_bank_transactions].
  intros Hfree.
  set (bank := sort_by transaction_date (bank_transactions data)).
  set (schedules := sort_by date (driver_schedules data)).
  assert (Hbank : rounding_free (map bt_amount bank)).
  { eapply rounding_free_perm; [|exact Hfree].
    apply Permutation_map. symmetry. apply sort_by_perm. }
  pose proof (bank_partition lookback_days bank schedules) as Hp.
  cbn zeta in Hp. unfold bank_total.
  rewrite dec_sum_exact by exact Hbank.
  rewrite <- exact_sum_app, <- map_app.
  rewrite (exact_sum_perm _ _ (Permutation_map _ Hp)).
  unfold enumerate. now rewrite map_deref_enumerate.
Qed.

Lemma paid_total_is_matched_plus_orphans_witness :
  let report := snd (reconcile 0 mixed_data 90) in
  total_paid_to_drivers report
  = (bank_total (banks_of (full_matches report))
     + bank_total (orphan_bank_transactions report))%Qc.
Proof.
  apply (paid_total_is_matched_plus_orphans 0 mixed_data 90).
  split; [|vm_compute; reflexivity].
  repeat constructor; apply Qc_is_canon; vm_compute; reflexivity.
Defined.

(** Every scheduled amount is accounted for: the total scheduled amount is
    the total of the loads held by FULL matches plus the total of the loads
    listed as missing bank transactions, when no addition is rounded, that
    is when the amounts of the loads are whole cents whose absolute values
    add up to less than [10^26]. *)
Theorem scheduled_total_is_paid_plus_missing (now : Z)
    (data : ReconciliationData) (lookback_days : Z) :
  let report := snd (reconcile now data lookback_days) in
  rounding_free (truthy_amounts (driver_schedules data)) ->
  total_scheduled_amount report
  = (total (deref <$> entries_of (full_matches report))
     + total (deref <$> missing_bank_transactions report))%Qc.
Proof.
  cbn zeta. cbn [reconcile snd total_scheduled_amount full_matches
                 missing_bank_transactions].
  intros Hfree.
  set (bank := sort_by transaction_date (bank_transactions data)).
  set (schedules := sort_by date (driver_schedules data)).
  assert (Hsched : rounding_free (truthy_amounts schedules)).
  { eapply rounding_free_perm; [|exact Hfree].
    apply truthy_amounts_perm. symmetry. apply sort_by_perm. }
  destruct (match_schedules_facts lookback_days bank schedules) as (_ & Hperm).
  apply (fmap_Permutation deref) in Hperm.
  rewrite fmap_app in Hperm. unfold enumerate in Hperm.
  rewrite deref_filter_has_amount in Hperm.
  rewrite fold_add_if_truthy.
  change (fold_left dec_add (truthy_amounts schedules) 0%Qc)
    with (dec_sum (truthy_amounts schedules)).
  rewrite dec_sum_exact by exact Hsched.
  rewrite exact_sum_truthy_amounts, <- total_app, (total_perm _ _ Hperm).
  now rewrite total_filter_amount.
Qed.

Lemma scheduled_total_is_paid_plus_missing_witness :
  let report := snd (reconcile 0 mixed_data 90) in
  total_scheduled_amount report
  = (total (deref <$> entries_of (full_matches report))
     + total (deref <$> missing_bank_transactions report))%Qc.
Proof.
  apply (scheduled_total_is_paid_plus_missing 0 mixed_data 90).
  split; [|vm_compute; reflexivity].
  repeat constructor; apply Qc_is_canon; vm_compute; reflexivity.
Defined.

Lemma fold_min_spec (l : list Z) (x : Z) :
  let m := fold_left Z.min l x in
  (m = x \/ m ∈ l) /\ m <= x /\ forall y, y ∈ l -> m <= y.
Proof.
  revert x. induction l as [|y l IH]; intros x; cbn [fold_left].
  - split; [now left|]. split; [lia|]. intros y H. inversion H.
  - destruct (IH (Z.min x y)) as ([Hm|Hm] & Hle & Hall); cbn zeta in *.
    + split; [|split; [lia|]].
      * rewrite Hm. destruct (Z.min_spec x y) as [[_ ->]|[_ ->]];
          [now left|right; apply elem_of_cons; now left].
      * intros z [->|Hz]%elem_of_cons; [lia|auto].
    + split; [right; apply elem_of_cons; now right|]. split; [lia|].
      intros z [->|Hz]%elem_of_cons; [lia|auto].
Qed.

Lemma fold_max_spec (l : list Z) (x : Z) :
  let m := fold_left Z.max l x in
  (m = x \/ m ∈ l) /\ x <= m /\ forall y, y ∈ l -> y <= m.
Proof.
  revert x. induction l as [|y l IH]; intros x; cbn [fold_left].
  - split; [now left|]. split; [lia|]. intros y H. inversion H.
  - destruct (IH (Z.max x y)) as ([Hm|Hm] & Hle & Hall); cbn zeta in *.
    + split; [|split; [lia|]].
      * rewrite Hm. destruct (Z.max_spec x y) as [[_ ->]|[_ ->]];
          [right; apply elem_of_cons; now left|now left].
      * intros z [->|Hz]%elem_of_cons; [lia|auto].
    + split; [right; apply elem_of_cons; now right|]. split; [lia|].
      intros z [->|Hz]%elem_of_cons; [lia|auto].
Qed.

Lemma all_dates_perm (now : Z) (data : ReconciliationData) (lookback_days : Z) :
  all_dates (fst (reconcile now data lookback_days)) ≡ₚ all_dates data.
Proof.
  unfold all_dates. cbn [reconcile fst payment_remittances bank_transactions
                         driver_schedules].
  repeat apply Permutation_app; apply Permutation_map, sort_by_perm.
Qed.

(** The date range of a report spans the records of the input: its two
    ends are dates of records, and every payment, bank transaction and load
    is dated between them.  There is no range exactly when there is no
    record. *)
Theorem date_range_spans_records (now : Z) (data : ReconciliationData)
    (lookback_days : Z) :
  let report := snd (reconcile now data lookback_days) in
  match date_range_start report, date_range_end report with
  | Some lo, Some hi =>
      lo ∈ all_dates data /\ hi ∈ all_dates data
      /\ forall d, d ∈ all_dates data -> lo <= d <= hi
  | None, None => all_dates data = []
  | _, _ => False
  end.
Proof.
  cbn zeta. pose proof (all_dates_perm now data lookback_days) as Hp.
  cbn [reconcile snd date_range_start date_range_end].
  unfold all_dates in Hp at 1.
  cbn [reconcile fst payment_remittances bank_transactions driver_schedules]
    in Hp.
  set (l := map payment_date _ ++ map transaction_date _ ++ map date _) in *.
  destruct l as [|x l]; cbn [list_min list_max].
  - symmetry. now apply Permutation_nil_l in Hp.
  - destruct (fold_min_spec l x) as (Hlo & Hlox & Hloall).
    destruct (fold_max_spec l x) as (Hhi & Hhix & Hhiall).
    cbn zeta in *. split; [|split].
    + rewrite <- Hp. apply elem_of_cons. destruct Hlo as [->|H]; auto.
    + rewrite <- Hp. apply elem_of_cons. destruct Hhi as [->|H]; auto.
    + intros d Hd. rewrite <- Hp in Hd.
      apply elem_of_cons in Hd as [->|Hd]; [lia|]. split; auto.
Qed.

End Totals.

(** ** The summaries next to the other views of the data *)

Section Views.

Local Open Scope string_scope.
Local Open Scope list_scope.

Lemma summarize_fold_keys
    (count : option Decimal -> DriverSummary -> DriverSummary)
    (E : list DriverScheduleEntry) (m : gmap string DriverSummary)
    (d : string) :
  is_Some (fold_left (summarize_entry count) E m !! d)
  <-> is_Some (m !! d) \/ exists e, e ∈ E /\ driver_is d e.
Proof.
  revert m. induction E as [|e E IH]; intros m; cbn [fold_left].
  - split; [now left|]. intros [H|(e & He & _)]; [exact H|inversion He].
  - rewrite IH. unfold summarize_entry, update_summary.
    rewrite lookup_insert_is_Some'. split.
    + intros [[Hk|Hm]|(e' & He' & Hd)].
      * right. exists e. split; [apply elem_of_cons; now left|exact Hk].
      * now left.
      * right. exists e'. split; [apply elem_of_cons; now right|exact Hd].
    + intros [Hm|(e' & [->|He']%elem_of_cons & Hd)].
      * left. now right.
      * left. now left.
      * right. eauto.
Qed.

(** The drivers of the summaries are the normalized names of the loads of
    the input: a name has a summary exactly when some load normalizes to
    it. *)
Theorem driver_summaries_keys (now : Z) (data : ReconciliationData)
    (lookback_days : Z) (d : string) :
  is_Some (driver_summaries (snd (reconcile now data lookback_days)) !! d)
  <-> exists e, e ∈ driver_schedules data /\ driver_is d e.
Proof.
  cbn [reconcile snd driver_summaries]. unfold _build_driver_summaries.
  set (bank := sort_by transaction_date (bank_transactions data)).
  set (schedules := sort_by date (driver_schedules data)).
  destruct (match_schedules_facts lookback_days bank schedules) as (_ & Hperm).
  set (st := match_schedules lookback_days bank schedules) in *.
  rewrite summarize_missing_fold, summarize_match_fold.
  rewrite !summarize_fold_keys, lookup_empty.
  assert (Hsub : forall e, e ∈ (deref <$> entries_of (st_full_matches st))
                               ++ (deref <$> st_missing_bank_transactions st)
                           -> e ∈ schedules).
  { intros e He. rewrite <- fmap_app, Hperm in He.
    apply list_elem_of_fmap in He as (it & -> & [_ Hit]%list_elem_of_filter).
    apply elem_of_enumerate in Hit. apply list_elem_of_lookup. eauto. }
  assert (Hs : forall e, e ∈ schedules <-> e ∈ driver_schedules data).
  { intros e. unfold schedules. now rewrite sort_by_perm. }
  split.
  - intros [[[[? H]|(e & He & Hd)]|(e & He & Hd)]|(e & He & Hd)];
      [discriminate H|exists e..]; (split; [|exact Hd]); apply Hs; auto.
    + apply Hsub, elem_of_app. now left.
    + apply Hsub, elem_of_app. now right.
  - intros (e & He & Hd). left. left. right. exists e.
    split; [now apply Hs|exact Hd].
Qed.

Lemma driver_summaries_keys_witness :
  is_Some (driver_summaries (snd (reconcile 0 mixed_data 90)) !! "Rich").
Proof.
  apply (driver_summaries_keys 0 mixed_data 90 "Rich").
  exists (load_on 1 "BIGRICH" (Some (cents 50000))).
  split; [apply elem_of_cons; now left|reflexivity].
Defined.

(** The three totals of the report are the three totals that
    [get_summary] gives for the data as the run leaves it, and the counts of
    [get_summary] are not changed by the run.  When no addition is rounded,
    that is when in each collection the amounts are whole cents whose
    absolute values add up to less than [10^26], the sort of the run does
    not change the totals either: [get_summary] is the same before and after
    the run. *)
Theorem report_totals_agree_with_summary (now : Z) (data : ReconciliationData)
    (lookback_days : Z) :
  let data' := fst (reconcile now data lookback_days) in
  let report := snd (reconcile now data lookback_days) in
  total_remittances_received report
  = payment_remittances_total (get_summary data')
  /\ total_paid_to_drivers report = bank_transactions_total (get_summary data')
  /\ total_scheduled_amount report = driver_schedule_total (get_summary data')
  /\ payment_remittances_count (get_summary data')
     = payment_remittances_count (get_summary data)
  /\ bank_transactions_count (get_summary data')
     = bank_transactions_count (get_summary data)
  /\ driver_schedule_entries (get_summary data')
     = driver_schedule_entries (get_summary data)
  /\ (rounding_free (map payment_amount (payment_remittances data)) ->
      rounding_free (map bt_amount (bank_transactions data)) ->
      rounding_free (truthy_amounts (driver_schedules data)) ->
      get_summary data' = get_summary data).
Proof.
  cbn zeta.
  cbn [reconcile fst snd total_remittances_received total_paid_to_drivers
       total_scheduled_amount].
  unfold get_summary.
  cbn [payment_remittances bank_transactions driver_schedules
       payment_remittances_total bank_transactions_total driver_schedule_total
       payment_remittances_count bank_transactions_count
       driver_schedule_entries].
  split; [reflexivity|]. split; [reflexivity|].
  split; [now rewrite fold_add_if_truthy|].
  split; [apply Permutation_length, sort_by_perm|].
  split; [apply Permutation_length, sort_by_perm|].
  split; [apply Permutation_length, sort_by_perm|].
  intros Hp Hb Hs.
  rewrite !(Permutation_length (sort_by_perm _ _)).
  rewrite (dec_sum_perm (map payment_amount (payment_remittances data))
             (map payment_amount
                  (sort_by payment_date (payment_remittances data))) Hp)
    by (apply Permutation_map; symmetry; apply sort_by_perm).
  rewrite (dec_sum_perm (map bt_amount (bank_transactions data))
             (map bt_amount
                  (sort_by transaction_date (bank_transactions data))) Hb)
    by (apply Permutation_map; symmetry; apply sort_by_perm).
  rewrite (dec_sum_perm (truthy_amounts (driver_schedules data))
             (truthy_amounts (sort_by date (driver_schedules data))) Hs)
    by (apply truthy_amounts_perm; symmetry; apply sort_by_perm).
  reflexivity.
Qed.

(** Large amounts show why: three remittances of a half, a half and
    [10^27], dated in the reverse order, add up to [10^27 + 1] as they are
    given and to [10^27] once the run has sorted them. *)
Lemma sort_changes_rounded_total :
  let data := {| payment_remittances :=
                   [ remittance_on 3 (Decimal_of 1 2);
                     remittance_on 2 (Decimal_of 1 2);
                     remittance_on 1 (Decimal_of (10 ^ 27) 1) ];
                 bank_transactions := [];
                 driver_schedules := [] |} in
  payment_remittances_total (get_summary data) = Decimal_of (10 ^ 27 + 1) 1
  /\ payment_remittances_total (get_summary (fst (reconcile 0 data 90)))
     = Decimal_of (10 ^ 27) 1.
Proof.
  cbn zeta. split; apply Qc_is_canon; vm_compute; reflexivity.
Qed.

Lemma report_totals_agree_with_summary_witness :
  get_summary (fst (reconcile 0 mixed_data 90)) = get_summary mixed_data.
Proof.
  apply (report_totals_agree_with_summary 0 mixed_data 90);
    (split; [|vm_compute; reflexivity]);
    repeat constructor; apply Qc_is_canon; vm_compute; reflexivity.
Defined.

(** Adding records adds to the figures of [get_summary]: the count grows by
    the number of records added and, when no addition is rounded (the
    amounts of the collection, with the records added, are whole cents whose
    absolute values add up to less than [10^26]), the total by the sum of
    their amounts (for loads, of the amounts that are neither null nor
    zero); the figures of the other two collections stay. *)
Theorem summary_after_add (data : ReconciliationData)
    (payments : list PaymentRemittance) (transactions : list BankTransaction)
    (schedules : list DriverScheduleEntry) :
  let s := get_summary data in
  (rounding_free (map payment_amount (payment_remittances data ++ payments)) ->
   get_summary (add_payment_remittances data payments)
   = {| payment_remittances_count :=
          (payment_remittances_count s + length payments)%nat;
        payment_remittances_total :=
          (payment_remittances_total s
           + exact_sum (map payment_amount payments))%Qc;
        bank_transactions_count := bank_transactions_count s;
        bank_transactions_total := bank_transactions_total s;
        driver_schedule_entries := driver_schedule_entries s;
        driver_schedule_total := driver_schedule_total s |})
  /\ (rounding_free (map bt_amount (bank_transactions data ++ transactions)) ->
      get_summary (add_bank_transactions data transactions)
      = {| payment_remittances_count := payment_remittances_count s;
           payment_remittances_total := payment_remittances_total s;
           bank_transactions_count :=
             (bank_transactions_count s + length transactions)%nat;
           bank_transactions_total :=
             (bank_transactions_total s
              + exact_sum (map bt_amount transactions))%Qc;
           driver_schedule_entries := driver_schedule_entries s;
           driver_schedule_total := driver_schedule_total s |})
  /\ (rounding_free (truthy_amounts (driver_schedules data ++ schedules)) ->
      get_summary (add_driver_schedules data schedules)
      = {| payment_remittances_count := payment_remittances_count s;
           payment_remittances_total := payment_remittances_total s;
           bank_transactions_count := bank_transactions_count s;
           bank_transactions_total := bank_transactions_total s;
           driver_schedule_entries :=
             (driver_schedule_entries s + length schedules)%nat;
           driver_schedule_total :=
             (driver_schedule_total s
              + exact_sum (truthy_amounts schedules))%Qc |}).
Proof.
  cbn zeta. unfold get_summary, add_payment_remittances, add_bank_transactions,
    add_driver_schedules.
  cbn [payment_remittances bank_transactions driver_schedules
       payment_remittances_count payment_remittances_total
       bank_transactions_count bank_transactions_total
       driver_schedule_entries driver_schedule_total].
  split; [|split]; intros H.
  - rewrite map_app in H |- *. now rewrite dec_sum_app, length_app by exact H.
  - rewrite map_app in H |- *. now rewrite dec_sum_app, length_app by exact H.
  - rewrite truthy_amounts_app in H |- *.
    now rewrite dec_sum_app, length_app by exact H.
Qed.

Lemma summary_after_add_witness :
  payment_remittances_total
    (get_summary (add_payment_remittances mixed_data
                    [remittance_on 41 (cents 2500)]))
  = (payment_remittances_total (get_summary mixed_data) + cents 2500)%Qc.
Proof.
  assert (Hfree : rounding_free
                    (map payment_amount
                         (payment_remittances mixed_data
                          ++ [remittance_on 41 (cents 2500)]))).
  { split; [|vm_compute; reflexivity].
    repeat constructor; apply Qc_is_canon; vm_compute; reflexivity. }
  pose proof (proj1 (summary_after_add mixed_data
                       [remittance_on 41 (cents 2500)] [] []) Hfree) as H.
  cbn zeta in H. rewrite H.
  cbn [payment_remittances_total map exact_sum foldr payment_amount
       remittance_on]. ring.
Defined.

Lemma normalize_twice (name : string) :
  normalize_driver_name (normalize_driver_name name)
  = normalize_driver_name name.
Proof.
  unfold normalize_driver_name at 2 3.
  destruct (first_alias _ _) as [v|] eqn:E.
  - apply normalize_alias_values. eapply first_alias_value, E.
  - unfold normalize_driver_name. now rewrite E.
Qed.

(** [get_driver_detail] reads the name it is given through the normalizer
    only: two names with the same normalized form give the same detail, and
    so do an alias and the name it normalizes to. *)
Theorem driver_detail_by_any_alias (data : ReconciliationData)
    (name1 name2 : string) (start_date end_date : option Z) :
  (normalize_driver_name name1 = normalize_driver_name name2 ->
   get_driver_detail data name1 start_date end_date
   = get_driver_detail data name2 start_date end_date)
  /\ get_driver_detail data (normalize_driver_name name1) start_date end_date
     = get_driver_detail data name1 start_date end_date.
Proof.
  split.
  - intros H. unfold get_driver_detail. now rewrite H.
  - unfold get_driver_detail. now rewrite normalize_twice.
Qed.

Lemma driver_detail_by_any_alias_witness :
  get_driver_detail mixed_data "BIG RICH" None None
  = get_driver_detail mixed_data "big-rich" None None.
Proof.
  apply (proj1 (driver_detail_by_any_alias mixed_data "BIG RICH" "big-rich"
                                           None None)).
  reflexivity.
Defined.

Lemma filter_driver_eqb (d : string) (E : list DriverScheduleEntry) :
  List.filter (fun s => String.eqb (normalize_driver_name (driver s)) d) E
  = filter (driver_is d) E.
Proof.
  induction E as [|e E IH]; [reflexivity|]. cbn [List.filter].
  destruct (String.eqb_spec (normalize_driver_name (driver e)) d) as [H|H].
  - rewrite filter_cons_True by exact H. now rewrite IH.
  - rewrite filter_cons_False by exact H. exact IH.
Qed.

(** The detail of a driver taken after a run, without date bounds, agrees
    with the summary of that driver in the report: the same number of
    scheduled loads and the same scheduled amount.  A name without a summary
    has no load. *)
Theorem driver_detail_agrees_with_summary (now : Z) (data : ReconciliationData)
    (lookback_days : Z) (name : string) :
  let data' := fst (reconcile now data lookback_days) in
  let report := snd (reconcile now data lookback_days) in
  let detail := get_driver_detail data' name None None in
  match driver_summaries report !! normalize_driver_name name with
  | Some s =>
      Z.of_nat (schedule_count detail) = scheduled_loads s
      /\ total_scheduled detail = scheduled_amount s
  | None => dd_schedules detail = []
  end.
Proof.
  cbn zeta. unfold get_driver_detail.
  cbn [from_date to_date schedule_count total_scheduled dd_schedules].
  rewrite filter_driver_eqb.
  set (d := normalize_driver_name name).
  destruct (driver_summaries _ !! d) as [s|] eqn:Hs.
  - cbn [reconcile snd fst driver_summaries driver_schedules] in Hs |- *.
    set (schedules := sort_by date (driver_schedules data)) in *.
    set (st := match_schedules _ _ schedules) in *.
    pose proof (driver_summary_fields schedules (st_full_matches st)
                  (st_missing_bank_transactions st) d) as Hf.
    cbn zeta in Hf. rewrite Hs in Hf. cbn [default from_option id] in Hf.
    destruct Hf as (Hsl & Hsa & _). now rewrite Hsl, Hsa.
  - cbn [reconcile snd fst driver_summaries driver_schedules] in Hs |- *.
    set (schedules := sort_by date (driver_schedules data)) in *.
    unfold _build_driver_summaries in Hs.
    rewrite summarize_missing_fold, summarize_match_fold in Hs.
    destruct (filter (driver_is d) schedules) as [|e l] eqn:Hl; [reflexivity|].
    exfalso.
    assert (He : e ∈ filter (driver_is d) schedules).
    { rewrite Hl. apply elem_of_cons. now left. }
    apply list_elem_of_filter in He as [Hd He].
    eapply is_Some_None. rewrite <- Hs.
    rewrite !summarize_fold_keys. left. left. right. eauto.
Qed.

(** [find_transactions_by_date_range] returns nothing, and raises nothing,
    for a range whose end is before its start and for a transaction type it
    does not know; every record it returns is a record of the data dated
    within the range; and the type "all" returns what the three single types
    return. *)
Theorem date_range_search (data : ReconciliationData) (start_date end_date : Z)
    (transaction_type : string) :
  let r := find_transactions_by_date_range data start_date end_date
                                           transaction_type in
  (end_date < start_date ->
   fr_payment_remittances r = [] /\ fr_bank_transactions r = []
   /\ fr_driver_schedules r = [])
  /\ (~ transaction_type ∈ ["all"; "remittances"; "bank"; "schedules"] ->
      fr_payment_remittances r = [] /\ fr_bank_transactions r = []
      /\ fr_driver_schedules r = [])
  /\ (forall p, In p (fr_payment_remittances r) ->
                In p (payment_remittances data)
                /\ start_date <= payment_date p <= end_date)
  /\ (forall t, In t (fr_bank_transactions r) ->
                In t (bank_transactions data)
                /\ start_date <= transaction_date t <= end_date)
  /\ (forall s, In s (fr_driver_schedules r) ->
                In s (driver_schedules data)
                /\ start_date <= date s <= end_date)
  /\ (transaction_type = "all" ->
      fr_payment_remittances r
      = fr_payment_remittances
          (find_transactions_by_date_range data start_date end_date
                                           "remittances")
      /\ fr_bank_transactions r
         = fr_bank_transactions
             (find_transactions_by_date_range data start_date end_date "bank")
      /\ fr_driver_schedules r
         = fr_driver_schedules
             (find_transactions_by_date_range data start_date end_date
                                              "schedules")).
Proof.
  cbn zeta. unfold find_transactions_by_date_range.
  cbn [fr_payment_remittances fr_bank_transactions fr_driver_schedules].
  assert (Hempty : forall (A : Type) (key : A -> Z) (l : list A),
             end_date < start_date ->
             List.filter (in_range key start_date end_date) l = []).
  { intros A key l Hlt. induction l as [|x l IH]; [reflexivity|].
    cbn [List.filter]. rewrite IH. unfold in_range.
    destruct (Z.leb_spec start_date (key x)), (Z.leb_spec (key x) end_date);
      cbn; try reflexivity. lia. }
  assert (Hin : forall (A : Type) (key : A -> Z) (l : list A) (b : bool) x,
             In x (if b then List.filter (in_range key start_date end_date) l
                   else []) ->
             In x l /\ start_date <= key x <= end_date).
  { intros A key l [|] x Hx; [|destruct Hx].
    apply List.filter_In in Hx as [Hx Hr]. split; [exact Hx|].
    unfold in_range in Hr. apply andb_true_iff in Hr as [H1 H2].
    apply Z.leb_le in H1, H2. lia. }
  split; [|split; [|split; [|split; [|split]]]].
  - intros Hlt. rewrite !Hempty by exact Hlt. repeat split; now destruct (type_selects _ _).
  - intros Hty. unfold type_selects.
    assert (Hall : String.eqb transaction_type "all" = false).
    { apply String.eqb_neq. intros ->. apply Hty. set_solver. }
    assert (Hrem : String.eqb transaction_type "remittances" = false).
    { apply String.eqb_neq. intros ->. apply Hty. set_solver. }
    assert (Hbank : String.eqb transaction_type "bank" = false).
    { apply String.eqb_neq. intros ->. apply Hty. set_solver. }
    assert (Hsch : String.eqb transaction_type "schedules" = false).
    { apply String.eqb_neq. intros ->. apply Hty. set_solver. }
    rewrite Hall, Hrem, Hbank, Hsch. cbn. auto.
  - intros p. apply Hin.
  - intros t. apply Hin.
  - intros s. apply Hin.
  - intros ->. cbn. auto.
Qed.

Lemma date_range_search_witness :
  fr_bank_transactions
    (find_transactions_by_date_range mixed_data (30 * day) (10 * day) "bank")
  = [].
Proof.
  apply (proj1 (date_range_search mixed_data (30 * day) (10 * day) "bank")).
  vm_compute. reflexivity.
Defined.

End Views.

(** ** The load-reference matcher: the lookup by reference *)

Section ReferenceLookup.

Local Open Scope string_scope.
Local Open Scope list_scope.

Lemma dict_get_set {V : Type} (k k' : string) (v : V) (d : list (string * V)) :
  dict_get k (dict_set k' v d)
  = if String.eqb k' k then Some v else dict_get k d.
Proof.
  induction d as [|[k0 v0] d IH]; cbn [dict_set dict_get].
  - destruct (String.eqb k' k); reflexivity.
  - destruct (String.eqb_spec k0 k') as [->|Hne]; cbn [dict_get].
    + destruct (String.eqb k' k); reflexivity.
    + rewrite IH. destruct (String.eqb_spec k0 k) as [->|Hk]; [|reflexivity].
      destruct (String.eqb_spec k' k) as [->|_]; [contradiction|reflexivity].
Qed.

Lemma dict_get_Some {V : Type} (k : string) (v : V) (d : list (string * V)) :
  dict_get k d = Some v -> (k, v) ∈ d.
Proof.
  induction d as [|[k0 v0] d IH]; cbn [dict_get]; [discriminate|].
  destruct (String.eqb_spec k0 k) as [->|Hne].
  - intros [= ->]. apply elem_of_cons. now left.
  - intros H. apply elem_of_cons. right. auto.
Qed.

Lemma dict_set_keys {V : Type} (k : string) (v : V) (d : list (string * V)) :
  d.*1 ⊆ (dict_set k v d).*1
  /\ (forall k', k' ∈ (dict_set k v d).*1 -> k' = k \/ k' ∈ d.*1)
  /\ (NoDup d.*1 -> NoDup (dict_set k v d).*1).
Proof.
  induction d as [|[k0 v0] d (IH1 & IH2 & IH3)]; cbn [dict_set].
  - split; [set_solver|]. split; [set_solver|]. intros _. cbn.
    apply NoDup_singleton.
  - destruct (String.eqb_spec k0 k) as [->|Hne]; cbn [fmap list_fmap fst].
    + split; [set_solver|]. split; [set_solver|]. auto.
    + split; [set_solver|]. split.
      * intros k' [->|H]%elem_of_cons; [set_solver|].
        destruct (IH2 k' H); set_solver.
      * intros [Hk Hd]%list.NoDup_cons. apply list.NoDup_cons. split; [|auto].
        intros H. destruct (IH2 k0 H); [congruence|contradiction].
Qed.

Lemma dict_get_elem {V : Type} (k : string) (v : V) (d : list (string * V)) :
  NoDup d.*1 -> (k, v) ∈ d -> dict_get k d = Some v.
Proof.
  induction d as [|[k0 v0] d IH]; [intros _ H; inversion H|].
  cbn [fmap list_fmap fst dict_get]. intros [Hk Hd]%list.NoDup_cons Hin.
  apply elem_of_cons in Hin as [[= -> ->]|Hin].
  - now rewrite String.eqb_refl.
  - destruct (String.eqb_spec k0 k) as [->|Hne]; [|auto].
    exfalso. apply Hk. apply list_elem_of_fmap. exists (k, v). auto.
Qed.

(** What one deposit does to the lookup. *)
Lemma add_by_ref_get (r : string) (d : list (string * ref Deposit))
    (x : ref Deposit) :
  r <> "" ->
  dict_get r (add_by_ref d x) = if decide (has_ref r x) then Some x
                                else dict_get r d.
Proof.
  intros Hr. unfold add_by_ref.
  destruct (decide (has_ref r x)) as [H|H]; unfold has_ref in H;
    destruct (load_ref (deref x)) as [[|c r0]|]; cbn [opt_str_truthy];
    try reflexivity; try congruence;
    rewrite dict_get_set;
    destruct (String.eqb_spec (String c r0) r) as [Heq|Hne];
    try reflexivity; congruence.
Qed.

Lemma add_by_ref_keys (d : list (string * ref Deposit)) (x : ref Deposit) :
  (NoDup d.*1 -> NoDup (add_by_ref d x).*1)
  /\ ((forall k, k ∈ d.*1 -> k <> "") ->
      forall k, k ∈ (add_by_ref d x).*1 -> k <> "").
Proof.
  unfold add_by_ref. destruct (load_ref (deref x)) as [[|c r0]|];
    cbn [opt_str_truthy]; auto.
  destruct (dict_set_keys (String c r0) x d) as (_ & H2 & H3).
  split; [exact H3|]. intros Hd k Hk.
  destruct (H2 k Hk) as [->|Hk']; [discriminate|auto].
Qed.

(** The lookup built over [l] from [d]: for a non-empty reference, the last
    deposit of [l] that carries it, or else what [d] gave. *)
Lemma fold_by_ref_get (r : string) (l : list (ref Deposit))
    (d : list (string * ref Deposit)) :
  r <> "" ->
  dict_get r (fold_left add_by_ref l d)
  = match list.last (filter (has_ref r) l) with
    | Some it => Some it
    | None => dict_get r d
    end.
Proof.
  intros Hr. induction l as [|x l IH] using rev_ind; [reflexivity|].
  rewrite fold_left_app. cbn [fold_left].
  rewrite add_by_ref_get by exact Hr.
  rewrite list.filter_app, last_app, filter_cons, filter_nil.
  destruct (decide (has_ref r x)); [reflexivity|exact IH].
Qed.

Lemma fold_by_ref_keys (l : list (ref Deposit)) :
  NoDup (fold_left add_by_ref l []).*1
  /\ forall k, k ∈ (fold_left add_by_ref l []).*1 -> k <> "".
Proof.
  induction l as [|x l [IH1 IH2]] using rev_ind.
  - cbn. split; [constructor|]. intros k H. inversion H.
  - rewrite fold_left_app. cbn [fold_left].
    destruct (add_by_ref_keys (fold_left add_by_ref l []) x) as [H1 H2].
    split; auto.
Qed.

Lemma enumerate_from_same_slot {A : Type} (l : list A) (k : nat) (x y : ref A) :
  x ∈ enumerate_from k l -> y ∈ enumerate_from k l -> slot x = slot y -> x = y.
Proof.
  intros [_ Hx]%elem_of_enumerate_from [_ Hy]%elem_of_enumerate_from Hs.
  destruct x as [sx dx], y as [sy dy]. cbn in *. subst sy. congruence.
Qed.

(** The last enumerated item that passes a test is the one of the highest
    slot. *)
Lemma last_filter_enumerate {A : Type} (P : ref A -> Prop)
    `{!forall x, Decision (P x)} (l : list A) (it : ref A) :
  list.last (filter P (enumerate l)) = Some it
  <-> it ∈ enumerate l /\ P it
      /\ forall it', it' ∈ enumerate l -> P it' -> (slot it' <= slot it)%nat.
Proof.
  assert (Hfwd : forall k it,
             list.last (filter P (enumerate_from k l)) = Some it ->
             it ∈ enumerate_from k l /\ P it
             /\ forall it', it' ∈ enumerate_from k l -> P it' ->
                            (slot it' <= slot it)%nat).
  { clear it. induction l as [|x l IH]; intros k it; cbn [enumerate_from].
    - rewrite filter_nil. discriminate.
    - rewrite filter_cons.
      assert (Htail : forall y, list.last (filter P (enumerate_from (S k) l)) = Some y ->
                (y ∈ Ref k x :: enumerate_from (S k) l /\ P y
                 /\ forall it', it' ∈ Ref k x :: enumerate_from (S k) l ->
                                P it' -> (slot it' <= slot y)%nat)).
      { intros y Hy. destruct (IH _ _ Hy) as (Hin & HP & Hmax).
        split; [apply elem_of_cons; now right|]. split; [exact HP|].
        intros it' [->|Hit']%elem_of_cons HP'; [|auto].
        apply elem_of_enumerate_from in Hin as [Hle _]. cbn. lia. }
      destruct (decide (P (Ref k x))) as [HPx|HPx].
      + rewrite last_cons.
        destruct (list.last (filter P (enumerate_from (S k) l))) as [y|] eqn:Hl.
        * intros [= <-]. now apply Htail.
        * intros [= <-]. apply last_None in Hl.
          split; [apply elem_of_cons; now left|]. split; [exact HPx|].
          intros it' [->|Hit']%elem_of_cons HP'; [reflexivity|].
          assert (Hf : it' ∈ filter P (enumerate_from (S k) l))
            by (apply list_elem_of_filter; auto).
          rewrite Hl in Hf. inversion Hf.
      + intros Hy. destruct (Htail _ Hy) as (Hin & HP & Hmax). auto. }
  split; [apply Hfwd|]. intros (Hin & HP & Hmax).
  destruct (list.last (filter P (enumerate l))) as [y|] eqn:Hl.
  - destruct (Hfwd 0%nat y Hl) as (Hiny & HPy & Hmaxy). f_equal.
    apply (enumerate_from_same_slot l 0); auto.
    specialize (Hmax y Hiny HPy). specialize (Hmaxy it Hin HP). lia.
  - apply last_None in Hl.
    assert (Hf : it ∈ filter P (enumerate l))
      by (apply list_elem_of_filter; auto).
    rewrite Hl in Hf. inversion Hf.
Qed.

(** What the lookup finds under a reference. *)
Lemma by_ref_get_last (deposits : list Deposit) (r : string)
    (it : ref Deposit) :
  dict_get r (deposits_by_ref_of deposits) = Some it
  <-> r <> "" /\ last_with_ref deposits r it.
Proof.
  unfold deposits_by_ref_of, last_with_ref. split.
  - intros H.
    assert (Hr : r <> "").
    { apply (proj2 (fold_by_ref_keys (enumerate deposits))).
      apply dict_get_Some in H. apply list_elem_of_fmap. exists (r, it). auto. }
    split; [exact Hr|]. rewrite fold_by_ref_get in H by exact Hr.
    apply (last_filter_enumerate (has_ref r)).
    destruct (list.last (filter (has_ref r) (enumerate deposits)));
      [exact H|discriminate H].
  - intros [Hr H]. rewrite fold_by_ref_get by exact Hr.
    apply (last_filter_enumerate (has_ref r)) in H. now rewrite H.
Qed.

Lemma by_ref_items (deposits : list Deposit) (k : string) (it : ref Deposit) :
  (k, it) ∈ deposits_by_ref_of deposits ->
  k <> "" /\ last_with_ref deposits k it.
Proof.
  intros H. apply by_ref_get_last, dict_get_elem; [|exact H].
  apply (fold_by_ref_keys (enumerate deposits)).
Qed.

(** When several deposits carry the same reference, the lookup keeps the
    last of them.  A reference is found exactly when it is not empty and
    some deposit carries it, and what is found is the last deposit of the
    list with this reference; the lookup has one item for each such
    reference, which holds that last deposit. *)
Theorem lookup_keeps_last_deposit (deposits : list Deposit) :
  let by_ref := deposits_by_ref_of deposits in
  (forall r it, dict_get r by_ref = Some it
                <-> r <> "" /\ last_with_ref deposits r it)
  /\ NoDup by_ref.*1
  /\ Forall (fun item => item.1 <> "" /\ last_with_ref deposits item.1 item.2)
            by_ref
  /\ (forall it r, it ∈ enumerate deposits -> has_ref r it -> r <> "" ->
                   exists it', dict_get r by_ref = Some it'
                               /\ has_ref r it'
                               /\ (slot it <= slot it')%nat).
Proof.
  cbn zeta. split; [apply by_ref_get_last|]. split.
  { apply (fold_by_ref_keys (enumerate deposits)). }
  split.
  { apply list.Forall_forall. intros [k it] H. now apply by_ref_items. }
  intros it r Hin Href Hr.
  destruct (list.last (filter (has_ref r) (enumerate deposits))) as [it'|] eqn:Hl.
  - pose proof (proj1 (last_filter_enumerate (has_ref r) deposits it') Hl)
      as (Hin' & Href' & Hmax).
    exists it'. split; [|split; [exact Href'|auto]].
    apply by_ref_get_last. split; [exact Hr|]. split; auto.
  - apply last_None in Hl.
    assert (Hf : it ∈ filter (has_ref r) (enumerate deposits))
      by (apply list_elem_of_filter; auto).
    rewrite Hl in Hf. inversion Hf.
Qed.

End ReferenceLookup.

(** ** The load-reference matcher: the three tiers for one load *)

Section Tiers.

Local Open Scope string_scope.
Local Open Scope list_scope.

Lemma find_first {A : Type} (f : A -> bool) (l : list A) :
  match List.find f l with
  | Some x => first_such (fun y => f y = true) l x
  | None => forall y, y ∈ l -> f y <> true
  end.
Proof.
  induction l as [|a l IH]; cbn [List.find].
  - intros y H. inversion H.
  - destruct (f a) eqn:Ha.
    + exists [], l. split; [reflexivity|]. split; [exact Ha|].
      intros y H. inversion H.
    + destruct (List.find f l) as [x|].
      * destruct IH as (l1 & l2 & -> & Hx & Hl1).
        exists (a :: l1), l2. split; [reflexivity|]. split; [exact Hx|].
        intros y [->|Hy]%elem_of_cons; [congruence|auto].
      * intros y [->|Hy]%elem_of_cons; [congruence|auto].
Qed.

Lemma first_such_iff {A : Type} (P Q : A -> Prop) (l : list A) (x : A) :
  (forall y, P y <-> Q y) -> first_such P l x -> first_such Q l x.
Proof.
  intros H (l1 & l2 & -> & Hx & Hl1). exists l1, l2.
  split; [reflexivity|]. split; [now apply H|].
  intros y Hy HQ. apply (Hl1 y Hy). now apply H.
Qed.

Lemma str_truthy_spec (k : string) :
  opt_str_truthy (Some k) = true <-> k <> "".
Proof. destruct k; cbn; split; congruence. Qed.

Lemma partial_test_spec (load : Load) (item : string * ref Deposit) :
  partial_test load item = true <-> refs_overlap load item.1.
Proof.
  unfold partial_test, refs_overlap. destruct (load_num load) as [n|].
  - rewrite !andb_true_iff, orb_true_iff, !str_truthy_spec. split.
    + intros [[Hk Hn] Ho]. exists n. auto.
    + intros (n' & [= <-] & Hn & Hk & Ho). auto.
  - cbn. rewrite andb_false_r. split; [discriminate|].
    intros (n & H & _). discriminate.
Qed.

Lemma already_reconciled_spec (reconciled : list Reconciliation)
    (it : ref Deposit) :
  already_reconciled reconciled it = true
  <-> slot it ∈ held_deposits reconciled.
Proof.
  unfold already_reconciled, held_deposits.
  rewrite existsb_exists, list_elem_of_omap. split.
  - intros (r & Hr & H). exists r. split; [now apply list_elem_of_In|].
    destruct (rc_deposit r) as [d|]; [|discriminate].
    apply Nat.eqb_eq in H. cbn. congruence.
  - intros (r & Hr & H). exists r. split; [now apply list_elem_of_In|].
    destruct (rc_deposit r) as [d|]; [|discriminate].
    cbn in H. apply Nat.eqb_eq. congruence.
Qed.

Lemma amount_test_spec (reconciled : list Reconciliation) (load : Load)
    (it : ref Deposit) :
  amount_test reconciled load it = true <-> amount_free reconciled load it.
Proof.
  unfold amount_test, amount_free.
  rewrite andb_true_iff, negb_true_iff, within_cent_spec.
  rewrite <- already_reconciled_spec.
  destruct (already_reconciled reconciled it); split; intros [H1 H2];
    split; auto; congruence.
Qed.

Lemma direct_match_none (deposits : list Deposit) (load : Load) :
  direct_match (deposits_by_ref_of deposits) load = None ->
  no_direct deposits load.
Proof.
  unfold direct_match, no_direct. intros H n it Hn Hne Hin Href.
  rewrite Hn in H. unfold deposits_by_ref_of in H.
  rewrite fold_by_ref_get in H by exact Hne.
  destruct (list.last (filter (has_ref n) (enumerate deposits))) eqn:Hl;
    [discriminate|].
  apply last_None in Hl.
  assert (Hf : it ∈ filter (has_ref n) (enumerate deposits))
    by (apply list_elem_of_filter; auto).
  rewrite Hl in Hf. inversion Hf.
Qed.

(** The four cases of [match_load], in the order of the tiers. *)
Lemma match_load_cases (deposits : list Deposit)
    (reconciled : list Reconciliation) (load : Load) :
  let by_ref := deposits_by_ref_of deposits in
  let result := match_load by_ref deposits reconciled load in
  (exists n it,
      load_num load = Some n /\ n <> "" /\ last_with_ref deposits n it
      /\ result = Some (it, LoadNumMatched (Some n), "high"))
  \/ (no_direct deposits load
      /\ exists k it,
           first_such (fun item => refs_overlap load item.1) by_ref (k, it)
           /\ last_with_ref deposits k it
           /\ result = Some (it, PartialLoadNumMatch (load_num load) k, "medium"))
  \/ (no_direct deposits load
      /\ (forall item, item ∈ by_ref -> ~ refs_overlap load item.1)
      /\ exists it,
           first_such (amount_free reconciled load) (enumerate deposits) it
           /\ result = Some (it, AmountMatch (ld_amount load), "low"))
  \/ (no_direct deposits load
      /\ (forall item, item ∈ by_ref -> ~ refs_overlap load item.1)
      /\ (forall it, it ∈ enumerate deposits -> ~ amount_free reconciled load it)
      /\ result = None).
Proof.
  cbn zeta. unfold match_load.
  destruct (direct_match (deposits_by_ref_of deposits) load) as [it|] eqn:Hd.
  { left. unfold direct_match in Hd.
    destruct (load_num load) as [n|] eqn:Hn; [|discriminate].
    apply by_ref_get_last in Hd as [Hne Hlast]. exists n, it. auto. }
  right. apply direct_match_none in Hd.
  unfold partial_match.
  pose proof (find_first (partial_test load) (deposits_by_ref_of deposits))
    as Hp.
  destruct (List.find (partial_test load) (deposits_by_ref_of deposits))
    as [[k it]|].
  { left. split; [exact Hd|]. exists k, it. split; [|split; [|reflexivity]].
    - eapply first_such_iff; [|exact Hp]. intros y. apply partial_test_spec.
    - destruct Hp as (l1 & l2 & Hl & _). apply by_ref_items.
      rewrite Hl. apply elem_of_app. right. apply elem_of_cons. now left. }
  right.
  assert (Hno : forall item, item ∈ deposits_by_ref_of deposits ->
                             ~ refs_overlap load item.1).
  { intros item Hin Ho. apply (Hp item Hin). now apply partial_test_spec. }
  unfold amount_match.
  pose proof (find_first (amount_test reconciled load) (enumerate deposits))
    as Ha.
  destruct (List.find (amount_test reconciled load) (enumerate deposits))
    as [it|].
  - left. split; [exact Hd|]. split; [exact Hno|]. exists it.
    split; [|reflexivity].
    eapply first_such_iff; [|exact Ha]. intros y. apply amount_test_spec.
  - right. split; [exact Hd|]. split; [exact Hno|]. split; [|reflexivity].
    intros it Hin Hf. apply (Ha it Hin). now apply amount_test_spec.
Qed.

End Tiers.

(** ** The load-reference matcher: a whole run *)

Section LoadRun.

Local Open Scope string_scope.
Local Open Scope list_scope.

Variable loads : list Load.
Variable deposits : list Deposit.

Abbreviation lp_step :=
  (reconcile_load (deposits_by_ref_of deposits) deposits).

Lemma reconcile_load_cases (st : list Reconciliation * list (ref Load))
    (it : ref Load) :
  (match_load (deposits_by_ref_of deposits) deposits st.1 (deref it) = None
   /\ lp_step st it = (st.1, st.2 ++ [it]))
  \/ (exists d reason conf,
         match_load (deposits_by_ref_of deposits) deposits st.1 (deref it)
         = Some (d, reason, conf)
         /\ lp_step st it = (st.1 ++ [record_of it d reason conf], st.2)).
Proof.
  destruct st as [rec ul]. unfold reconcile_load. cbn [fst snd].
  destruct (match_load _ _ _ _) as [[[d reason] conf]|].
  - right. exists d, reason, conf. split; reflexivity.
  - left. split; reflexivity.
Qed.

(** A match found for a load gives a well-formed record. *)
Lemma match_load_record (reconciled : list Reconciliation) (it : ref Load)
    (d : ref Deposit) (reason : MatchReason) (conf : string) :
  it ∈ enumerate loads ->
  match_load (deposits_by_ref_of deposits) deposits reconciled (deref it)
  = Some (d, reason, conf) ->
  record_ok loads deposits (record_of it d reason conf)
  /\ (conf = "low" -> slot d ∉ held_deposits reconciled).
Proof.
  intros Hit Hm.
  destruct (match_load_cases deposits reconciled (deref it))
    as [(n & d' & _ & Hne & Hlast & Hr)
       |[(_ & k & d' & Hfirst & Hlast & Hr)
        |[(_ & _ & d' & Hfirst & Hr)|(_ & _ & _ & Hr)]]];
    cbn zeta in Hr; rewrite Hm in Hr; [| | |discriminate];
    injection Hr as -> -> ->.
  - split; [|discriminate]. exists it, d', (LoadNumMatched (Some n)), "high".
    split; [reflexivity|]. split; [exact Hit|]. split; [apply Hlast|].
    split; [now left|]. intros _. exists n. auto.
  - split; [|discriminate].
    exists it, d', (PartialLoadNumMatch (load_num (deref it)) k), "medium".
    split; [reflexivity|]. split; [exact Hit|]. split; [apply Hlast|].
    split; [right; now left|]. intros _.
    destruct Hfirst as (l1 & l2 & Hl & _).
    exists k. split; [|exact Hlast].
    apply (by_ref_items deposits k d'). rewrite Hl.
    apply elem_of_app. right. apply elem_of_cons. now left.
  - destruct Hfirst as (l1 & l2 & Hl & [_ Hfree] & _). split; [|intros _; exact Hfree].
    exists it, d', (AmountMatch (ld_amount (deref it))), "low".
    split; [reflexivity|]. split; [exact Hit|]. split.
    { rewrite Hl. apply elem_of_app. right. apply elem_of_cons. now left. }
    split; [right; now right|]. intros H. now contradiction H.
Qed.

Lemma low_fresh_snoc (reconciled : list Reconciliation) (it : ref Load)
    (d : ref Deposit) (reason : MatchReason) (conf : string) :
  low_fresh reconciled ->
  (conf = "low" -> slot d ∉ held_deposits reconciled) ->
  low_fresh (reconciled ++ [record_of it d reason conf]).
Proof.
  intros Hf Hd i rc d0 Hi Hlow Hd0.
  apply lookup_snoc_Some in Hi as [[Hlt Hi]|[-> <-]].
  - rewrite take_app_le by lia. eauto.
  - rewrite take_app_length. cbn in Hlow, Hd0.
    injection Hlow as ->. injection Hd0 as <-. auto.
Qed.

(** A run of the loop over [l]: the records stay well formed, the two
    lists only grow, and the loads added to them are the loads of [l], each
    once. *)
Lemma lp_loop (l : list (ref Load)) (st : list Reconciliation * list (ref Load)) :
  (forall it, it ∈ l -> it ∈ enumerate loads) ->
  Forall (record_ok loads deposits) st.1 ->
  low_fresh st.1 ->
  let st' := fold_left lp_step l st in
  Forall (record_ok loads deposits) st'.1
  /\ low_fresh st'.1
  /\ (exists ext, st'.1 = st.1 ++ ext)
  /\ (exists ext, st'.2 = st.2 ++ ext)
  /\ omap rc_load st'.1 ++ st'.2 ≡ₚ (omap rc_load st.1 ++ st.2) ++ l.
Proof.
  revert st. induction l as [|it l IH]; intros st Hl Hok Hfresh;
    cbn [fold_left].
  - split; [exact Hok|]. split; [exact Hfresh|].
    split; [exists []; now rewrite app_nil_r|].
    split; [exists []; now rewrite app_nil_r|]. now rewrite app_nil_r.
  - assert (Hit : it ∈ enumerate loads) by (apply Hl, elem_of_cons; now left).
    assert (Hl' : forall x, x ∈ l -> x ∈ enumerate loads)
      by (intros x Hx; apply Hl, elem_of_cons; now right).
    destruct (reconcile_load_cases st it)
      as [[_ Hst]|(d & reason & conf & Hm & Hst)]; rewrite Hst.
    + destruct (IH (st.1, st.2 ++ [it]) Hl' Hok Hfresh)
        as (H1 & H2 & [e1 H3] & [e2 H4] & H5).
      cbn [fst snd] in *. split; [exact H1|]. split; [exact H2|].
      split; [eauto|].
      split; [exists (it :: e2); rewrite H4; now rewrite <- app_assoc|].
      rewrite H5. rewrite <- !app_assoc. reflexivity.
    + destruct (match_load_record st.1 it d reason conf Hit Hm) as [Hrec Hlow].
      destruct (IH (st.1 ++ [record_of it d reason conf], st.2) Hl')
        as (H1 & H2 & [e1 H3] & [e2 H4] & H5); cbn [fst snd] in *.
      { apply list.Forall_app. split; [exact Hok|]. now constructor. }
      { now apply low_fresh_snoc. }
      split; [exact H1|]. split; [exact H2|].
      split; [exists (record_of it d reason conf :: e1); rewrite H3;
              now rewrite <- app_assoc|].
      split; [eauto|].
      rewrite H5, omap_app. cbn. rewrite <- !app_assoc. cbn.
      apply Permutation_app_head.
      apply (Permutation_middle st.2 l it).
Qed.

Lemma reconcile_data_eq (payments : list Payment) :
  let st := fold_left lp_step (enumerate loads) ([], []) in
  reconcile_data loads payments deposits
  = (st.1, st.2, enumerate payments,
     filter (fun it => slot it ∉ matched_deposits_of st.1) (enumerate deposits)).
Proof.
  cbn zeta. unfold reconcile_data.
  destruct (fold_left lp_step (enumerate loads) ([], [])) as [rec ul].
  reflexivity.
Qed.

Lemma run_facts :
  let st := fold_left lp_step (enumerate loads) ([], []) in
  Forall (record_ok loads deposits) st.1
  /\ low_fresh st.1
  /\ omap rc_load st.1 ++ st.2 ≡ₚ enumerate loads.
Proof.
  assert (Hfresh : low_fresh []) by (intros i rc d Hi; inversion Hi).
  destruct (lp_loop (enumerate loads) ([], []) (fun _ H => H)
              (Forall_nil _) Hfresh) as (H1 & H2 & _ & _ & H3).
  auto.
Qed.

Lemma lp_grows (l : list (ref Load))
    (st : list Reconciliation * list (ref Load)) :
  exists e1 e2,
    (fold_left lp_step l st).1 = st.1 ++ e1
    /\ (fold_left lp_step l st).2 = st.2 ++ e2
    /\ omap rc_load e1 `sublist_of` l /\ e2 `sublist_of` l.
Proof.
  revert st. induction l as [|it l IH]; intros st; cbn [fold_left].
  - exists [], []. rewrite !app_nil_r. repeat split; constructor.
  - destruct (IH (lp_step st it)) as (e1 & e2 & H1 & H2 & S1 & S2).
    destruct (reconcile_load_cases st it)
      as [[_ Hst]|(d & reason & conf & _ & Hst)];
      rewrite Hst in H1, H2 |- *; cbn [fst snd] in *.
    + exists e1, (it :: e2). rewrite H1, H2, <- app_assoc.
      split; [reflexivity|]. split; [reflexivity|].
      split; [now apply sublist_cons|now apply sublist_skip].
    + exists (record_of it d reason conf :: e1), e2.
      rewrite H1, H2, <- app_assoc.
      split; [reflexivity|]. split; [reflexivity|].
      split; [now apply sublist_skip|now apply sublist_cons].
Qed.

(** The run, cut at the load of slot [n]. *)
Lemma lp_run_split (n : nat) (load : Load) :
  loads !! n = Some load ->
  fold_left lp_step (enumerate loads) ([], [])
  = fold_left lp_step (enumerate_from (S n) (drop (S n) loads))
              (lp_step (loop_before deposits loads n) (Ref n load)).
Proof.
  intros Hn. unfold loop_before, enumerate.
  rewrite <- (take_drop_middle loads n load Hn) at 1.
  rewrite enumerate_from_app, fold_left_app. cbn [enumerate_from fold_left].
  rewrite length_take_le by (apply lookup_lt_Some in Hn; lia).
  reflexivity.
Qed.

(** What the turn of a load finds is what the run returns for it. *)
Lemma load_outcome (n : nat) (load : Load) :
  loads !! n = Some load ->
  let st := fold_left lp_step (enumerate loads) ([], []) in
  match match_load (deposits_by_ref_of deposits) deposits
                   (loop_before deposits loads n).1 load with
  | Some (d, reason, conf) => record_of (Ref n load) d reason conf ∈ st.1
  | None => Ref n load ∈ st.2
  end.
Proof.
  intros Hn. cbn zeta. rewrite (lp_run_split n load Hn).
  destruct (lp_grows (enumerate_from (S n) (drop (S n) loads))
                     (lp_step (loop_before deposits loads n) (Ref n load)))
    as (e1 & e2 & H1 & H2 & _).
  rewrite H1, H2.
  destruct (reconcile_load_cases (loop_before deposits loads n) (Ref n load))
    as [[Hm Hst]|(d & reason & conf & Hm & Hst)];
    cbn [deref] in Hm; rewrite Hm, Hst; cbn [fst snd].
  - apply elem_of_app. left. apply elem_of_app. right.
    now apply list_elem_of_singleton.
  - apply elem_of_app. left. apply elem_of_app. right.
    now apply list_elem_of_singleton.
Qed.

Lemma last_with_ref_unique (r : string) (d d' : ref Deposit) :
  last_with_ref deposits r d -> last_with_ref deposits r d' -> d = d'.
Proof.
  intros (Hin & Href & Hmax) (Hin' & Href' & Hmax').
  apply (enumerate_same_slot deposits); [exact Hin|exact Hin'|].
  pose proof (Hmax d' Hin' Href'). pose proof (Hmax' d Hin Href). lia.
Qed.

(** A load whose number some deposit carries is matched by the exact
    tier, whatever the records so far. *)
Lemma direct_hit (reconciled : list Reconciliation) (load : Load)
    (n : string) (d : ref Deposit) :
  load_num load = Some n -> n <> "" ->
  d ∈ enumerate deposits -> has_ref n d ->
  exists d', last_with_ref deposits n d'
             /\ match_load (deposits_by_ref_of deposits) deposits reconciled load
                = Some (d', LoadNumMatched (Some n), "high").
Proof.
  intros Hn Hne Hin Href.
  destruct (match_load_cases deposits reconciled load)
    as [(n' & d' & Hn' & _ & Hlast & Hr)
       |[(Hno & _)|[(Hno & _)|(Hno & _)]]];
    try (exfalso; exact (Hno n d Hn Hne Hin Href)).
  rewrite Hn in Hn'. injection Hn' as <-. exists d'. split; [exact Hlast|exact Hr].
Qed.

Lemma occ_held_one {M : Type} (f : M -> option nat) (k : nat) (x : M)
    (l : list M) :
  x ∈ l -> f x = Some k -> (1 <= occ k (omap f l))%nat.
Proof.
  intros Hx Hf. apply list_elem_of_split in Hx as (l1 & l2 & ->).
  rewrite omap_app, occ_app. cbn [omap list_omap]. rewrite Hf.
  change (k :: omap f l2) with ([k] ++ omap f l2). rewrite occ_app.
  unfold occ at 2. rewrite filter_cons_True by reflexivity. cbn. lia.
Qed.

Lemma occ_held_two {M : Type} (f : M -> option nat) (k : nat) (x y : M)
    (l : list M) :
  x ∈ l -> y ∈ l -> x <> y -> f x = Some k -> f y = Some k ->
  (2 <= occ k (omap f l))%nat.
Proof.
  intros Hx Hy Hne Hfx Hfy. apply list_elem_of_split in Hx as (l1 & l2 & ->).
  rewrite omap_app, occ_app. cbn [omap list_omap]. rewrite Hfx.
  change (k :: omap f l2) with ([k] ++ omap f l2). rewrite occ_app.
  unfold occ at 2. rewrite filter_cons_True by reflexivity. cbn [length].
  apply elem_of_app in Hy as [Hy|Hy].
  - pose proof (occ_held_one f k y l1 Hy Hfy). lia.
  - apply elem_of_cons in Hy as [Hy|Hy]; [congruence|].
    pose proof (occ_held_one f k y l2 Hy Hfy). lia.
Qed.

Lemma held_loads_fmap (reconciled : list Reconciliation) :
  held_loads reconciled = slot <$> omap rc_load reconciled.
Proof. unfold held_loads. now rewrite list_fmap_omap. Qed.

Lemma occ_enumerate {A : Type} (l : list A) (i : nat) (x : A) :
  l !! i = Some x -> occ i (slot <$> enumerate l) = 1%nat.
Proof.
  intros Hi. rewrite occ_NoDup.
  - rewrite decide_True; [reflexivity|].
    apply list_elem_of_fmap. exists (Ref i x). split; [reflexivity|].
    now apply elem_of_enumerate.
  - unfold enumerate. change (NoDup (map slot (enumerate_from 0 l))).
    rewrite enumerate_from_slots. apply NoDup_seq.
Qed.

(** In the load-reference matcher every load has one outcome: it is held
    by one record or listed once among the unmatched loads, never both; the
    records hold loads and deposits of the input, with one of the three
    confidences. *)
Theorem every_load_has_one_outcome (payments : list Payment) :
  let r := reconcile_data loads payments deposits in
  (forall i l, loads !! i = Some l ->
               (occ i (held_loads r.1.1.1) + times_listed i r.1.1.2)%nat = 1%nat)
  /\ Forall (record_ok loads deposits) r.1.1.1
  /\ Forall (fun it => it ∈ enumerate loads) r.1.1.2.
Proof.
  cbn zeta. rewrite reconcile_data_eq. cbn [fst snd].
  destruct run_facts as (Hok & _ & Hperm).
  set (st := fold_left lp_step (enumerate loads) ([], [])) in *.
  split; [|split; [exact Hok|]].
  - intros i l Hi.
    rewrite held_loads_fmap, times_listed_occ, <- occ_app, <- fmap_app.
    rewrite (occ_perm _ _ _ (fmap_Permutation slot _ _ Hperm)).
    now apply (occ_enumerate loads i l).
  - apply list.Forall_forall. intros it Hit. rewrite <- Hperm.
    apply elem_of_app. now right.
Qed.

(** A deposit is reported unmatched exactly when no record holds it, and
    then once. *)
Theorem unmatched_deposits_are_the_unheld (payments : list Payment) :
  let r := reconcile_data loads payments deposits in
  (forall j d, deposits !! j = Some d ->
               times_listed j r.2
               = if decide (j ∈ held_deposits r.1.1.1) then 0%nat else 1%nat)
  /\ Forall (fun it => it ∈ enumerate deposits) r.2.
Proof.
  cbn zeta. rewrite reconcile_data_eq. cbn [fst snd].
  set (st := fold_left lp_step (enumerate loads) ([], [])).
  split.
  - intros j d Hj. rewrite times_listed_occ.
    rewrite (occ_filter_enumerate
               (fun it => slot it ∉ matched_deposits_of st.1) deposits j d Hj).
    cbn [slot]. unfold matched_deposits_of.
    change (omap (fun r => slot <$> rc_deposit r) st.1)
      with (held_deposits st.1).
    destruct (decide (j ∈ held_deposits st.1)) as [H|H].
    + rewrite decide_False; [reflexivity|].
      intros H'. apply H'. now apply elem_of_list_to_set.
    + rewrite decide_True; [reflexivity|].
      intros H'. apply H. now apply elem_of_list_to_set in H'.
  - apply list.Forall_forall. intros it Hit.
    now apply list_elem_of_filter in Hit as [_ Hit].
Qed.

(** The payments take no part in the matching: they are all returned as
    unmatched, in their order, the records and the other two lists are the
    same whatever the payments, and no record holds a payment, so that no
    record is complete. *)
Theorem payments_pass_through (payments payments' : list Payment) :
  let r := reconcile_data loads payments deposits in
  let r' := reconcile_data loads payments' deposits in
  r.1.2 = enumerate payments
  /\ r.1.1 = r'.1.1
  /\ r.2 = r'.2
  /\ Forall (fun rc => rc_payment rc = None /\ is_complete rc = false) r.1.1.1.
Proof.
  cbn zeta. rewrite !reconcile_data_eq. cbn [fst snd].
  destruct run_facts as (Hok & _ & _).
  repeat split; try reflexivity.
  eapply list.Forall_impl; [exact Hok|].
  intros rc (l & d & reason & conf & -> & _). split; reflexivity.
Qed.

(** The amount tier never takes a deposit twice: a record of confidence
    low holds a deposit that no earlier record of the run holds. *)
Theorem low_confidence_deposit_is_fresh (payments : list Payment)
    (i : nat) (rc : Reconciliation) (d : ref Deposit) :
  let reconciled := (reconcile_data loads payments deposits).1.1.1 in
  reconciled !! i = Some rc ->
  match_confidence rc = Some "low" ->
  rc_deposit rc = Some d ->
  slot d ∉ held_deposits (take i reconciled).
Proof.
  cbn zeta. rewrite reconcile_data_eq. cbn [fst snd].
  destruct run_facts as (_ & Hfresh & _). apply Hfresh.
Qed.

(** The two reference tiers bind to the last duplicate: a record whose
    confidence is not low holds the last deposit that carries its reference.
    A deposit followed by another with the same reference is therefore only
    ever held by records of confidence low. *)
Theorem reference_match_binds_last_duplicate (payments : list Payment) :
  let reconciled := (reconcile_data loads payments deposits).1.1.1 in
  (forall rc d, rc ∈ reconciled -> rc_deposit rc = Some d ->
                match_confidence rc <> Some "low" ->
                exists r, r <> "" /\ last_with_ref deposits r d)
  /\ (forall i j di dj r rc,
         (i < j)%nat -> deposits !! i = Some di -> deposits !! j = Some dj ->
         load_ref di = Some r -> load_ref dj = Some r ->
         rc ∈ reconciled -> slot <$> rc_deposit rc = Some i ->
         match_confidence rc = Some "low").
Proof.
  cbn zeta. rewrite reconcile_data_eq. cbn [fst snd].
  destruct run_facts as (Hok & _ & _).
  set (st := fold_left lp_step (enumerate loads) ([], [])) in *.
  assert (H1 : forall rc d, rc ∈ st.1 -> rc_deposit rc = Some d ->
                 match_confidence rc <> Some "low" ->
                 exists r, r <> "" /\ last_with_ref deposits r d).
  { intros rc d Hrc Hd Hconf.
    pose proof (proj1 (list.Forall_forall _ _) Hok rc Hrc)
      as (l & d' & reason & conf & -> & _ & _ & _ & Hlast).
    cbn in Hd, Hconf. injection Hd as <-. apply Hlast. congruence. }
  split; [exact H1|].
  intros i j di dj r rc Hlt Hi Hj Hri Hrj Hrc Hslot.
  destruct (rc_deposit rc) as [d|] eqn:Hd; [|discriminate].
  cbn in Hslot. injection Hslot as Hslot.
  destruct (decide (match_confidence rc = Some "low")) as [H|H]; [exact H|].
  exfalso. destruct (H1 rc d Hrc Hd H) as (r' & _ & Hin & Href & Hmax).
  apply elem_of_enumerate in Hin. rewrite Hslot, Hi in Hin.
  injection Hin as Hin. unfold has_ref in Href. rewrite <- Hin, Hri in Href.
  injection Href as <-.
  specialize (Hmax (Ref j dj)). cbn [slot deref] in Hmax.
  assert ((j <= slot d)%nat); [|lia].
  apply Hmax; [now apply elem_of_enumerate|exact Hrj].
Qed.


(** The reference tiers never ask whether a deposit is taken.  Two loads
    that carry the same number, a number that some deposit carries, are both
    recorded with confidence high and with the same deposit, the last one
    with this reference; for two different loads this deposit is held by two
    records at least. *)
Theorem same_number_loads_share_deposit (payments : list Payment)
    (i j : nat) (li lj : Load) (n : string) (d : ref Deposit) :
  let reconciled := (reconcile_data loads payments deposits).1.1.1 in
  loads !! i = Some li -> loads !! j = Some lj ->
  load_num li = Some n -> load_num lj = Some n -> n <> "" ->
  d ∈ enumerate deposits -> has_ref n d ->
  exists d',
    last_with_ref deposits n d'
    /\ record_of (Ref i li) d' (LoadNumMatched (Some n)) "high" ∈ reconciled
    /\ record_of (Ref j lj) d' (LoadNumMatched (Some n)) "high" ∈ reconciled
    /\ (i <> j -> (2 <= occ (slot d') (held_deposits reconciled))%nat).
Proof.
  cbn zeta. intros Hi Hj Hni Hnj Hne Hin Href.
  rewrite reconcile_data_eq. cbn [fst snd].
  pose proof (load_outcome i li Hi) as Hoi.
  pose proof (load_outcome j lj Hj) as Hoj. cbn zeta in Hoi, Hoj.
  destruct (direct_hit (loop_before deposits loads i).1 li n d Hni Hne Hin Href)
    as (di & Hlasti & Hmi).
  destruct (direct_hit (loop_before deposits loads j).1 lj n d Hnj Hne Hin Href)
    as (dj & Hlastj & Hmj).
  rewrite Hmi in Hoi. rewrite Hmj in Hoj.
  rewrite <- (last_with_ref_unique n di dj Hlasti Hlastj) in Hoj.
  exists di. split; [exact Hlasti|]. split; [exact Hoi|]. split; [exact Hoj|].
  intros Hij. unfold held_deposits.
  eapply occ_held_two; [exact Hoi|exact Hoj| |reflexivity|reflexivity].
  intros Heq. apply Hij. now injection Heq.
Qed.

(** The three lists of the result keep the order of the input: the loads
    of the records and the unmatched loads follow the list of loads, the
    unmatched deposits the list of deposits. *)
Theorem outputs_keep_input_order (payments : list Payment) :
  let r := reconcile_data loads payments deposits in
  omap rc_load r.1.1.1 `sublist_of` enumerate loads
  /\ r.1.1.2 `sublist_of` enumerate loads
  /\ r.2 `sublist_of` enumerate deposits.
Proof.
  cbn zeta. rewrite reconcile_data_eq. cbn [fst snd].
  destruct (lp_grows (enumerate loads) ([], []))
    as (e1 & e2 & H1 & H2 & S1 & S2).
  rewrite H1, H2. cbn [fst snd app].
  split; [exact S1|]. split; [exact S2|]. apply sublist_filter.
Qed.

End LoadRun.

(** ** The load-reference matcher: the run on small inputs *)

Section LoadRunExamples.

Local Open Scope string_scope.
Local Open Scope list_scope.

Lemma low_confidence_deposit_is_fresh_witness :
  let loads := [freight None (cents 5000); freight None (cents 5000)] in
  let deposits := [credit None (cents 5000); credit None (cents 5000)] in
  let reconciled := (reconcile_data loads [] deposits).1.1.1 in
  held_deposits (take 1 reconciled) = [0%nat]
  /\ 1%nat ∉ held_deposits (take 1 reconciled).
Proof.
  cbn zeta. split; [vm_compute; reflexivity|].
  apply (low_confidence_deposit_is_fresh
           [freight None (cents 5000); freight None (cents 5000)]
           [credit None (cents 5000); credit None (cents 5000)] [] 1
           (record_of (Ref 1 (freight None (cents 5000)))
                      (Ref 1 (credit None (cents 5000)))
                      (AmountMatch (cents 5000)) "low")
           (Ref 1 (credit None (cents 5000)))).
  - vm_compute. reflexivity.
  - reflexivity.
  - reflexivity.
Defined.


Lemma same_number_loads_share_deposit_witness :
  exists d' : ref Deposit,
    (2 <= occ (slot d')
              (held_deposits
                 (reconcile_data [ freight (Some "D7") (cents 9900);
                                   freight (Some "D7") (cents 5000) ] []
                                 [credit (Some "D7") (cents 5000)]).1.1.1))%nat.
Proof.
  destruct (same_number_loads_share_deposit
              [ freight (Some "D7") (cents 9900);
                freight (Some "D7") (cents 5000) ]
              [credit (Some "D7") (cents 5000)] [] 0 1
              (freight (Some "D7") (cents 9900))
              (freight (Some "D7") (cents 5000)) "D7"
              (Ref 0 (credit (Some "D7") (cents 5000))))
    as (d' & _ & _ & _ & H).
  - reflexivity.
  - reflexivity.
  - reflexivity.
  - reflexivity.
  - discriminate.
  - apply elem_of_enumerate. reflexivity.
  - reflexivity.
  - exists d'. apply H. lia.
Defined.

End LoadRunExamples.

(** ** The load-reference matcher: empty inputs *)

Section LoadRunEdges.

Local Open Scope string_scope.
Local Open Scope list_scope.

Lemma match_load_no_deposits (reconciled : list Reconciliation) (load : Load) :
  match_load (deposits_by_ref_of []) [] reconciled load = None.
Proof.
  unfold match_load, direct_match, partial_match, amount_match.
  cbn. now destruct (load_num load).
Qed.

Lemma no_deposits_loop (l : list (ref Load))
    (st : list Reconciliation * list (ref Load)) :
  fold_left (reconcile_load (deposits_by_ref_of []) []) l st
  = (st.1, st.2 ++ l).
Proof.
  revert st. induction l as [|it l IH]; intros [rec ul]; cbn [fold_left fst snd].
  - now rewrite app_nil_r.
  - unfold reconcile_load at 2. rewrite match_load_no_deposits.
    rewrite IH. cbn [fst snd]. now rewrite <- app_assoc.
Qed.

(** Without loads every deposit is unmatched; without deposits every
    load is unmatched.  In both cases no record is made. *)
Theorem reconcile_data_empty_inputs (loads : list Load)
    (payments : list Payment) (deposits : list Deposit) :
  reconcile_data [] payments deposits
  = ([], [], enumerate payments, enumerate deposits)
  /\ reconcile_data loads payments []
     = ([], enumerate loads, enumerate payments, []).
Proof.
  split.
  - unfold reconcile_data. cbn [enumerate enumerate_from fold_left].
    f_equal. unfold matched_deposits_of. cbn [omap list_omap list_to_set].
    induction (enumerate deposits) as [|it l IH]; [reflexivity|].
    rewrite filter_cons_True by apply not_elem_of_empty. now rewrite IH.
  - unfold reconcile_data. rewrite no_deposits_loop. reflexivity.
Qed.

End LoadRunEdges.

(** ** The clean-data matcher *)

Section CleanDataRun.

Import CleanData SpecCD.

Local Open Scope string_scope.
Local Open Scope list_scope.

(** What one transaction does to the lookup. *)
Lemma add_trans_get (r : string) (d : list (string * ref Transaction))
    (x : ref Transaction) :
  r <> "" ->
  dict_get r (add_trans d x) = if decide (has_key r x) then Some x
                               else dict_get r d.
Proof.
  intros Hr. unfold add_trans.
  destruct (decide (has_key r x)) as [[H1 H2]|H]; unfold has_key in *.
  - rewrite H1, H2. destruct r; [congruence|]. cbn [opt_str_truthy andb].
    rewrite dict_get_set. now rewrite String.eqb_refl.
  - destruct (tx_load_ref (deref x)) as [[|c r0]|]; cbn [opt_str_truthy andb];
      try reflexivity.
    destruct (opt_dec_truthy (tx_deposit (deref x))) eqn:Hd; [|reflexivity].
    rewrite dict_get_set.
    destruct (String.eqb_spec (String c r0) r) as [Heq|Hne]; [|reflexivity].
    exfalso. apply H. split; [now rewrite Heq|reflexivity].
Qed.

Lemma add_trans_keys (d : list (string * ref Transaction))
    (x : ref Transaction) :
  (NoDup d.*1 -> NoDup (add_trans d x).*1)
  /\ ((forall k, k ∈ d.*1 -> k <> "") ->
      forall k, k ∈ (add_trans d x).*1 -> k <> "").
Proof.
  unfold add_trans. destruct (tx_load_ref (deref x)) as [[|c r0]|];
    cbn [opt_str_truthy andb]; auto.
  destruct (opt_dec_truthy (tx_deposit (deref x))); auto.
  destruct (dict_set_keys (String c r0) x d) as (_ & H2 & H3).
  split; [exact H3|]. intros Hd k Hk.
  destruct (H2 k Hk) as [->|Hk']; [discriminate|auto].
Qed.

Lemma fold_trans_get (r : string) (l : list (ref Transaction))
    (d : list (string * ref Transaction)) :
  r <> "" ->
  dict_get r (fold_left add_trans l d)
  = match list.last (filter (has_key r) l) with
    | Some it => Some it
    | None => dict_get r d
    end.
Proof.
  intros Hr. induction l as [|x l IH] using rev_ind; [reflexivity|].
  rewrite fold_left_app. cbn [fold_left].
  rewrite add_trans_get by exact Hr.
  rewrite list.filter_app, last_app, filter_cons, filter_nil.
  destruct (decide (has_key r x)); [reflexivity|exact IH].
Qed.

Lemma fold_trans_keys (l : list (ref Transaction)) :
  NoDup (fold_left add_trans l []).*1
  /\ forall k, k ∈ (fold_left add_trans l []).*1 -> k <> "".
Proof.
  induction l as [|x l [IH1 IH2]] using rev_ind.
  - cbn. split; [constructor|]. intros k H. inversion H.
  - rewrite fold_left_app. cbn [fold_left].
    destruct (add_trans_keys (fold_left add_trans l []) x) as [H1 H2].
    split; auto.
Qed.

(** What the lookup finds under a reference. *)
Lemma trans_get_last (transactions : list Transaction) (r : string)
    (it : ref Transaction) :
  dict_get r (trans_by_ref_of transactions) = Some it
  <-> r <> "" /\ last_keyed transactions r it.
Proof.
  unfold trans_by_ref_of, last_keyed. split.
  - intros H.
    assert (Hr : r <> "").
    { apply (proj2 (fold_trans_keys (enumerate transactions))).
      apply dict_get_Some in H. apply list_elem_of_fmap. exists (r, it). auto. }
    split; [exact Hr|]. rewrite fold_trans_get in H by exact Hr.
    apply (last_filter_enumerate (has_key r)).
    destruct (list.last (filter (has_key r) (enumerate transactions)));
      [exact H|discriminate H].
  - intros [Hr H]. rewrite fold_trans_get by exact Hr.
    apply (last_filter_enumerate (has_key r)) in H. now rewrite H.
Qed.

Lemma trans_items (transactions : list Transaction) (k : string)
    (it : ref Transaction) :
  (k, it) ∈ trans_by_ref_of transactions ->
  k <> "" /\ last_keyed transactions k it.
Proof.
  intros H. apply trans_get_last, dict_get_elem; [|exact H].
  apply (fold_trans_keys (enumerate transactions)).
Qed.

Lemma last_keyed_unique (transactions : list Transaction) (r : string)
    (t t' : ref Transaction) :
  last_keyed transactions r t -> last_keyed transactions r t' -> t = t'.
Proof.
  intros (Hin & Href & Hmax) (Hin' & Href' & Hmax').
  apply (enumerate_same_slot transactions); [exact Hin|exact Hin'|].
  pose proof (Hmax t' Hin' Href'). pose proof (Hmax' t Hin Href). lia.
Qed.

Lemma partial_ref_test_spec (load : DriverLoad)
    (item : string * ref Transaction) :
  partial_ref_test load item = true <-> nums_overlap load item.1.
Proof.
  unfold partial_ref_test, nums_overlap. destruct (dl_load_num load) as [n|].
  - rewrite !andb_true_iff, orb_true_iff, !str_truthy_spec. split.
    + intros [[Hk Hn] Ho]. exists n. auto.
    + intros (n' & [= <-] & Hn & Hk & Ho). auto.
  - cbn. rewrite andb_false_r. split; [discriminate|].
    intros (n & H & _). discriminate.
Qed.

(** The three cases of [match_driver_load], in the order of the tiers. *)
Lemma match_driver_load_cases (transactions : list Transaction)
    (load : DriverLoad) :
  let by_ref := trans_by_ref_of transactions in
  let result := match_driver_load by_ref load in
  (exists n t,
      dl_load_num load = Some n /\ n <> "" /\ last_keyed transactions n t
      /\ result = Some (t, "exact_load_number"))
  \/ (no_exact transactions load
      /\ exists k t,
           first_such (fun item => nums_overlap load item.1) by_ref (k, t)
           /\ last_keyed transactions k t
           /\ result = Some (t, "partial_load_number"))
  \/ (no_exact transactions load
      /\ (forall item, item ∈ by_ref -> ~ nums_overlap load item.1)
      /\ result = None).
Proof.
  cbn zeta. unfold match_driver_load.
  destruct (exact_match (trans_by_ref_of transactions) load) as [t|] eqn:He.
  { left. unfold exact_match in He.
    destruct (dl_load_num load) as [n|] eqn:Hn; [|discriminate].
    apply trans_get_last in He as [Hne Hlast]. exists n, t. auto. }
  right.
  assert (Hno : no_exact transactions load).
  { intros n it Hn Hne Hin Hkey. unfold exact_match in He.
    rewrite Hn in He. unfold trans_by_ref_of in He.
    rewrite fold_trans_get in He by exact Hne.
    destruct (list.last (filter (has_key n) (enumerate transactions))) eqn:Hl;
      [discriminate|].
    apply last_None in Hl.
    assert (Hf : it ∈ filter (has_key n) (enumerate transactions))
      by (apply list_elem_of_filter; auto).
    rewrite Hl in Hf. inversion Hf. }
  pose proof (find_first (partial_ref_test load) (trans_by_ref_of transactions))
    as Hp.
  destruct (List.find (partial_ref_test load) (trans_by_ref_of transactions))
    as [[k t]|].
  - left. split; [exact Hno|]. exists k, t. split; [|split; [|reflexivity]].
    + eapply first_such_iff; [|exact Hp]. intros y.
      apply partial_ref_test_spec.
    + destruct Hp as (l1 & l2 & Hl & _). apply trans_items.
      rewrite Hl. apply elem_of_app. right. apply elem_of_cons. now left.
  - right. split; [exact Hno|]. split; [|reflexivity].
    intros item Hin Ho. apply (Hp item Hin). now apply partial_ref_test_spec.
Qed.

Lemma reconcile_step_item (by_ref : list (string * ref Transaction))
    (st : list Matched * list (ref DriverLoad)) (it : ref DriverLoad) :
  reconcile_step by_ref st it
  = match item_for by_ref it with
    | Some m => (st.1 ++ [m], st.2)
    | None => (st.1, st.2 ++ [it])
    end.
Proof.
  destruct st as [m ul]. unfold reconcile_step, item_for.
  now destruct (match_driver_load by_ref (deref it)) as [[t ty]|].
Qed.

(** The loop over the loads keeps no state that a later load reads: it is
    a map over the loads. *)
Lemma clean_loop (by_ref : list (string * ref Transaction))
    (l : list (ref DriverLoad)) (st : list Matched * list (ref DriverLoad)) :
  fold_left (reconcile_step by_ref) l st
  = (st.1 ++ omap (item_for by_ref) l,
     st.2 ++ filter (fun it => ~ is_Some (item_for by_ref it)) l).
Proof.
  revert st. induction l as [|it l IH]; intros st; cbn [fold_left].
  - cbn. rewrite !app_nil_r. now destruct st.
  - rewrite IH, reconcile_step_item. cbn [omap list_omap].
    rewrite filter_cons.
    destruct (item_for by_ref it) as [m|]; cbn [fst snd].
    + rewrite decide_False by (intros H; apply H; eauto).
      now rewrite <- app_assoc.
    + rewrite decide_True by (intros [? H]; discriminate).
      now rewrite <- app_assoc.
Qed.

Lemma reconcile_eq (transactions : list Transaction)
    (driver_loads : list DriverLoad) :
  let by_ref := trans_by_ref_of transactions in
  let matched := omap (item_for by_ref) (enumerate driver_loads) in
  reconcile transactions driver_loads
  = (matched,
     filter (fun it => is_unmatched (matched_refs_of matched) it = true)
            (enumerate transactions),
     filter (fun it => ~ is_Some (item_for by_ref it))
            (enumerate driver_loads)).
Proof.
  cbn zeta. unfold reconcile. rewrite clean_loop. reflexivity.
Qed.

Lemma item_for_load (by_ref : list (string * ref Transaction))
    (it : ref DriverLoad) (m : Matched) :
  item_for by_ref it = Some m -> m_load m = it.
Proof.
  unfold item_for.
  destruct (match_driver_load by_ref (deref it)) as [[t ty]|];
    [|discriminate].
  now intros [= <-].
Qed.

Lemma item_for_loads (by_ref : list (string * ref Transaction))
    (l : list (ref DriverLoad)) :
  m_load <$> omap (item_for by_ref) l
  = filter (fun it => is_Some (item_for by_ref it)) l.
Proof.
  induction l as [|it l IH]; [reflexivity|].
  cbn [omap list_omap]. rewrite filter_cons.
  destruct (item_for by_ref it) as [m|] eqn:Hm.
  - rewrite decide_True by eauto. cbn. rewrite IH.
    now rewrite (item_for_load by_ref it m Hm).
  - rewrite decide_False by (intros [? H]; discriminate). exact IH.
Qed.

Lemma item_for_keyed (transactions : list Transaction) (it : ref DriverLoad)
    (m : Matched) :
  item_for (trans_by_ref_of transactions) it = Some m ->
  m_load m = it
  /\ exists k,
       k <> "" /\ last_keyed transactions k (m_transaction m)
       /\ ((match_type m = "exact_load_number"
            /\ dl_load_num (deref it) = Some k)
           \/ (match_type m = "partial_load_number"
               /\ nums_overlap (deref it) k
               /\ no_exact transactions (deref it))).
Proof.
  unfold item_for. intros H.
  destruct (match_driver_load_cases transactions (deref it))
    as [(n & t & Hn & Hne & Hlast & Hr)
       |[(Hno & k & t & Hfirst & Hlast & Hr)|(_ & _ & Hr)]];
    cbn zeta in Hr; rewrite Hr in H; [| |discriminate];
    injection H as <-; cbn [matched_of m_load m_transaction match_type].
  - split; [reflexivity|]. exists n. auto.
  - split; [reflexivity|]. exists k.
    destruct Hfirst as (l1 & l2 & Hl & Ho & _).
    split; [|split; [exact Hlast|right; auto]].
    apply (trans_items transactions k t). rewrite Hl.
    apply elem_of_app. right. apply elem_of_cons. now left.
Qed.

Lemma elem_of_matched_refs (k : string) (matched : list Matched) :
  k ∈ matched_refs_of matched
  <-> k <> "" /\ exists m, m ∈ matched
                           /\ tx_load_ref (deref (m_transaction m)) = Some k.
Proof.
  unfold matched_refs_of. rewrite elem_of_list_to_set, list_elem_of_omap.
  split.
  - intros (m & Hm & Hf). cbn zeta in Hf.
    destruct (tx_load_ref (deref (m_transaction m))) as [[|c r]|] eqn:Hr;
      cbn [opt_str_truthy] in Hf; try discriminate.
    injection Hf as <-. split; [discriminate|]. eauto.
  - intros (Hk & m & Hm & Hr). exists m. split; [exact Hm|]. cbn zeta.
    rewrite Hr. destruct k; [congruence|reflexivity].
Qed.

Lemma is_unmatched_spec (refs : gset string) (it : ref Transaction) :
  is_unmatched refs it = true
  <-> exists k, k <> "" /\ has_key k it /\ k ∉ refs.
Proof.
  unfold is_unmatched, has_key.
  destruct (tx_load_ref (deref it)) as [r|].
  - rewrite !andb_true_iff, bool_decide_eq_true, str_truthy_spec. split.
    + intros [[Hd Hr] Hn]. exists r. auto.
    + intros (k & Hk & [[= <-] Hd] & Hn). auto.
  - cbn. rewrite andb_false_r. split; [discriminate|].
    intros (k & _ & [H _] & _). discriminate.
Qed.

Lemma has_key_unique (k r : string) (it : ref Transaction) :
  has_key k it -> has_key r it -> k = r.
Proof. intros [H1 _] [H2 _]. congruence. Qed.

(** The lookup of the clean-data matcher holds deposits only, and of the
    deposits with one reference the last: a reference is found exactly when
    it is not empty and some transaction with a deposit amount carries it,
    and the transaction found is the last such one of the list. *)
Theorem clean_lookup_keeps_last_deposit (transactions : list Transaction) :
  let by_ref := trans_by_ref_of transactions in
  (forall r it, dict_get r by_ref = Some it
                <-> r <> "" /\ last_keyed transactions r it)
  /\ NoDup by_ref.*1
  /\ Forall (fun item => item.1 <> "" /\ last_keyed transactions item.1 item.2)
            by_ref.
Proof.
  cbn zeta. split; [apply trans_get_last|]. split.
  - apply (fold_trans_keys (enumerate transactions)).
  - apply list.Forall_forall. intros [k it] H. now apply trans_items.
Qed.

(** The two tiers, for a whole run of the clean-data matcher.  When some
    deposit carries the number of the load, the load is matched with the
    last such deposit, type exact_load_number; otherwise, when its number and
    the reference of some item of the lookup contain one another, with the
    first such item, type partial_load_number; otherwise the load is listed
    unmatched.  The amount of the load is never looked at. *)
Theorem driver_load_matched_by_tiers (transactions : list Transaction)
    (driver_loads : list DriverLoad) (n : nat) (load : DriverLoad) :
  let r := reconcile transactions driver_loads in
  let by_ref := trans_by_ref_of transactions in
  driver_loads !! n = Some load ->
  (exists k t,
      dl_load_num load = Some k /\ k <> "" /\ last_keyed transactions k t
      /\ matched_of (Ref n load) t "exact_load_number" ∈ r.1.1)
  \/ (no_exact transactions load
      /\ exists k t,
           first_such (fun item => nums_overlap load item.1) by_ref (k, t)
           /\ last_keyed transactions k t
           /\ matched_of (Ref n load) t "partial_load_number" ∈ r.1.1)
  \/ (no_exact transactions load
      /\ (forall item, item ∈ by_ref -> ~ nums_overlap load item.1)
      /\ Ref n load ∈ r.2).
Proof.
  cbn zeta. intros Hn. rewrite reconcile_eq. cbn [fst snd].
  assert (Hin : Ref n load ∈ enumerate driver_loads)
    by now apply elem_of_enumerate.
  assert (Hitem : forall t ty,
             match_driver_load (trans_by_ref_of transactions) load
             = Some (t, ty) ->
             matched_of (Ref n load) t ty
             ∈ omap (item_for (trans_by_ref_of transactions))
                    (enumerate driver_loads)).
  { intros t ty H. apply list_elem_of_omap. exists (Ref n load).
    split; [exact Hin|]. unfold item_for. cbn [deref]. now rewrite H. }
  destruct (match_driver_load_cases transactions load)
    as [(k & t & Hk & Hne & Hlast & Hr)
       |[(Hno & k & t & Hfirst & Hlast & Hr)|(Hno & Hnp & Hr)]];
    cbn zeta in Hr.
  - left. exists k, t. auto.
  - right. left. split; [exact Hno|]. exists k, t. auto.
  - right. right. split; [exact Hno|]. split; [exact Hnp|].
    apply list_elem_of_filter. split; [|exact Hin].
    unfold item_for. cbn [deref]. rewrite Hr. intros [? H]. discriminate.
Qed.

(** In the clean-data matcher every load has one outcome: it is the load of
    one item of [matched] or it is listed once among the unmatched loads.
    The three lists keep the order of the input. *)
Theorem every_driver_load_has_one_outcome (transactions : list Transaction)
    (driver_loads : list DriverLoad) :
  let r := reconcile transactions driver_loads in
  (forall i l, driver_loads !! i = Some l ->
               (occ i (matched_loads r.1.1) + times_listed i r.2)%nat = 1%nat)
  /\ m_load <$> r.1.1 `sublist_of` enumerate driver_loads
  /\ r.2 `sublist_of` enumerate driver_loads
  /\ r.1.2 `sublist_of` enumerate transactions.
Proof.
  cbn zeta. rewrite reconcile_eq. cbn [fst snd].
  set (by_ref := trans_by_ref_of transactions).
  split; [|split; [|split]].
  - intros i l Hi. unfold matched_loads.
    transitivity
      (occ i (slot <$> (m_load <$> omap (item_for by_ref)
                                        (enumerate driver_loads)))
       + times_listed i
           (filter (fun it => ~ is_Some (item_for by_ref it))
                   (enumerate driver_loads)))%nat.
    { f_equal. f_equal. now rewrite <- list_fmap_compose. }
    rewrite item_for_loads, times_listed_occ.
    rewrite (occ_filter_enumerate
               (fun it => is_Some (item_for by_ref it)) driver_loads i l Hi).
    rewrite (occ_filter_enumerate
               (fun it => ~ is_Some (item_for by_ref it)) driver_loads i l Hi).
    destruct (decide (is_Some (item_for by_ref (Ref i l)))) as [H|H].
    + rewrite decide_False by tauto. reflexivity.
    + rewrite decide_True by exact H. reflexivity.
  - rewrite item_for_loads. apply sublist_filter.
  - apply sublist_filter.
  - apply sublist_filter.
Qed.

(** What an item of [matched] holds: a load of the input and the last
    deposit that carries some non-empty reference; for the type
    exact_load_number this reference is the number of the load, for the type
    partial_load_number it and the number contain one another and no deposit
    carries the number itself. *)
Theorem matched_items_hold_last_deposits (transactions : list Transaction)
    (driver_loads : list DriverLoad) :
  Forall (fun m =>
            m_load m ∈ enumerate driver_loads
            /\ exists k,
                 k <> "" /\ last_keyed transactions k (m_transaction m)
                 /\ ((match_type m = "exact_load_number"
                      /\ dl_load_num (deref (m_load m)) = Some k)
                     \/ (match_type m = "partial_load_number"
                         /\ nums_overlap (deref (m_load m)) k
                         /\ no_exact transactions (deref (m_load m)))))
         (reconcile transactions driver_loads).1.1.
Proof.
  rewrite reconcile_eq. cbn [fst snd]. apply list.Forall_forall.
  intros m (it & Hit & Hm)%list_elem_of_omap.
  destruct (item_for_keyed transactions it m Hm) as [-> H].
  split; [exact Hit|exact H].
Qed.

(** The unmatched transactions are found by reference, not by line: a
    transaction is listed exactly when it is a deposit with a non-empty
    reference that no matched transaction carries. *)
Theorem unmatched_transactions_by_reference (transactions : list Transaction)
    (driver_loads : list DriverLoad) (it : ref Transaction) :
  let r := reconcile transactions driver_loads in
  it ∈ r.1.2
  <-> it ∈ enumerate transactions
      /\ exists k,
           k <> "" /\ has_key k it
           /\ forall m, m ∈ r.1.1 ->
                        tx_load_ref (deref (m_transaction m)) <> Some k.
Proof.
  cbn zeta. rewrite reconcile_eq. cbn [fst snd].
  rewrite list_elem_of_filter, is_unmatched_spec. split.
  - intros [(k & Hk & Hkey & Hn) Hin]. split; [exact Hin|].
    exists k. split; [exact Hk|]. split; [exact Hkey|].
    intros m Hm Hr. apply Hn, elem_of_matched_refs. eauto.
  - intros [Hin (k & Hk & Hkey & Hn)]. split; [|exact Hin].
    exists k. split; [exact Hk|]. split; [exact Hkey|].
    intros (_ & m & Hm & Hr)%elem_of_matched_refs. exact (Hn m Hm Hr).
Qed.

(** A deposit can vanish from the result.  When two deposits carry the
    same reference and some load has this reference as its number, the
    earlier deposit is in no item of [matched] and is not listed among the
    unmatched transactions either. *)
Theorem shadowed_deposit_is_dropped (transactions : list Transaction)
    (driver_loads : list DriverLoad) (i j n : nat) (ti tj : Transaction)
    (load : DriverLoad) (k : string) :
  let r := reconcile transactions driver_loads in
  transactions !! i = Some ti -> transactions !! j = Some tj -> (i < j)%nat ->
  has_key k (Ref i ti) -> has_key k (Ref j tj) -> k <> "" ->
  driver_loads !! n = Some load -> dl_load_num load = Some k ->
  i ∉ matched_transactions r.1.1 /\ Ref i ti ∉ r.1.2.
Proof.
  cbn zeta. intros Hi Hj Hlt Hki Hkj Hk Hn Hnum.
  rewrite reconcile_eq. cbn [fst snd].
  set (by_ref := trans_by_ref_of transactions).
  assert (Hini : Ref i ti ∈ enumerate transactions)
    by now apply elem_of_enumerate.
  assert (Hinj : Ref j tj ∈ enumerate transactions)
    by now apply elem_of_enumerate.
  split.
  - unfold matched_transactions.
    intros (m & Hs & (it & Hit & Hm)%list_elem_of_omap)%list_elem_of_fmap.
    destruct (item_for_keyed transactions it m Hm)
      as (_ & k' & _ & (Hin & Hkey & Hmax) & _).
    assert (Heq : m_transaction m = Ref i ti).
    { apply (enumerate_same_slot transactions); [exact Hin|exact Hini|].
      now rewrite <- Hs. }
    rewrite Heq in Hkey, Hmax.
    rewrite (has_key_unique _ _ _ Hkey Hki) in Hmax.
    specialize (Hmax (Ref j tj) Hinj Hkj). cbn [slot] in Hmax. lia.
  - intros [Hu _]%list_elem_of_filter.
    apply is_unmatched_spec in Hu as (k' & _ & Hkey & Hnot).
    rewrite (has_key_unique _ _ _ Hkey Hki) in Hnot.
    apply Hnot, elem_of_matched_refs. split; [exact Hk|].
    destruct (match_driver_load_cases transactions load)
      as [(k0 & t & Hk0 & _ & (_ & [Hr _] & _) & Hres)
         |[(Hno & _)|(Hno & _)]];
      try (exfalso; exact (Hno k (Ref j tj) Hnum Hk Hinj Hkj)).
    cbn zeta in Hres. rewrite Hnum in Hk0. injection Hk0 as <-.
    exists (matched_of (Ref n load) t "exact_load_number").
    split; [|exact Hr].
    apply list_elem_of_omap. exists (Ref n load).
    split; [now apply elem_of_enumerate|].
    unfold item_for, by_ref. cbn [deref]. now rewrite Hres.
Qed.

End CleanDataRun.

(** ** The clean-data matcher on small inputs *)

Section CleanDataExamples.

Import CleanData SpecCD.

Local Open Scope string_scope.
Local Open Scope list_scope.

Lemma driver_load_matched_by_tiers_witness :
  exists t,
    matched_of (Ref 0 (haul (Some "627908"))) t "exact_load_number"
    ∈ (reconcile [deposit_line (Some "627908") (Some (cents 39000))]
                 [haul (Some "627908")]).1.1.
Proof.
  destruct (driver_load_matched_by_tiers
              [deposit_line (Some "627908") (Some (cents 39000))]
              [haul (Some "627908")] 0 (haul (Some "627908")))
    as [(k & t & _ & _ & _ & Hr)|[(Hno & _)|(Hno & _)]].
  - reflexivity.
  - exists t. exact Hr.
  - exfalso.
    apply (Hno "627908"
               (Ref 0 (deposit_line (Some "627908") (Some (cents 39000))))).
    + reflexivity.
    + discriminate.
    + apply elem_of_enumerate. reflexivity.
    + split; [reflexivity|vm_compute; reflexivity].
  - exfalso.
    apply (Hno "627908"
               (Ref 0 (deposit_line (Some "627908") (Some (cents 39000))))).
    + reflexivity.
    + discriminate.
    + apply elem_of_enumerate. reflexivity.
    + split; [reflexivity|vm_compute; reflexivity].
Defined.

Lemma shadowed_deposit_is_dropped_witness :
  let first := deposit_line (Some "627908") (Some (cents 12000)) in
  let second := deposit_line (Some "627908") (Some (cents 39000)) in
  let r := reconcile [first; second] [haul (Some "627908")] in
  (0%nat ∉ matched_transactions r.1.1) /\ (Ref 0 first ∉ r.1.2).
Proof.
  cbn zeta.
  apply (shadowed_deposit_is_dropped
           [ deposit_line (Some "627908") (Some (cents 12000));
             deposit_line (Some "627908") (Some (cents 39000)) ]
           [haul (Some "627908")] 0 1 0
           (deposit_line (Some "627908") (Some (cents 12000)))
           (deposit_line (Some "627908") (Some (cents 39000)))
           (haul (Some "627908")) "627908").
  - reflexivity.
  - reflexivity.
  - lia.
  - split; [reflexivity|vm_compute; reflexivity].
  - split; [reflexivity|vm_compute; reflexivity].
  - discriminate.
  - reflexivity.
  - reflexivity.
Defined.

End CleanDataExamples.
